(** * Markov guess generation of the pcfg_manager (markov_cracker.py)

    A shallow embedding of [MarkovIndex] and [MarkovCracker]: the statistics
    loader [load_markov_stats], and the guess generator [next_guess] with its
    helpers [dig_deeper] and [dig_wider_base], followed by the properties of
    the enumeration.

    Conventions.
    - A Python character (a [str] of length one) is its code point, a [Z];
      a guess, the list [markov_index.guess], is a [list letter] in the
      order of the Python list (index 0 first); [''.join] of such a list is
      the list itself.
    - A line of the statistics file is a [string] of characters with code
      points below 256; [strip], [split], [in], [int] and [chr] are the
      builtins of CPython 3.11 on such strings, [int] with the default
      limit of 4300 digits.
    - Python integers are unbounded: levels and probabilities are [Z].
    - Dictionaries are [gmap]s; a missing key is a [KeyError].
    - The [while True] loops take a fuel argument; running out of it is the
      outcome [OutOfFuel], distinct from every Python outcome.
    - An exception that leaves [next_guess] ends the run of the model: the
      state of the index at that point is not kept. In the loader, whose
      handler catches every exception, the object goes on as it is.
    - The text written by [print] is not modelled. *)

From Stdlib Require Import ZArith String Ascii Lia.
From stdpp Require Import gmap list sorting.

Open Scope Z_scope.

(** ** Python strings, as far as the loader needs them *)

Module PyStr.

(** [str.isspace] on the code points below 256: TAB..CR, FS..US, the
    space, NEL (U+0085) and the no-break space (U+00A0). These are the
    characters that [strip] takes off. *)
Definition is_space (c : ascii) : bool :=
  let n := Z.of_nat (nat_of_ascii c) in
  ((9 <=? n) && (n <=? 13)) || ((28 <=? n) && (n <=? 32))
  || (n =? 133) || (n =? 160).

Fixpoint lstrip (s : string) : string :=
  match s with
  | EmptyString => EmptyString
  | String c s' => if is_space c then lstrip s' else s
  end.

Fixpoint rstrip (s : string) : string :=
  match s with
  | EmptyString => EmptyString
  | String c s' =>
      match rstrip s' with
      | EmptyString => if is_space c then EmptyString else String c EmptyString
      | r => String c r
      end
  end.

(** [s.strip()] *)
Definition strip (s : string) : string := rstrip (lstrip s).

(** [sub in s] *)
Fixpoint contains (sub s : string) : bool :=
  String.prefix sub s ||
  match s with
  | EmptyString => false
  | String _ s' => contains sub s'
  end.

(** [s.split(sep)] for a non-empty [sep]: the pieces between the
    occurrences of [sep], found from left to right without overlap.
    [skip] counts the characters of a separator still to be passed over,
    [acc] holds the current piece, reversed. *)
Fixpoint split_from (sep : string) (skip : nat) (acc : list ascii) (s : string)
  : list string :=
  match s with
  | EmptyString => [string_of_list_ascii (rev acc)]
  | String c s' =>
      match skip with
      | S k => split_from sep k acc s'
      | O =>
          if String.prefix sep s
          then string_of_list_ascii (rev acc)
                 :: split_from sep (Nat.pred (String.length sep)) [] s'
          else split_from sep O (c :: acc) s'
      end
  end.

Definition split (sep s : string) : list string := split_from sep O [] s.

(** [s[:-1]] *)
Fixpoint drop_last (s : string) : string :=
  match s with
  | EmptyString => EmptyString
  | String c EmptyString => EmptyString
  | String c s' => String c (drop_last s')
  end.

Definition digit_val (c : ascii) : option Z :=
  let n := Z.of_nat (nat_of_ascii c) in
  if (48 <=? n) && (n <=? 57) then Some (n - 48) else None.

(** The digits of a decimal literal as [int] reads them: single
    underscores are allowed between two digits. [prev_digit] tells whether
    the character just read was a digit. *)
Fixpoint digits (acc : Z) (prev_digit : bool) (s : string) : option Z :=
  match s with
  | EmptyString => if prev_digit then Some acc else None
  | String c s' =>
      match digit_val c with
      | Some d => digits (10 * acc + d) true s'
      | None =>
          if Ascii.eqb c "_"%char && prev_digit then digits acc false s'
          else None
      end
  end.

(** The white space that [int] skips around a numeral: TAB..CR and the
    space, and, of the characters from 128 on, those of [str.isspace],
    NEL and the no-break space. The separators FS..US are not skipped:
    [int] raises on them. *)
Definition is_int_space (c : ascii) : bool :=
  let n := Z.of_nat (nat_of_ascii c) in
  ((9 <=? n) && (n <=? 13)) || (n =? 32) || (n =? 133) || (n =? 160).

Fixpoint int_lstrip (s : string) : string :=
  match s with
  | EmptyString => EmptyString
  | String c s' => if is_int_space c then int_lstrip s' else s
  end.

Fixpoint int_rstrip (s : string) : string :=
  match s with
  | EmptyString => EmptyString
  | String c s' =>
      match int_rstrip s' with
      | EmptyString => if is_int_space c then EmptyString else String c EmptyString
      | r => String c r
      end
  end.

(** The number of decimal digits of a literal, underscores left out. *)
Fixpoint count_digits (s : string) : nat :=
  match s with
  | EmptyString => O
  | String c s' =>
      match digit_val c with
      | Some _ => S (count_digits s')
      | None => count_digits s'
      end
  end.

(** [sys.get_int_max_str_digits()], by default. *)
Definition max_str_digits : nat := 4300.

(** The digits of [int], after the white space and the sign: a literal of
    more than [max_str_digits] digits is a [ValueError]. *)
Definition int_digits (r : string) : option Z :=
  if (max_str_digits <? count_digits r)%nat then None else digits 0 false r.

(** [int(s)] in base ten on a string of code points below 256: surrounding
    white space, an optional sign, then the digits. [None] stands for
    [ValueError]. *)
Definition int (s : string) : option Z :=
  match int_rstrip (int_lstrip s) with
  | String "+"%char r => int_digits r
  | String "-"%char r => Z.opp <$> int_digits r
  | t => int_digits t
  end.

(** [chr(n)]: the character with code point [n]; [None] stands for the
    [ValueError] outside of [0 .. 0x10FFFF]. *)
Definition chr (n : Z) : option Z :=
  if (0 <=? n) && (n <=? 1114111) then Some n else None.

(** The code points of an ASCII literal, to write guesses readably. *)
Definition codes (s : string) : list Z :=
  map (fun c => Z.of_nat (nat_of_ascii c)) (list_ascii_of_string s).

End PyStr.

(** ** Outcomes of a Python call *)

Inductive exn : Type :=
  | KeyError | IndexError | ValueError | TypeError | RuntimeError.

Inductive res (A : Type) : Type :=
  | Return (a : A)
  | Raise (e : exn)
  | OutOfFuel.
Arguments Return {A} a.
Arguments Raise {A} e.
Arguments OutOfFuel {A}.

#[global] Instance res_bind : MBind res := fun A B k r =>
  match r with
  | Return a => k a
  | Raise e => Raise e
  | OutOfFuel => OutOfFuel
  end.

(** [expect e o]: the value of a lookup, or the exception [e]. *)
Definition expect {A : Type} (e : exn) (o : option A) : res A :=
  match o with
  | Some a => Return a
  | None => Raise e
  end.

(** ** The statistics *)

Definition letter : Type := Z.

(** An entry of ['following_letters']: [{'probability': _, 'next': _}]. *)
Record following_stats : Type := mk_following {
  f_probability : Z;
  f_next : option letter
}.

(** An entry of [markov_stats]. *)
Record letter_stats : Type := mk_letter_stats {
  probability : Z;
  following_letters : gmap Z following_stats;
  first_child : option letter;
  last_child : option letter;
  next : option letter
}.

(** The attributes of a [MarkovCracker] that its methods read. (The
    attributes [min_level], [max_level], [guess] and [guess_level] set at
    the end of [__init__] are never read: the session lives in the
    [MarkovIndex].) *)
Record MarkovCracker : Type := mk_cracker {
  markov_stats : gmap Z letter_stats;
  start_letter : option letter
}.

Record MarkovIndex : Type := mk_index {
  min_level : Z;
  max_level : Z;
  guess : option (list letter);
  guess_level : Z
}.

(** [MarkovIndex.__init__] *)
Definition MarkovIndex_init (min_level max_level : Z) : MarkovIndex :=
  {| min_level := min_level; max_level := max_level;
     guess := None; guess_level := 0 |}.

Definition set_guess (mi : MarkovIndex) (g : option (list letter)) : MarkovIndex :=
  {| min_level := min_level mi; max_level := max_level mi;
     guess := g; guess_level := guess_level mi |}.

Definition set_guess_level (mi : MarkovIndex) (l : Z) : MarkovIndex :=
  {| min_level := min_level mi; max_level := max_level mi;
     guess := guess mi; guess_level := l |}.

Definition set_next (nd : letter_stats) (n : option letter) : letter_stats :=
  {| probability := probability nd; following_letters := following_letters nd;
     first_child := first_child nd; last_child := last_child nd; next := n |}.

Definition set_following (nd : letter_stats) (f : gmap Z following_stats)
  : letter_stats :=
  {| probability := probability nd; following_letters := f;
     first_child := first_child nd; last_child := last_child nd;
     next := next nd |}.

Definition set_children (nd : letter_stats) (fc lc : option letter)
  : letter_stats :=
  {| probability := probability nd; following_letters := following_letters nd;
     first_child := fc; last_child := lc; next := next nd |}.

Definition set_stats (self : MarkovCracker) (st : gmap Z letter_stats)
  : MarkovCracker :=
  {| markov_stats := st; start_letter := start_letter self |}.

(** ** Loading the statistics file *)

Import PyStr.

(** The parsing of a line with [=proba1]:
    [<probability>=proba1[<code point>]]. *)
Definition parse_proba1 (line : string) : res (letter * Z) :=
  let results := split "=proba1[" (strip line) in
  r1 ← expect IndexError (results !! 1%nat);
  n ← expect ValueError (int (drop_last r1));
  letter ← expect ValueError (chr n);
  r0 ← expect IndexError (results !! 0%nat);
  prob ← expect ValueError (int r0);
  Return (letter, prob).

(** The parsing of a line with [=proba2]:
    [<probability>=proba2[<code point 1>*256+<code point 2>]]. *)
Definition parse_proba2 (line : string) : res (Z * letter * letter) :=
  let results := split "=proba2[" (strip line) in
  r0 ← expect IndexError (results !! 0%nat);
  prob ← expect ValueError (int r0);
  r1 ← expect IndexError (results !! 1%nat);
  let results := split "*256+" r1 in
  a ← expect IndexError (results !! 0%nat);
  n1 ← expect ValueError (int a);
  letter1 ← expect ValueError (chr n1);
  b ← expect IndexError (results !! 1%nat);
  n2 ← expect ValueError (int (drop_last b));
  letter2 ← expect ValueError (chr n2);
  Return (prob, letter1, letter2).

(** What one line does to the loader: it goes on with the object and
    [prev_proba1] updated, or [load_markov_stats] returns [None] at this
    line (an invalid line, or an exception caught by the handler), the
    object being left as it is at that point. *)
Inductive line_outcome : Type :=
  | Loaded (self : MarkovCracker) (prev_proba1 : option letter)
  | Failed (self : MarkovCracker).

(** The branch of the zero order statistics. *)
Definition load_proba1 (self : MarkovCracker) (prev_proba1 : option letter)
    (line : string) : line_outcome :=
  match parse_proba1 line with
  | Return (letter, prob) =>
      let stats :=
        <[letter := {| probability := prob; following_letters := ∅;
                       first_child := None; last_child := None;
                       next := None |}]> (markov_stats self) in
      let start :=
        match start_letter self with
        | None => Some letter
        | Some s => Some s
        end in
      let self1 := {| markov_stats := stats; start_letter := start |} in
      match prev_proba1 with
      | None => Loaded self1 (Some letter)
      | Some p =>
          match stats !! p with
          | Some nd =>
              Loaded (set_stats self1 (<[p := set_next nd (Some letter)]> stats))
                     (Some letter)
          | None => Failed self1
          end
      end
  | _ => Failed self
  end.

(** The branch of the first order statistics. *)
Definition load_proba2 (self : MarkovCracker) (prev_proba1 : option letter)
    (line : string) : line_outcome :=
  match parse_proba2 line with
  | Return (prob, letter1, letter2) =>
      match markov_stats self !! letter1 with
      | None => Failed self
      | Some nd =>
          let fl1 :=
            <[letter2 := {| f_probability := prob; f_next := None |}]>
              (following_letters nd) in
          let nd1 := set_following nd fl1 in
          let linked :=
            match last_child nd1 with
            | None => Some nd1
            | Some lc =>
                match fl1 !! lc with
                | Some e =>
                    Some (set_following nd1
                            (<[lc := {| f_probability := f_probability e;
                                        f_next := Some letter2 |}]> fl1))
                | None => None
                end
            end in
          match linked with
          | None => Failed (set_stats self (<[letter1 := nd1]> (markov_stats self)))
          | Some nd2 =>
              let fc :=
                match first_child nd2 with
                | None => Some letter2
                | Some c => Some c
                end in
              let nd3 := set_children nd2 fc (Some letter2) in
              Loaded (set_stats self (<[letter1 := nd3]> (markov_stats self)))
                     prev_proba1
          end
      end
  | _ => Failed self
  end.

(** The [for line in file] loop. The result is [true] for Python's [True]
    and [false] for [None]. *)
Fixpoint load_lines (self : MarkovCracker) (prev_proba1 : option letter)
    (lines : list string) : bool * MarkovCracker :=
  match lines with
  | [] => (true, self)
  | line :: rest =>
      if contains "=proba1" line then
        match load_proba1 self prev_proba1 line with
        | Loaded self' prev' => load_lines self' prev' rest
        | Failed self' => (false, self')
        end
      else if contains "=proba2" line then
        match load_proba2 self prev_proba1 line with
        | Loaded self' prev' => load_lines self' prev' rest
        | Failed self' => (false, self')
        end
      else (false, self)
  end.

(** [load_markov_stats]. The file system is resolved by the caller of the
    model: [file] is [None] when the statistics file cannot be opened, and
    the list of its lines otherwise. *)
Definition load_markov_stats (self : MarkovCracker) (file : option (list string))
  : bool * MarkovCracker :=
  match file with
  | None => (false, self)
  | Some lines => load_lines self None lines
  end.

(** [MarkovCracker.__init__]: [rule_directory] is [None], or the statistics
    file found there. The bare [raise] outside of a handler is a
    [RuntimeError]. *)
Definition MarkovCracker_init (rule_directory : option (option (list string)))
  : res MarkovCracker :=
  let self := {| markov_stats := ∅; start_letter := None |} in
  match rule_directory with
  | None => Return self
  | Some file =>
      let '(ok, self') := load_markov_stats self file in
      if ok then Return self' else Raise RuntimeError
  end.

(** ** Guess generation *)

Definition join (g : list letter) : list letter := g.

(** [min_level <= l and l <= max_level] *)
Definition in_range (mi : MarkovIndex) (l : Z) : bool :=
  (min_level mi <=? l) && (l <=? max_level mi).

(** [guess[-1] = c] *)
Definition set_last (g : list letter) (c : letter) : list letter :=
  removelast g ++ [c].

(** [dig_deeper]: go from ['a'] to ['aa'] to ['aaa']. *)
Fixpoint dig_deeper (fuel : nat) (self : MarkovCracker) (mi : MarkovIndex)
  : res (option (list letter) * MarkovIndex) :=
  match fuel with
  | O => OutOfFuel
  | S fuel' =>
      g ← expect TypeError (guess mi);
      prev_letter ← expect IndexError (last g);
      nd ← expect KeyError (markov_stats self !! prev_letter);
      match first_child nd with
      | None => Return (None, mi)
      | Some cur_letter =>
          e ← expect KeyError (following_letters nd !! cur_letter);
          let cur_level := guess_level mi + f_probability e in
          let mi' := set_guess_level (set_guess mi (Some (g ++ [cur_letter])))
                                     cur_level in
          if in_range mi cur_level then
            Return (Some (join (g ++ [cur_letter])), mi')
          else if max_level mi <? cur_level then
            Return (None, mi)
          else dig_deeper fuel' self mi'
      end
  end.

(** [dig_wider_base]: go from ['a'] to ['b'] to ['c'] for the first
    character. The result is [(more_work, ret_value)]. *)
Definition dig_wider_base (self : MarkovCracker) (mi : MarkovIndex)
    (parent_letter : letter)
  : res (bool * option (list letter) * MarkovIndex) :=
  nd ← expect KeyError (markov_stats self !! parent_letter);
  match next nd with
  | None => Return (false, None, set_guess mi None)
  | Some cur_letter =>
      nc ← expect KeyError (markov_stats self !! cur_letter);
      let mi1 := set_guess_level mi (probability nc) in
      if max_level mi1 <? guess_level mi1 then
        Return (false, None, set_guess mi1 None)
      else
        g ← expect TypeError (guess mi1);
        _ ← expect IndexError (last g);
        let mi2 := set_guess mi1 (Some (set_last g cur_letter)) in
        if in_range mi2 (guess_level mi2) then
          Return (false, Some (join (set_last g cur_letter)), mi2)
        else Return (true, None, mi2)
  end.

(** How the inner [while True] loop of [next_guess] ends: with [break],
    back to [dig_deeper], or with the [return] of [next_guess]. *)
Inductive widened : Type :=
  | Break (mi : MarkovIndex)
  | Done (ret_value : option (list letter)) (mi : MarkovIndex).

(** The inner loop of [next_guess]: back out and try other letters at the
    same depth, or lower. *)
Fixpoint dig_wider (fuel : nat) (self : MarkovCracker) (mi : MarkovIndex)
  : res widened :=
  match fuel with
  | O => OutOfFuel
  | S fuel' =>
      g ← expect TypeError (guess mi);
      parent_letter ← expect IndexError (last g);
      if (length g =? 1)%nat then
        r ← dig_wider_base self mi parent_letter;
        match r with
        | (true, _, mi') => Return (Break mi')
        | (false, ret_value, mi') => Return (Done ret_value mi')
        end
      else
        prev_letter ← expect IndexError (last (removelast g));
        nd ← expect KeyError (markov_stats self !! prev_letter);
        e ← expect KeyError (following_letters nd !! parent_letter);
        let mi1 := set_guess_level mi (guess_level mi - f_probability e) in
        match f_next e with
        | None => dig_wider fuel' self (set_guess mi1 (Some (removelast g)))
        | Some cur_letter =>
            ec ← expect KeyError (following_letters nd !! cur_letter);
            let cur_level := guess_level mi1 + f_probability ec in
            let mi2 := set_guess (set_guess_level mi1 cur_level)
                                 (Some (set_last g cur_letter)) in
            if in_range mi1 cur_level then
              Return (Done (Some (join (set_last g cur_letter))) mi2)
            else if cur_level <? max_level mi1 then
              Return (Break mi2)
            else dig_wider fuel' self (set_guess mi1 (Some (removelast g)))
        end
  end.

(** The outer [while True] loop of [next_guess]. *)
Fixpoint guess_loop (fuel : nat) (self : MarkovCracker) (mi : MarkovIndex)
  : res (option (list letter) * MarkovIndex) :=
  match fuel with
  | O => OutOfFuel
  | S fuel' =>
      r ← dig_deeper fuel' self mi;
      match r with
      | (Some ret_value, mi1) => Return (Some ret_value, mi1)
      | (None, mi1) =>
          w ← dig_wider fuel' self mi1;
          match w with
          | Done ret_value mi2 => Return (ret_value, mi2)
          | Break mi2 => guess_loop fuel' self mi2
          end
      end
  end.

(** [next_guess]: the next guess of the session [markov_index], [None] when
    no guess is left. *)
Definition next_guess (fuel : nat) (self : MarkovCracker) (mi : MarkovIndex)
  : res (option (list letter) * MarkovIndex) :=
  match guess mi with
  | None =>
      s ← expect KeyError (start_letter self);
      nd ← expect KeyError (markov_stats self !! s);
      let mi2 := set_guess_level (set_guess mi (Some [s])) (probability nd) in
      if in_range mi2 (guess_level mi2) then Return (Some (join [s]), mi2)
      else guess_loop fuel self mi2
  | Some _ => guess_loop fuel self mi
  end.

(** ** Sessions *)

(** A caller's session: [n] calls of [next_guess] in a row on the same
    [MarkovIndex]; the results of the calls, in order, and the index
    after the last one. *)
Fixpoint session (fuel : nat) (self : MarkovCracker) (n : nat) (mi : MarkovIndex)
  : res (list (option (list letter)) * MarkovIndex) :=
  match n with
  | O => Return ([], mi)
  | S n' =>
      r ← next_guess fuel self mi;
      rs ← session fuel self n' r.2;
      Return (r.1 :: rs.1, rs.2)
  end.

(** ** Levels *)

(** [markov_stats[c]['probability']] *)
Definition start_probability (self : MarkovCracker) (c : letter) : option Z :=
  probability <$> markov_stats self !! c.

(** [markov_stats[c1]['following_letters'][c2]['probability']] *)
Definition transition (self : MarkovCracker) (c1 c2 : letter) : option Z :=
  nd ← markov_stats self !! c1;
  f_probability <$> following_letters nd !! c2.

(** The transition probabilities along [c :: rest], summed up. *)
Fixpoint edges_level (self : MarkovCracker) (c : letter) (rest : list letter)
  : option Z :=
  match rest with
  | [] => Some 0
  | c' :: rest' =>
      t ← transition self c c';
      l ← edges_level self c' rest';
      Some (t + l)
  end.

(** The cumulative level of a guess: the start probability of its first
    character plus the transition probabilities of its consecutive pairs.
    It is defined when the statistics have all these entries. *)
Definition level_of (self : MarkovCracker) (g : list letter) : option Z :=
  match g with
  | [] => None
  | c :: rest =>
      s ← start_probability self c;
      l ← edges_level self c rest;
      Some (s + l)
  end.

(** No prefix of two characters or more lies above [maxl]. *)
Definition bounded (self : MarkovCracker) (maxl : Z) (g : list letter) : Prop :=
  ∀ q, q `prefix_of` g → (2 ≤ length q)%nat →
       ∃ l, level_of self q = Some l ∧ l ≤ maxl.

(** What every loop of [next_guess] keeps. *)
Definition index_ok (self : MarkovCracker) (mi : MarkovIndex) : Prop :=
  ∀ g, guess mi = Some g →
       level_of self g = Some (guess_level mi) ∧ bounded self (max_level mi) g.

(** What a call leaves behind, from an index [mi] to an index [mi'] with
    the result [r]. *)
Definition returned (self : MarkovCracker) (mi : MarkovIndex)
    (r : option (list letter)) (mi' : MarkovIndex) : Prop :=
  min_level mi' = min_level mi ∧ max_level mi' = max_level mi ∧
  index_ok self mi' ∧
  match r with
  | Some s => guess mi' = Some s ∧ in_range mi' (guess_level mi') = true
  | None => guess mi' = None
  end.

(** ** Statistics files used as examples *)

(** A line of a text file, with its end of line. *)
Definition text_line (s : string) : string := s ++ String "010"%char EmptyString.

(** Unigrams [a=0], [b=5]; bigrams [a→a=0], [a→b=3]. *)
Definition scenario_lines : list string :=
  map text_line
    ["0=proba1[97]"; "5=proba1[98]";
     "0=proba2[97*256+97]"; "3=proba2[97*256+98]"]%string.

Definition scenario_model : MarkovCracker :=
  {| markov_stats :=
       <[97 := {| probability := 0;
                  following_letters :=
                    <[97 := {| f_probability := 0; f_next := Some 98 |}]>
                      (<[98 := {| f_probability := 3; f_next := None |}]> ∅);
                  first_child := Some 97; last_child := Some 98;
                  next := Some 98 |}]>
         (<[98 := {| probability := 5; following_letters := ∅;
                     first_child := None; last_child := None;
                     next := None |}]> ∅);
     start_letter := Some 97 |}.

(** The only character is [a], with start probability 0. *)
Definition single_lines : list string := map text_line ["0=proba1[97]"%string].

Definition single_model : MarkovCracker :=
  {| markov_stats :=
       <[97 := {| probability := 0; following_letters := ∅;
                  first_child := None; last_child := None; next := None |}]> ∅;
     start_letter := Some 97 |}.

(** Unigrams [a=0], [b=7], [c=7], [d=7]; bigrams [a→b=1], [a→c=9],
    [a→d=2]: under [a], the sibling [c] lies above a limit of 3 and the
    sibling [d] after it does not. *)
Definition siblings_lines : list string :=
  map text_line
    ["0=proba1[97]"; "7=proba1[98]"; "7=proba1[99]"; "7=proba1[100]";
     "1=proba2[97*256+98]"; "9=proba2[97*256+99]"; "2=proba2[97*256+100]"]%string.

Definition leaf_stats (p : Z) (n : option letter) : letter_stats :=
  {| probability := p; following_letters := ∅;
     first_child := None; last_child := None; next := n |}.

Definition siblings_model : MarkovCracker :=
  {| markov_stats :=
       <[97 := {| probability := 0;
                  following_letters :=
                    <[98 := {| f_probability := 1; f_next := Some 99 |}]>
                      (<[99 := {| f_probability := 9; f_next := Some 100 |}]>
                         (<[100 := {| f_probability := 2; f_next := None |}]> ∅));
                  first_child := Some 98; last_child := Some 100;
                  next := Some 98 |}]>
         (<[98 := leaf_stats 7 (Some 99)]>
            (<[99 := leaf_stats 7 (Some 100)]>
               (<[100 := leaf_stats 7 None]> ∅)));
     start_letter := Some 97 |}.

(** The model of [MarkovCracker()], without a rule directory. *)
Definition empty_model : MarkovCracker :=
  {| markov_stats := ∅; start_letter := None |}.

(** The index of the scenario after [k] calls. *)
Definition scenario_index (k : nat) : MarkovIndex :=
  {| min_level := 0; max_level := 3;
     guess := Some (replicate k 97); guess_level := 0 |}.


(** Unigrams [a=0], [b=2]; bigrams [a→a=1], [a→b=2], [b→a=3]: positive
    transitions, and chains in the order of the probabilities. *)
Definition ordered_lines : list string :=
  map text_line
    ["0=proba1[97]"; "2=proba1[98]";
     "1=proba2[97*256+97]"; "2=proba2[97*256+98]"; "3=proba2[98*256+97]"]%string.

Definition ordered_model : MarkovCracker :=
  {| markov_stats :=
       <[97 := {| probability := 0;
                  following_letters :=
                    <[97 := {| f_probability := 1; f_next := Some 98 |}]>
                      (<[98 := {| f_probability := 2; f_next := None |}]> ∅);
                  first_child := Some 97; last_child := Some 98;
                  next := Some 98 |}]>
         (<[98 := {| probability := 2;
                     following_letters :=
                       <[97 := {| f_probability := 3; f_next := None |}]> ∅;
                     first_child := Some 97; last_child := Some 97;
                     next := None |}]> ∅);
     start_letter := Some 97 |}.

(** Unigrams [a=0], [b=4]; bigrams [a→a=5], [a→b=1]: under [a], the first
    child lies above a limit of 3 and the child after it does not. *)
Definition hidden_lines : list string :=
  map text_line
    ["0=proba1[97]"; "4=proba1[98]";
     "5=proba2[97*256+97]"; "1=proba2[97*256+98]"]%string.

Definition hidden_model : MarkovCracker :=
  {| markov_stats :=
       <[97 := {| probability := 0;
                  following_letters :=
                    <[97 := {| f_probability := 5; f_next := Some 98 |}]>
                      (<[98 := {| f_probability := 1; f_next := None |}]> ∅);
                  first_child := Some 97; last_child := Some 98;
                  next := Some 98 |}]>
         (<[98 := leaf_stats 4 None]> ∅);
     start_letter := Some 97 |}.

(** ** The trie of a model *)

(** The letters of a sibling chain, from [first] on: each letter is looked
    up in [m] and [nxt] gives the link to the next one. [None] when a
    letter is missing or when the fuel runs out (a chain that comes back
    on itself). *)
Fixpoint walk {A : Type} (fuel : nat) (m : gmap Z A) (nxt : A → option letter)
    (first : option letter) : option (list letter) :=
  match first with
  | None => Some []
  | Some c =>
      match fuel with
      | O => None
      | S fuel' =>
          a ← m !! c;
          l ← walk fuel' m nxt (nxt a);
          Some (c :: l)
      end
  end.

(** The top-level chain, from [start_letter] along ['next']. *)
Definition top_chain (self : MarkovCracker) : option (list letter) :=
  walk (size (markov_stats self)) (markov_stats self) next (start_letter self).

(** The chain of the following letters of an entry, from ['first_child']
    along the ['next'] of the following letters. *)
Definition child_chain (nd : letter_stats) : option (list letter) :=
  walk (size (following_letters nd)) (following_letters nd) f_next
       (first_child nd).

Definition top_letters (self : MarkovCracker) : list letter :=
  default [] (top_chain self).

Definition children (self : MarkovCracker) (x : letter) : list letter :=
  match markov_stats self !! x with
  | Some nd => default [] (child_chain nd)
  | None => []
  end.

(** [l] is the chain that starts at [first]. *)
Fixpoint is_chain {A : Type} (m : gmap Z A) (nxt : A → option letter)
    (first : option letter) (l : list letter) : Prop :=
  match l with
  | [] => first = None
  | c :: l' => first = Some c ∧ ∃ a, m !! c = Some a ∧ is_chain m nxt (nxt a) l'
  end.

(** The strings of the trie: a start letter of the top-level chain, and
    then, letter after letter, a following letter of the one before. *)
Fixpoint reachable_from (self : MarkovCracker) (x : letter) (rest : list letter)
  : Prop :=
  match rest with
  | [] => True
  | c :: rest' => c ∈ children self x ∧ reachable_from self c rest'
  end.

Definition reachable (self : MarkovCracker) (g : list letter) : Prop :=
  match g with
  | [] => False
  | c :: rest => c ∈ top_letters self ∧ reachable_from self c rest
  end.

(** The model has a start letter, its chains end, and every following
    letter has an entry of its own. *)
Definition well_formed (self : MarkovCracker) : Prop :=
  start_letter self ≠ None ∧ is_Some (top_chain self) ∧
  map_Forall (λ _ nd,
      is_Some (child_chain nd) ∧
      Forall (λ c, is_Some (markov_stats self !! c)) (default [] (child_chain nd)))
    (markov_stats self).

(** Every transition probability is positive. *)
Definition positive (self : MarkovCracker) : Prop :=
  map_Forall (λ _ nd,
      map_Forall (λ _ e, 0 < f_probability e) (following_letters nd))
    (markov_stats self).

(** [a ≤ b] for two probabilities that are there. *)
Definition le_opt (oa ob : option Z) : Prop :=
  match oa, ob with
  | Some a, Some b => a ≤ b
  | _, _ => True
  end.

#[global] Instance le_opt_dec oa ob : Decision (le_opt oa ob).
Proof. destruct oa, ob; simpl; apply _. Defined.

(** The chains are in the order of the probabilities: along the
    top-level chain the start probabilities do not decrease, and along the
    chain of the following letters of an entry the transition
    probabilities do not decrease. *)
Definition ordered (self : MarkovCracker) : Prop :=
  StronglySorted (λ a b, le_opt (start_probability self a)
                                (start_probability self b))
                 (top_letters self) ∧
  map_Forall (λ x _,
      StronglySorted (λ a b, le_opt (transition self x a) (transition self x b))
                     (children self x))
    (markov_stats self).

(** ** The enumeration, by recursion on the trie *)

(** A visit: a guess and its level. *)
Definition visit : Type := list letter * Z.

(** The visits along the siblings [cs] under the last letter [x] of the
    guess [p], whose level is [lvl]: a sibling above [maxl] ends the walk
    along the chain; a sibling that is not above it is visited, then the
    strings below it, by [rec], then the siblings after it. *)
Fixpoint along (self : MarkovCracker) (maxl : Z)
    (rec : list letter → letter → Z → list visit)
    (p : list letter) (x : letter) (lvl : Z) (cs : list letter) : list visit :=
  match cs with
  | [] => []
  | c :: cs' =>
      match transition self x c with
      | None => []
      | Some t =>
          if maxl <? lvl + t then []
          else (p ++ [c], lvl + t)
                 :: rec (p ++ [c]) c (lvl + t) ++ along self maxl rec p x lvl cs'
      end
  end.

(** The visits below the guess [p], of last letter [x] and level [lvl],
    at most [d] letters deeper. *)
Fixpoint below (self : MarkovCracker) (maxl : Z) (d : nat)
    (p : list letter) (x : letter) (lvl : Z) : list visit :=
  match d with
  | O => []
  | S d' => along self maxl (below self maxl d') p x lvl (children self x)
  end.

(** With positive transitions a level [lvl] leaves room for
    [maxl - lvl] more letters. *)
Definition sub (self : MarkovCracker) (maxl : Z)
    (p : list letter) (x : letter) (lvl : Z) : list visit :=
  below self maxl (Z.to_nat (maxl - lvl)) p x lvl.

(** The visits along the start letters [rs]. *)
Fixpoint along_roots (self : MarkovCracker) (maxl : Z) (rs : list letter)
  : list visit :=
  match rs with
  | [] => []
  | c :: rs' =>
      match start_probability self c with
      | None => []
      | Some s =>
          if maxl <? s then []
          else ([c], s) :: sub self maxl [c] c s ++ along_roots self maxl rs'
      end
  end.

(** All the visits: the first start letter is visited whatever its
    level. *)
Definition visits (self : MarkovCracker) (maxl : Z) : list visit :=
  match top_letters self with
  | [] => []
  | c :: rs =>
      match start_probability self c with
      | None => []
      | Some s => ([c], s) :: sub self maxl [c] c s ++ along_roots self maxl rs
      end
  end.

(** The guesses of a list of visits: those with a level in the band. *)
Definition guesses (minl maxl : Z) (vs : list visit) : list (list letter) :=
  (filter (λ v : visit, minl ≤ v.2 ≤ maxl) vs).*1.

(** The enumeration of a model for the band [minl .. maxl]. *)
Definition enumeration (self : MarkovCracker) (minl maxl : Z)
  : list (list letter) :=
  guesses minl maxl (visits self maxl).


(** ** The index and the place in the trie *)

(** The place of a guess in the trie: for every letter of the guess, the
    last one first, the letter and the siblings that come after it in its
    chain. *)
Definition place : Type := list (letter * list letter).

Definition path (st : place) : list letter := rev st.*1.

Inductive place_ok (self : MarkovCracker) : place → Prop :=
  | place_root pre x r :
      top_letters self = pre ++ x :: r →
      place_ok self [(x, r)]
  | place_child pre x r y ry up :
      children self y = pre ++ x :: r →
      place_ok self ((y, ry) :: up) →
      place_ok self ((x, r) :: (y, ry) :: up).

(** The visits that the widening has still to make, from a place whose
    guess has the level [lvl]. *)
Fixpoint rest_wide (self : MarkovCracker) (maxl : Z) (st : place) (lvl : Z)
  : list visit :=
  match st with
  | [] => []
  | (x, r) :: up =>
      match up with
      | [] => along_roots self maxl r
      | (y, _) :: _ =>
          match transition self y x with
          | None => []
          | Some t =>
              along self maxl (sub self maxl) (path up) y (lvl - t) r
                ++ rest_wide self maxl up (lvl - t)
          end
      end
  end.

(** The visits still to make: below the guess, then by widening. *)
Definition rest_deep (self : MarkovCracker) (maxl : Z) (st : place) (lvl : Z)
  : list visit :=
  match st with
  | [] => []
  | (x, _) :: _ => sub self maxl (path st) x lvl ++ rest_wide self maxl st lvl
  end.

(** The index [mi] is at the place [st], in a session with the bounds
    [minl] and [maxl]. *)
Record at_place (self : MarkovCracker) (minl maxl : Z) (mi : MarkovIndex)
    (st : place) : Prop := {
  at_min : min_level mi = minl;
  at_max : max_level mi = maxl;
  at_guess : guess mi = Some (path st);
  at_ok : place_ok self st
}.

(** A visit below the guess [q ++ [x]]: a string of the trie that goes
    on from the guess, with its level. *)
Definition extends (self : MarkovCracker) (q : list letter) (x : letter) (v : visit) : Prop :=
  reachable self v.1 ∧ level_of self v.1 = Some v.2 ∧
  ∃ k, k ≠ [] ∧ v.1 = (q ++ [x]) ++ k.

(** [g] goes through one of the letters [cs] after [p]. *)
Definition under (p cs : list letter) (g : list letter) : Prop :=
  ∃ c k, c ∈ cs ∧ g = (p ++ [c]) ++ k.


(** ** The states of a descent *)

(** The states of the index at the head of the loop of [dig_deeper] in the
    course of a session that started on the index [start]: the state in
    which a call finds an index that holds a guess; the state seeded with
    the start letter by a call on an index without a guess, when the
    start letter is not returned; the state after a turn of the loop of
    [dig_deeper] that appends the first child; and the state with which
    the inner loop of [next_guess] breaks, after a descent that found
    nothing. *)
Inductive at_descent (self : MarkovCracker) (start : MarkovIndex)
  : MarkovIndex → Prop :=
  | descent_of_call fuel n results mi :
      session fuel self n start = Return (results, mi) →
      guess mi ≠ None →
      at_descent self start mi
  | descent_of_seed fuel n results mi s nd :
      session fuel self n start = Return (results, mi) →
      guess mi = None →
      start_letter self = Some s → markov_stats self !! s = Some nd →
      in_range mi (probability nd) = false →
      at_descent self start
        (set_guess_level (set_guess mi (Some [s])) (probability nd))
  | descent_deeper mi g prev_letter nd cur_letter e :
      at_descent self start mi →
      guess mi = Some g → last g = Some prev_letter →
      markov_stats self !! prev_letter = Some nd →
      first_child nd = Some cur_letter →
      following_letters nd !! cur_letter = Some e →
      in_range mi (guess_level mi + f_probability e) = false →
      (max_level mi <? guess_level mi + f_probability e) = false →
      at_descent self start
        (set_guess_level (set_guess mi (Some (g ++ [cur_letter])))
                         (guess_level mi + f_probability e))
  | descent_of_break fuel mi mi1 mi2 :
      at_descent self start mi →
      dig_deeper fuel self mi = Return (None, mi1) →
      dig_wider fuel self mi1 = Return (Break mi2) →
      at_descent self start mi2.

(** Unigrams [a=0], [b=9]; bigrams [a→b=2], [b→a=10]: with the band
    [5 .. 6], the descent from [a] appends [b] at level 2, below the band,
    and then rejects [a] at level 12. *)
Definition descent_lines : list string :=
  map text_line
    ["0=proba1[97]"; "9=proba1[98]";
     "2=proba2[97*256+98]"; "10=proba2[98*256+97]"]%string.

Definition descent_model : MarkovCracker :=
  {| markov_stats :=
       <[97 := {| probability := 0;
                  following_letters :=
                    <[98 := {| f_probability := 2; f_next := None |}]> ∅;
                  first_child := Some 98; last_child := Some 98;
                  next := Some 98 |}]>
         (<[98 := {| probability := 9;
                     following_letters :=
                       <[97 := {| f_probability := 10; f_next := None |}]> ∅;
                     first_child := Some 97; last_child := Some 97;
                     next := None |}]> ∅);
     start_letter := Some 97 |}.

(** ** The records of a statistics file *)

(** What a line declares: the start probability of a character, or the
    probability of a character after another one. *)
Inductive record : Type :=
  | Unigram (c : letter) (p : Z)
  | Bigram (p : Z) (c1 c2 : letter).

(** The record that the loader reads on a line, along the tests of its
    loop: the marker [=proba1] is looked for first, then [=proba2];
    [None] when the loader gives up on the line. *)
Definition read_line (line : string) : option record :=
  if contains "=proba1" line then
    match parse_proba1 line with
    | Return (c, p) => Some (Unigram c p)
    | _ => None
    end
  else if contains "=proba2" line then
    match parse_proba2 line with
    | Return (p, c1, c2) => Some (Bigram p c1 c2)
    | _ => None
    end
  else None.

(** The characters of the unigram records, in the order of the file. *)
Definition unigrams (rs : list record) : list letter :=
  omap (λ r, match r with Unigram c _ => Some c | Bigram _ _ _ => None end) rs.

(** The characters that the bigram records put after [x], in the order of
    the file. *)
Definition followers (rs : list record) (x : letter) : list letter :=
  omap (λ r, match r with
             | Bigram _ c1 c2 => if decide (c1 = x) then Some c2 else None
             | Unigram _ _ => None
             end) rs.

(** The records [rs], read after the records [seen], declare every
    character once, every pair once, and the first character of a pair
    before the pair. *)
Fixpoint declared_once (seen rs : list record) : bool :=
  match rs with
  | [] => true
  | Unigram c p :: rs' =>
      bool_decide (c ∉ unigrams seen) && declared_once (seen ++ [Unigram c p]) rs'
  | Bigram p c1 c2 :: rs' =>
      bool_decide (c1 ∈ unigrams seen) && bool_decide (c2 ∉ followers seen c1)
      && declared_once (seen ++ [Bigram p c1 c2]) rs'
  end.

(** Every character that follows another one is declared on its own. *)
Definition followers_declared (rs : list record) : Prop :=
  Forall (λ r, match r with
               | Bigram _ _ c2 => c2 ∈ unigrams rs
               | Unigram _ _ => True
               end) rs.

(** Unigram [a=0]; bigram [a→b=1]: the character [b] follows [a] and has
    no entry of its own. *)
Definition dangling_lines : list string :=
  map text_line ["0=proba1[97]"; "1=proba2[97*256+98]"]%string.

Definition dangling_model : MarkovCracker :=
  {| markov_stats :=
       <[97 := {| probability := 0;
                  following_letters :=
                    <[98 := {| f_probability := 1; f_next := None |}]> ∅;
                  first_child := Some 98; last_child := Some 98;
                  next := None |}]> ∅;
     start_letter := Some 97 |}.

(** The unigram [a=0], twice in a row. *)
Definition twice_lines : list string :=
  map text_line ["0=proba1[97]"; "0=proba1[97]"]%string.

Definition twice_model : MarkovCracker :=
  {| markov_stats := <[97 := leaf_stats 0 (Some 97)]> ∅;
     start_letter := Some 97 |}.


(** The entry [nd] of a character [x] holds what the records [done]
    declare after [x]: the chain of its following letters is the list of
    these letters in the order of the file, ['last_child'] is the last
    of them, and every pair has its probability. *)
Definition entry_loaded (nd : letter_stats) (done : list record) (x : letter)
  : Prop :=
  is_chain (following_letters nd) f_next (first_child nd) (followers done x) ∧
  last_child nd = last (followers done x) ∧
  (∀ c, is_Some (following_letters nd !! c) ↔ c ∈ followers done x) ∧
  size (following_letters nd) = length (followers done x) ∧
  ∀ p c, Bigram p x c ∈ done →
         f_probability <$> following_letters nd !! c = Some p.

(** The state of the loader after the records [done]: the object [self]
    and the variable [prev_proba1]. *)
Record loaded (self : MarkovCracker) (prev_proba1 : option letter)
    (done : list record) : Prop := {
  ld_chain : is_chain (markov_stats self) next (start_letter self)
                      (unigrams done);
  ld_prev : prev_proba1 = last (unigrams done);
  ld_keys : ∀ c, is_Some (markov_stats self !! c) ↔ c ∈ unigrams done;
  ld_size : size (markov_stats self) = length (unigrams done);
  ld_prob : ∀ c p, Unigram c p ∈ done → start_probability self c = Some p;
  ld_decl : ∀ p x c, Bigram p x c ∈ done → x ∈ unigrams done;
  ld_children : ∀ x nd, markov_stats self !! x = Some nd →
                        entry_loaded nd done x
}.


(** ** The lines of the format of the statistics file *)

(** The format that the loader documents: [Probability=proba1[ORD]] and
    [Probability=proba2[ORD1*256+ORD2]], the numbers in decimal digits. *)
Fixpoint all_digits (s : string) : bool :=
  match s with
  | EmptyString => true
  | String c s' =>
      match digit_val c with
      | Some _ => all_digits s'
      | None => false
      end
  end.

(** A decimal numeral: digits, and at least one. *)
Definition numeral (s : string) : bool :=
  match s with
  | EmptyString => false
  | _ => all_digits s
  end.

(** White space only, as the end of a line is. *)
Fixpoint all_space (s : string) : bool :=
  match s with
  | EmptyString => true
  | String c s' => is_space c && all_space s'
  end.

(** No character of [s] is [c0]. *)
Fixpoint free_of (c0 : ascii) (s : string) : bool :=
  match s with
  | EmptyString => true
  | String c s' => negb (Ascii.eqb c c0) && free_of c0 s'
  end.

Definition unigram_text (prob ord : string) : string :=
  prob ++ "=proba1[" ++ ord ++ "]".

Definition bigram_text (prob ord1 ord2 : string) : string :=
  prob ++ "=proba2[" ++ ord1 ++ "*256+" ++ ord2 ++ "]".

(** The two shapes of a record, in the words of the format: a
    probability and a code point, or a probability and two code points,
    written as non-negative integers in the texts above, up to the end
    of the line. *)
Definition unigram_shape (line : string) : Prop :=
  ∃ prob ord ws,
    numeral prob = true ∧ numeral ord = true ∧ all_space ws = true ∧
    line = (unigram_text prob ord ++ ws)%string.

Definition bigram_shape (line : string) : Prop :=
  ∃ prob ord1 ord2 ws,
    numeral prob = true ∧ numeral ord1 = true ∧ numeral ord2 = true ∧
    all_space ws = true ∧
    line = (bigram_text prob ord1 ord2 ++ ws)%string.

(** The unigram line [5=proba1[97] without its closing bracket: the
    loader drops the last character of the code point and reads the
    character of code point 9. *)
Definition unclosed_line : string := text_line "5=proba1[97".

Definition unclosed_model : MarkovCracker :=
  {| markov_stats := <[9 := leaf_stats 5 None]> ∅; start_letter := Some 9 |}.

(** The probabilities do not decrease along the file: from a unigram
    line to a later one, and from a bigram line to a later one with the
    same first character. *)
Definition record_le (r1 r2 : record) : Prop :=
  match r1, r2 with
  | Unigram _ p1, Unigram _ p2 => p1 ≤ p2
  | Bigram p1 x1 _, Bigram p2 x2 _ => x1 = x2 → p1 ≤ p2
  | _, _ => True
  end.

Definition sorted_file (rs : list record) : Prop := StronglySorted record_le rs.

(** * Properties *)

Section Levels.
Context (self : MarkovCracker).

Lemma edges_level_snoc c rest x y :
  last (c :: rest) = Some x →
  edges_level self c (rest ++ [y]) =
    (l ← edges_level self c rest; t ← transition self x y; Some (l + t)).
Proof.
  revert c. induction rest as [|c' rest IH]; intros c Hl; simpl in *.
  - injection Hl as <-. destruct (transition self c y); simpl; [|done].
    f_equal; lia.
  - rewrite (IH c') by (destruct rest; done).
    destruct (transition self c c'); simpl; [|done].
    destruct (edges_level self c' rest); simpl; [|done].
    destruct (transition self x y); simpl; [|done].
    f_equal; lia.
Qed.

Lemma level_of_snoc q x y :
  level_of self ((q ++ [x]) ++ [y]) =
    (l ← level_of self (q ++ [x]); t ← transition self x y; Some (l + t)).
Proof.
  destruct q as [|c q]; simpl.
  - destruct (start_probability self x); simpl; [|done].
    destruct (transition self x y); simpl; [|done]. f_equal; lia.
  - rewrite (edges_level_snoc c (q ++ [x]) x y).
    2:{ change (c :: q ++ [x]) with ((c :: q) ++ [x]). apply last_snoc. }
    destruct (start_probability self c); simpl; [|done].
    destruct (edges_level self c (q ++ [x])); simpl; [|done].
    destruct (transition self x y); simpl; [|done]. f_equal; lia.
Qed.

Lemma level_of_snoc_Some q x y l t :
  level_of self (q ++ [x]) = Some l → transition self x y = Some t →
  level_of self ((q ++ [x]) ++ [y]) = Some (l + t).
Proof. intros Hl Ht. rewrite level_of_snoc, Hl; simpl. by rewrite Ht. Qed.

Lemma level_of_snoc_inv q x y l' :
  level_of self ((q ++ [x]) ++ [y]) = Some l' →
  ∃ l t, level_of self (q ++ [x]) = Some l ∧ transition self x y = Some t
         ∧ l' = l + t.
Proof.
  rewrite level_of_snoc.
  destruct (level_of self (q ++ [x])) as [l|]; simpl; [|done].
  destruct (transition self x y) as [t|]; simpl; [|done].
  intros [= <-]. eauto.
Qed.

Lemma transition_lookup x y nd e :
  markov_stats self !! x = Some nd → following_letters nd !! y = Some e →
  transition self x y = Some (f_probability e).
Proof. intros H1 H2. unfold transition. rewrite H1; simpl. by rewrite H2. Qed.

Lemma prefix_snoc_inv (q g : list letter) c :
  q `prefix_of` g ++ [c] → q `prefix_of` g ∨ q = g ++ [c].
Proof.
  intros [k Hk]. destruct (decide (k = [])) as [->|Hne].
  - right. by rewrite app_nil_r in Hk.
  - left. apply last_is_Some in Hne as [y Hy].
    apply last_Some in Hy as [k' ->].
    rewrite app_assoc in Hk. apply app_inj_tail in Hk as [-> _].
    by exists k'.
Qed.

Lemma bounded_single maxl c : bounded self maxl [c].
Proof.
  intros q Hq Hlen. apply prefix_length in Hq. simpl in Hq. lia.
Qed.

Lemma bounded_snoc maxl g c l :
  bounded self maxl g → level_of self (g ++ [c]) = Some l → l ≤ maxl →
  bounded self maxl (g ++ [c]).
Proof.
  intros Hb Hl Hle q Hq Hlen.
  apply prefix_snoc_inv in Hq as [Hq| ->]; [by apply Hb | eauto].
Qed.

Lemma bounded_init maxl g c : bounded self maxl (g ++ [c]) → bounded self maxl g.
Proof. intros Hb q Hq. apply Hb. by apply prefix_app_r. Qed.

Lemma in_range_bounds mi l :
  in_range mi l = true ↔ min_level mi ≤ l ≤ max_level mi.
Proof. unfold in_range. rewrite andb_true_iff, !Z.leb_le. tauto. Qed.

End Levels.

(** ** What the loops keep *)

(** Case analysis on the next lookup of a run that returned: the value
    found is named [x], the equation of the lookup [E]. *)
Tactic Notation "run_lookup" hyp(H) "as" ident(x) ident(E) :=
  match type of H with
  | context [expect _ ?o] =>
      destruct o as [x|] eqn:E; simpl in H; [|discriminate H]
  end.

Section Loops.
Context (self : MarkovCracker).

Lemma dig_deeper_keeps fuel mi r mi' :
  index_ok self mi →
  dig_deeper fuel self mi = Return (r, mi') →
  min_level mi' = min_level mi ∧ max_level mi' = max_level mi ∧
  index_ok self mi' ∧
  match r with
  | Some s => guess mi' = Some s ∧ in_range mi' (guess_level mi') = true
  | None => True
  end.
Proof.
  revert mi. induction fuel as [|fuel IH]; intros mi Hok H; [done|].
  simpl in H. unfold mbind, res_bind in H.
  run_lookup H as g Eg. run_lookup H as prev Elast. run_lookup H as nd End.
  destruct (first_child _) as [cur|] eqn:Efc; [|by simplify_eq].
  run_lookup H as e Ee.
  apply last_Some in Elast as [q ->].
  destruct (Hok _ Eg) as [Hlvl Hb].
  pose proof (level_of_snoc_Some self q _ cur _ _ Hlvl
                (transition_lookup self _ _ _ _ End Ee)) as Hlvl'.
  set (lvl := guess_level mi + f_probability e) in *.
  assert (Hnew : lvl ≤ max_level mi →
            index_ok self (set_guess_level
               (set_guess mi (Some ((q ++ [prev]) ++ [cur]))) lvl)).
  { intros Hle g [= <-]; simpl. split; [done|].
    by apply (bounded_snoc self _ _ _ lvl). }
  destruct (in_range mi lvl) eqn:Ein.
  - apply in_range_bounds in Ein as Hr. simplify_eq. simpl.
    split; [done|]. split; [done|]. split; [apply Hnew; lia|].
    split; [done|]. exact Ein.
  - destruct (max_level mi <? lvl) eqn:Emax; [by simplify_eq|].
    apply Z.ltb_ge in Emax. apply IH in H; [|by apply Hnew].
    simpl in H. exact H.
Qed.

Lemma dig_wider_base_keeps mi parent_letter more_work r mi' :
  index_ok self mi →
  length <$> guess mi = Some 1%nat →
  dig_wider_base self mi parent_letter = Return (more_work, r, mi') →
  min_level mi' = min_level mi ∧ max_level mi' = max_level mi ∧
  index_ok self mi' ∧
  (more_work = false →
   match r with
   | Some s => guess mi' = Some s ∧ in_range mi' (guess_level mi') = true
   | None => guess mi' = None
   end).
Proof.
  intros Hok Hlen H. unfold dig_wider_base in H. unfold mbind, res_bind in H.
  run_lookup H as nd End.
  destruct (next _) as [cur|] eqn:Enext.
  2:{ simplify_eq. simpl. split_and!; try done; intros ? ?; discriminate. }
  run_lookup H as nc Enc. simpl in H.
  destruct (max_level mi <? probability nc) eqn:Emax.
  { simplify_eq. simpl. split_and!; try done; intros ? ?; discriminate. }
  apply Z.ltb_ge in Emax.
  run_lookup H as g Eg. run_lookup H as x Elast.
  assert (Hone : set_last g cur = [cur]).
  { simpl in Hlen. injection Hlen as Hlen.
    destruct g as [|? [|? ?]]; simpl in *; done. }
  rewrite Hone in H.
  assert (Hnew : index_ok self
            (set_guess (set_guess_level mi (probability nc)) (Some [cur]))).
  { intros g' [= <-]; simpl. split; [|apply bounded_single].
    unfold start_probability. rewrite Enc; simpl. f_equal; lia. }
  unfold in_range in H. simpl in H.
  destruct ((min_level mi <=? probability nc) && (probability nc <=? max_level mi))
    eqn:Ein; simplify_eq; simpl; split_and!; try done.
Qed.

Lemma dig_wider_keeps fuel mi w :
  index_ok self mi →
  dig_wider fuel self mi = Return w →
  match w with
  | Break mi' =>
      min_level mi' = min_level mi ∧ max_level mi' = max_level mi ∧
      index_ok self mi'
  | Done r mi' => returned self mi r mi'
  end.
Proof.
  revert mi. induction fuel as [|fuel IH]; intros mi Hok H; [done|].
  simpl in H. unfold mbind at 1 2, res_bind at 1 2 in H.
  run_lookup H as g Eg. run_lookup H as parent Elast.
  destruct (length g =? 1)%nat eqn:Elen.
  - apply Nat.eqb_eq in Elen.
    destruct (dig_wider_base self mi parent) as [[[more r] mi']| |] eqn:Eb;
      simpl in H; try discriminate.
    apply dig_wider_base_keeps in Eb as (Hmin & Hmax & Hok' & Hr);
      [|done|by rewrite Eg; simpl; rewrite Elen].
    destruct more; simplify_eq; [done|].
    split_and!; try done. by apply Hr.
  - apply Nat.eqb_neq in Elen. unfold mbind, res_bind in H.
    run_lookup H as prev Eprev. run_lookup H as nd End. run_lookup H as e Ee.
    apply last_Some in Elast as [q' ->]. rewrite removelast_last in *.
    apply last_Some in Eprev as [q ->].
    destruct (Hok _ Eg) as [Hlvl Hb].
    apply level_of_snoc_inv in Hlvl as (lq & t & Hlq & Ht & Hsum).
    rewrite (transition_lookup self _ _ _ _ End Ee) in Ht.
    injection Ht as <-.
    assert (Hpop : index_ok self
              (set_guess (set_guess_level mi (guess_level mi - f_probability e))
                         (Some (q ++ [prev])))).
    { intros g [= <-]; simpl. split; [rewrite Hlq; f_equal; lia|].
      by apply bounded_init in Hb. }
    destruct (f_next e) as [cur|] eqn:Enext.
    2:{ apply IH in H; [|done]. destruct w; simpl in H; [done|].
        unfold returned in *; simpl in H. done. }
    run_lookup H as ec Eec.
    unfold set_last in H. rewrite removelast_last in H.
    set (lvl := guess_level mi - f_probability e + f_probability ec) in *.
    pose proof (level_of_snoc_Some self q _ cur _ _ Hlq
                  (transition_lookup self _ _ _ _ End Eec)) as Hlvl'.
    assert (Hnew : lvl ≤ max_level mi →
              index_ok self
                (set_guess
                   (set_guess_level
                      (set_guess_level mi (guess_level mi - f_probability e)) lvl)
                   (Some ((q ++ [prev]) ++ [cur])))).
    { intros Hle g [= <-]; simpl. split; [rewrite Hlvl'; f_equal; lia|].
      apply (bounded_snoc self _ _ _ lvl); [|rewrite Hlvl'; f_equal; lia|done].
      by apply bounded_init in Hb. }
    destruct (in_range _ lvl) eqn:Ein.
    + apply in_range_bounds in Ein as Hr. simpl in Hr.
      simplify_eq. split_and!; try done. apply Hnew; lia.
    + destruct (lvl <? _) eqn:Emax.
      * apply Z.ltb_lt in Emax. simpl in Emax.
        simplify_eq. split_and!; try done. apply Hnew; lia.
      * apply IH in H; [|done]. destruct w; simpl in H; [done|].
        unfold returned in *; simpl in H. done.
Qed.

Lemma guess_loop_keeps fuel mi r mi' :
  index_ok self mi →
  guess_loop fuel self mi = Return (r, mi') →
  returned self mi r mi'.
Proof.
  revert mi. induction fuel as [|fuel IH]; intros mi Hok H; [done|].
  simpl in H. unfold mbind, res_bind in H.
  destruct (dig_deeper fuel self mi) as [[[s|] mi1]| |] eqn:Ed;
    try discriminate.
  - apply dig_deeper_keeps in Ed as (? & ? & ? & ?); [|done].
    simplify_eq. done.
  - apply dig_deeper_keeps in Ed as (Hmin & Hmax & Hok1 & _); [|done].
    destruct (dig_wider fuel self mi1) as [[mi2|r2 mi2]| |] eqn:Ew;
      try discriminate.
    + apply dig_wider_keeps in Ew as (Hmin2 & Hmax2 & Hok2); [|done].
      apply IH in H as (? & ? & ?); [|done].
      split; [congruence|]. split; [congruence|]. done.
    + apply dig_wider_keeps in Ew as (Hmin2 & Hmax2 & Hr); [|done].
      simplify_eq. split; [congruence|]. split; [congruence|]. done.
Qed.

Lemma next_guess_keeps fuel mi r mi' :
  index_ok self mi →
  next_guess fuel self mi = Return (r, mi') →
  returned self mi r mi'.
Proof.
  intros Hok H. unfold next_guess in H.
  destruct (guess mi) as [g|] eqn:Eg; [by apply guess_loop_keeps in H|].
  unfold mbind, res_bind in H. run_lookup H as s Es. run_lookup H as nd End.
  assert (Hnew : index_ok self
            (set_guess_level (set_guess mi (Some [s])) (probability nd))).
  { intros g [= <-]; simpl. split; [|apply bounded_single].
    unfold start_probability. rewrite End; simpl. f_equal; lia. }
  destruct (in_range _ _) eqn:Ein.
  - simplify_eq. split_and!; try done.
  - by apply guess_loop_keeps in H.
Qed.

Lemma index_ok_init minl maxl : index_ok self (MarkovIndex_init minl maxl).
Proof. intros g Hg. discriminate. Qed.

Lemma session_length fuel n mi results mi' :
  session fuel self n mi = Return (results, mi') → length results = n.
Proof.
  revert mi results. induction n as [|n IH]; intros mi results H.
  - simpl in H. by simplify_eq.
  - simpl in H. unfold mbind, res_bind in H.
    destruct (next_guess fuel self mi) as [[r mi1]| |]; try discriminate.
    simpl in H.
    destruct (session fuel self n mi1) as [[rs mi2]| |] eqn:Es;
      try discriminate.
    simpl in H. simplify_eq. simpl. f_equal. by eapply IH.
Qed.

Lemma session_keeps fuel n mi results mi' :
  index_ok self mi →
  session fuel self n mi = Return (results, mi') →
  min_level mi' = min_level mi ∧ max_level mi' = max_level mi ∧
  index_ok self mi' ∧
  (∀ g, Some g ∈ results →
        ∃ l, level_of self g = Some l ∧ min_level mi ≤ l ≤ max_level mi
             ∧ bounded self (max_level mi) g) ∧
  (∀ r, last results = Some r → guess mi' = r).
Proof.
  revert mi results. induction n as [|n IH]; intros mi results Hok H.
  - simpl in H. simplify_eq. split_and!; try done.
    intros g Hg. by apply elem_of_nil in Hg.
  - simpl in H. unfold mbind, res_bind in H.
    destruct (next_guess fuel self mi) as [[r mi1]| |] eqn:En;
      try discriminate.
    simpl in H.
    destruct (session fuel self n mi1) as [[rs mi2]| |] eqn:Es;
      try discriminate.
    simpl in H. simplify_eq.
    apply next_guess_keeps in En as (Hmin & Hmax & Hok1 & Hr); [|done].
    destruct (IH _ _ Hok1 Es) as (Hmin2 & Hmax2 & Hok2 & Hres & Hlast).
    split; [congruence|]. split; [congruence|]. split; [done|]. split.
    + intros g Hg. apply elem_of_cons in Hg as [Hg|Hg].
      * subst r. destruct Hr as [Hg Hin].
        destruct (Hok1 _ Hg) as [Hl Hb]. exists (guess_level mi1).
        apply in_range_bounds in Hin. rewrite <- Hmin, <- Hmax. done.
      * rewrite <- Hmin, <- Hmax. by apply Hres.
    + intros r0 Hs. destruct rs as [|r' rs'].
      * pose proof (session_length _ _ _ _ _ Es) as Hn.
        destruct n; [|done]. simpl in Es, Hs.
        injection Es as <-. injection Hs as <-.
        destruct r; [apply Hr|by rewrite Hr].
      * apply Hlast. exact Hs.
Qed.

End Loops.

Example scenario_loaded :
  MarkovCracker_init (Some (Some scenario_lines)) = Return scenario_model.
Proof. vm_compute. reflexivity. Qed.

Example single_loaded :
  MarkovCracker_init (Some (Some single_lines)) = Return single_model.
Proof. vm_compute. reflexivity. Qed.

Example siblings_loaded :
  MarkovCracker_init (Some (Some siblings_lines)) = Return siblings_model.
Proof. vm_compute. reflexivity. Qed.

Example no_directory : MarkovCracker_init None = Return empty_model.
Proof. reflexivity. Qed.

(** ** The level band and the stored level *)

(** C1. Soundness of the level band: in every session, started on a fresh
    index with the bounds [minl] and [maxl], every guess that a call of
    [next_guess] returns has a cumulative level, the start probability of
    its first character plus the transition probabilities of its
    consecutive pairs, and this level lies in [minl .. maxl], both bounds
    included. *)
Theorem guesses_within_band self minl maxl fuel n results mi' :
  session fuel self n (MarkovIndex_init minl maxl) = Return (results, mi') →
  ∀ g, Some g ∈ results →
       ∃ l, level_of self g = Some l ∧ minl ≤ l ≤ maxl.
Proof.
  intros H g Hg.
  apply session_keeps in H as (_ & _ & _ & Hres & _);
    [|apply index_ok_init].
  destruct (Hres g Hg) as (l & Hl & Hband & _). eauto.
Qed.

Lemma guesses_within_band_witness :
  ∃ l, level_of scenario_model [97; 97] = Some l ∧ 0 ≤ l ≤ 3.
Proof.
  apply (guesses_within_band scenario_model 0 3 4 2
           [Some [97]; Some [97; 97]]
           {| min_level := 0; max_level := 3;
              guess := Some [97; 97]; guess_level := 0 |}).
  - vm_compute. reflexivity.
  - apply list_elem_of_further, list_elem_of_here.
Defined.

(** C8. The level invariant of the index: after any number of calls of
    [next_guess] on an index, whenever the index holds a guess (it is not
    exhausted), the stored level is the start probability of the first
    character of the guess plus the transition probabilities of its
    consecutive pairs; and when the last call returned a guess, the index
    holds exactly that guess. *)
Theorem stored_level_is_path_level self minl maxl fuel n results mi' :
  session fuel self n (MarkovIndex_init minl maxl) = Return (results, mi') →
  (∀ g, guess mi' = Some g → level_of self g = Some (guess_level mi')) ∧
  (∀ s, last results = Some (Some s) → guess mi' = Some s).
Proof.
  intros H.
  apply session_keeps in H as (_ & _ & Hok & _ & Hlast);
    [|apply index_ok_init].
  split; [|by auto]. intros g Hg. by destruct (Hok g Hg).
Qed.

Lemma stored_level_is_path_level_witness :
  level_of siblings_model [97; 98] = Some 1.
Proof.
  pose proof (stored_level_is_path_level siblings_model 0 3 4 2
           [Some [97]; Some [97; 98]]
           {| min_level := 0; max_level := 3;
              guess := Some [97; 98]; guess_level := 1 |}) as H.
  destruct H as [H _]; [vm_compute; reflexivity|].
  apply (H [97; 98]). reflexivity.
Defined.

(** ** Descent *)

Lemma bounded_no_extension self maxl g pc l :
  bounded self maxl g → level_of self pc = Some l → maxl < l →
  (2 ≤ length pc)%nat → ¬ pc `prefix_of` g.
Proof.
  intros Hb Hl Hlt Hlen Hpre.
  destruct (Hb pc Hpre Hlen) as (l' & Hl' & Hle). simplify_eq. lia.
Qed.

(** One turn of [dig_deeper] on a first child above the limit. *)
Lemma dig_deeper_rejects self fuel mi p x nd c e :
  guess mi = Some p → last p = Some x →
  markov_stats self !! x = Some nd → first_child nd = Some c →
  following_letters nd !! c = Some e →
  max_level mi < guess_level mi + f_probability e →
  dig_deeper (S fuel) self mi = Return (None, mi).
Proof.
  intros Hg Hlast Hnd Hfc He Hlt. simpl.
  rewrite Hg; simpl. rewrite Hlast; simpl. rewrite Hnd; simpl.
  rewrite Hfc, He; simpl.
  assert (in_range mi (guess_level mi + f_probability e) = false) as ->.
  { apply not_true_is_false. rewrite in_range_bounds. lia. }
  apply Z.ltb_lt in Hlt. by rewrite Hlt.
Qed.

Example descent_loaded :
  MarkovCracker_init (Some (Some descent_lines)) = Return descent_model.
Proof. vm_compute. reflexivity. Qed.

(** The states of a descent are states of the loops: they keep the
    bounds of the session and the invariant of the index. *)
Lemma at_descent_keeps self start mi :
  index_ok self start → at_descent self start mi →
  min_level mi = min_level start ∧ max_level mi = max_level start ∧
  index_ok self mi.
Proof.
  intros Hstart. induction 1 as
    [fuel n results mi Hs Hg
    |fuel n results mi s nd Hs Hg Hstartl Hnd Hin
    |mi g prev_letter nd cur_letter e _ IH Hg Hlast Hnd Hfc He Hin Hmax
    |fuel mi mi1 mi2 _ IH Hd Hw].
  - apply session_keeps in Hs as (? & ? & ? & _); done.
  - apply session_keeps in Hs as (Hmin & Hmax & _ & _); [|done].
    split_and!; [done|done|].
    intros g [= <-]; simpl. split; [|apply bounded_single].
    unfold start_probability. rewrite Hnd; simpl. f_equal; lia.
  - destruct IH as (Hmin & Hmax' & Hok). split_and!; [done|done|].
    intros g' [= <-]; simpl. destruct (Hok g Hg) as [Hlvl Hb].
    apply last_Some in Hlast as [q ->].
    pose proof (level_of_snoc_Some self q prev_letter cur_letter _ _ Hlvl
                  (transition_lookup self _ _ _ _ Hnd He)) as Hl.
    split; [done|]. apply (bounded_snoc self _ _ _ _ Hb Hl).
    apply Z.ltb_ge in Hmax. lia.
  - destruct IH as (Hmin & Hmax & Hok).
    apply dig_deeper_keeps in Hd as (Hmin1 & Hmax1 & Hok1 & _); [|done].
    apply dig_wider_keeps in Hw as (Hmin2 & Hmax2 & Hok2); [|done].
    split_and!; [congruence|congruence|done].
Qed.

(** C7. Prune on descent: at every state of a descent of a session (also
    in the middle of a descent, after characters below the band have
    been appended), when the first child [c] of the last character of
    the guess [p] would make the level exceed [max_level], [dig_deeper]
    does not append [c] and stops (it returns [None] and leaves the index
    as it is); and no string that extends the rejected prefix
    [p ++ [c]] is visited by the session: no state of a descent holds
    one, no run of calls from the fresh index returns one or leaves one
    in the index, and neither do the calls that go on from the state of
    the rejection. This holds whatever the signs of the transition
    probabilities below, so also when all of them are positive. *)
Theorem rejected_prefix_never_visited self minl maxl mi p x nd c e :
  at_descent self (MarkovIndex_init minl maxl) mi →
  guess mi = Some p → last p = Some x →
  markov_stats self !! x = Some nd → first_child nd = Some c →
  following_letters nd !! c = Some e →
  max_level mi < guess_level mi + f_probability e →
  (∀ fuel, dig_deeper (S fuel) self mi = Return (None, mi)) ∧
  (∀ mi', at_descent self (MarkovIndex_init minl maxl) mi' →
          ∀ g, guess mi' = Some g → ¬ (p ++ [c]) `prefix_of` g) ∧
  (∀ fuel n results mi',
     session fuel self n (MarkovIndex_init minl maxl) = Return (results, mi') →
     (∀ g, Some g ∈ results → ¬ (p ++ [c]) `prefix_of` g) ∧
     (∀ g, guess mi' = Some g → ¬ (p ++ [c]) `prefix_of` g)) ∧
  (∀ fuel k results mi',
     session fuel self k mi = Return (results, mi') →
     (∀ g, Some g ∈ results → ¬ (p ++ [c]) `prefix_of` g) ∧
     (∀ g, guess mi' = Some g → ¬ (p ++ [c]) `prefix_of` g)).
Proof.
  intros Hat Hg Hlast Hnd Hfc He Hlt.
  pose proof (index_ok_init self minl maxl) as Hinit.
  destruct (at_descent_keeps _ _ _ Hinit Hat) as (Hmin & Hmax & Hok).
  simpl in Hmin, Hmax.
  destruct (Hok _ Hg) as [Hlvl Hb].
  apply last_Some in Hlast as Hq. destruct Hq as [q ->].
  pose proof (level_of_snoc_Some self q x c _ _ Hlvl
                (transition_lookup self _ _ _ _ Hnd He)) as Hpc.
  assert (Hlen : (2 ≤ length ((q ++ [x]) ++ [c]))%nat).
  { rewrite !length_app. simpl. lia. }
  rewrite Hmax in Hlt.
  split_and!.
  - intros fuel. eapply dig_deeper_rejects; try done. by rewrite Hmax.
  - intros mi' Hat' g Hg'.
    destruct (at_descent_keeps _ _ _ Hinit Hat') as (_ & Hmax' & Hok').
    destruct (Hok' g Hg') as [_ Hbg]. rewrite Hmax' in Hbg. simpl in Hbg.
    by eapply bounded_no_extension.
  - intros fuel n results mi' Hs.
    apply session_keeps in Hs as (_ & Hmax' & Hok' & Hres' & _); [|done].
    simpl in Hmax', Hres'. split.
    + intros g Hin. destruct (Hres' g Hin) as (l & _ & _ & Hbg).
      by eapply bounded_no_extension.
    + intros g Hg'. destruct (Hok' g Hg') as [_ Hbg].
      rewrite Hmax' in Hbg. by eapply bounded_no_extension.
  - intros fuel k results mi' Hs.
    apply session_keeps in Hs as (_ & Hmax' & Hok' & Hres' & _); [|done].
    rewrite Hmax in Hmax', Hres'. split.
    + intros g Hin. destruct (Hres' g Hin) as (l & _ & _ & Hbg).
      by eapply bounded_no_extension.
    + intros g Hg'. destruct (Hok' g Hg') as [_ Hbg].
      rewrite Hmax' in Hbg. by eapply bounded_no_extension.
Qed.

(** With the band [5 .. 6] and the descent example, the first call seeds
    the index with [a] at level 0, the descent appends [b] at level 2,
    below the band, and then rejects [a] at level 12: the descent stops
    at [ab], which is not returned. *)
Lemma rejected_prefix_never_visited_witness :
  dig_deeper 1 descent_model
    {| min_level := 5; max_level := 6;
       guess := Some [97; 98]; guess_level := 2 |}
  = Return (None, {| min_level := 5; max_level := 6;
                     guess := Some [97; 98]; guess_level := 2 |}).
Proof.
  refine (proj1 (rejected_prefix_never_visited descent_model 5 6
            {| min_level := 5; max_level := 6;
               guess := Some [97; 98]; guess_level := 2 |}
            [97; 98] 98
            {| probability := 9;
               following_letters :=
                 <[97 := {| f_probability := 10; f_next := None |}]> ∅;
               first_child := Some 97; last_child := Some 97;
               next := None |}
            97 {| f_probability := 10; f_next := None |}
            _ _ _ _ _ _ _) 0%nat).
  - refine (descent_deeper descent_model (MarkovIndex_init 5 6)
              {| min_level := 5; max_level := 6;
                 guess := Some [97]; guess_level := 0 |}
              [97] 97
              {| probability := 0;
                 following_letters :=
                   <[98 := {| f_probability := 2; f_next := None |}]> ∅;
                 first_child := Some 98; last_child := Some 98;
                 next := Some 98 |}
              98 {| f_probability := 2; f_next := None |}
              _ _ _ _ _ _ _ _).
    + refine (descent_of_seed descent_model (MarkovIndex_init 5 6)
                0 0 [] (MarkovIndex_init 5 6) 97
                {| probability := 0;
                   following_letters :=
                     <[98 := {| f_probability := 2; f_next := None |}]> ∅;
                   first_child := Some 98; last_child := Some 98;
                   next := Some 98 |}
                _ _ _ _ _).
      * reflexivity.
      * reflexivity.
      * reflexivity.
      * vm_compute. reflexivity.
      * reflexivity.
    + reflexivity.
    + reflexivity.
    + vm_compute. reflexivity.
    + reflexivity.
    + vm_compute. reflexivity.
    + reflexivity.
    + reflexivity.
  - reflexivity.
  - reflexivity.
  - vm_compute. reflexivity.
  - reflexivity.
  - vm_compute. reflexivity.
  - simpl. lia.
Defined.

(** ** Exhaustion *)

(** An index without a guess is taken for a fresh one. *)
Lemma next_guess_absent self fuel mi :
  guess mi = None →
  next_guess fuel self mi
  = next_guess fuel self (MarkovIndex_init (min_level mi) (max_level mi)).
Proof.
  intros Hg. unfold next_guess. rewrite Hg. simpl.
  destruct mi as [mn mx g lv]. simpl in *. subst g. reflexivity.
Qed.

(** C3, as the code has it. Exhaustion is not permanent: when the last call
    of a session signalled exhaustion, the index holds no guess, which is
    also the state of an index that has not started; the next call on it
    does what the first call of a fresh session with the same bounds does,
    so the enumeration starts again. *)
Theorem exhausted_index_restarts self minl maxl fuel n results mi' :
  session fuel self n (MarkovIndex_init minl maxl) = Return (results, mi') →
  last results = Some None →
  guess mi' = None ∧
  ∀ fuel', next_guess fuel' self mi'
           = next_guess fuel' self (MarkovIndex_init minl maxl).
Proof.
  intros Hs Hlast.
  apply session_keeps in Hs as (Hmin & Hmax & _ & _ & Hl);
    [|apply index_ok_init].
  specialize (Hl _ Hlast). split; [done|].
  intros fuel'. rewrite next_guess_absent by done.
  by rewrite Hmin, Hmax.
Qed.

(** In the siblings example the third call signals exhaustion and leaves
    the level 7 behind; the index is taken for a fresh one all the same. *)
Lemma exhausted_index_restarts_witness :
  next_guess 4 siblings_model
    {| min_level := 0; max_level := 3; guess := None; guess_level := 7 |}
  = next_guess 4 siblings_model (MarkovIndex_init 0 3).
Proof.
  refine (proj2 (exhausted_index_restarts siblings_model 0 3 4 3
                   [Some [97]; Some [97; 98]; None]
                   {| min_level := 0; max_level := 3;
                      guess := None; guess_level := 7 |} _ _) 4%nat).
  - vm_compute. reflexivity.
  - reflexivity.
Defined.

(** C3 fails as stated: with the single character [a] and the bounds
    [0 .. 0], the second call signals exhaustion, after the guess [a], and
    the third call returns [a] again. *)
Lemma exhaustion_not_permanent :
  session 4 single_model 3 (MarkovIndex_init 0 0)
  = Return ([Some (codes "a"); None; Some (codes "a")],
            {| min_level := 0; max_level := 0;
               guess := Some (codes "a"); guess_level := 0 |}).
Proof. vm_compute. reflexivity. Qed.

(** ** Creating a session *)

(** C9, as the code has it. Creating a session checks nothing and does not
    fail: [MarkovIndex(minl, maxl)] is the index with these bounds, without
    a guess and at level 0, also when [maxl < minl] or when the model has no
    character. With a model without characters the first call of
    [next_guess], not the creation, raises a [KeyError]; and in both
    cases no call ever returns a guess. *)
Theorem new_session_unchecked self minl maxl :
  maxl < minl ∨ start_letter self = None →
  MarkovIndex_init minl maxl
  = {| min_level := minl; max_level := maxl; guess := None; guess_level := 0 |} ∧
  (start_letter self = None →
   ∀ fuel, next_guess fuel self (MarkovIndex_init minl maxl) = Raise KeyError) ∧
  (∀ fuel n results mi',
     session fuel self n (MarkovIndex_init minl maxl) = Return (results, mi') →
     ∀ g, Some g ∉ results).
Proof.
  intros Hcase. split; [done|]. split.
  - intros Hs fuel. unfold next_guess. simpl. by rewrite Hs.
  - intros fuel n results mi' H g Hg.
    destruct Hcase as [Hlt|Hs].
    + apply session_keeps in H as (_ & _ & _ & Hres & _);
        [|apply index_ok_init].
      destruct (Hres g Hg) as (l & _ & Hband & _). simpl in Hband. lia.
    + destruct n as [|n]; simpl in H.
      * simplify_eq. by apply elem_of_nil in Hg.
      * unfold next_guess in H. simpl in H. by rewrite Hs in H.
Qed.

Lemma new_session_unchecked_witness :
  MarkovIndex_init 5 3
  = {| min_level := 5; max_level := 3; guess := None; guess_level := 0 |}.
Proof.
  refine (proj1 (new_session_unchecked single_model 5 3 _)).
  left. lia.
Defined.

(** C9 fails as stated: an index with [maxl < minl] is created and the calls
    of [next_guess] on it return normally; an index for the model without
    characters is created too, and it is the first call that fails. *)
Lemma creation_never_fails :
  MarkovIndex_init 5 3
  = {| min_level := 5; max_level := 3; guess := None; guess_level := 0 |} ∧
  session 4 single_model 2 (MarkovIndex_init 5 3)
  = Return ([None; None], MarkovIndex_init 5 3) ∧
  MarkovCracker_init None = Return empty_model ∧
  MarkovIndex_init 0 3
  = {| min_level := 0; max_level := 3; guess := None; guess_level := 0 |} ∧
  next_guess 4 empty_model (MarkovIndex_init 0 3) = Raise KeyError.
Proof. split_and!; vm_compute; reflexivity. Qed.

(** ** Widening *)

(** C6. Top-level short-circuit: in the widening with a guess of one
    character, when this character has no next sibling in the top-level
    chain, or when the start probability of its next sibling exceeds
    [max_level], [dig_wider_base] sets the guess to [None] and reports that
    no work is left, and [next_guess] returns [None] from its inner loop:
    no further start character is looked at. *)
Theorem top_level_short_circuit self fuel mi parent nd :
  guess mi = Some [parent] →
  markov_stats self !! parent = Some nd →
  (next nd = None ∨
   ∃ c nc, next nd = Some c ∧ markov_stats self !! c = Some nc ∧
           max_level mi < probability nc) →
  ∃ mi', dig_wider_base self mi parent = Return (false, None, mi') ∧
         dig_wider (S fuel) self mi = Return (Done None mi') ∧
         guess mi' = None ∧
         min_level mi' = min_level mi ∧ max_level mi' = max_level mi.
Proof.
  intros Hg Hnd Hcase.
  assert (∃ mi', dig_wider_base self mi parent = Return (false, None, mi') ∧
                 guess mi' = None ∧ min_level mi' = min_level mi ∧
                 max_level mi' = max_level mi) as (mi' & Hb & ? & ? & ?).
  { unfold dig_wider_base. rewrite Hnd; simpl.
    destruct Hcase as [Hnone|(c & nc & Hc & Hnc & Hlt)].
    - rewrite Hnone. by eexists.
    - rewrite Hc, Hnc; simpl. apply Z.ltb_lt in Hlt. rewrite Hlt.
      by eexists. }
  exists mi'. split; [done|]. split; [|done].
  simpl. rewrite Hg; simpl. by rewrite Hb.
Qed.

Lemma top_level_short_circuit_witness :
  ∃ mi', dig_wider_base scenario_model
           {| min_level := 0; max_level := 3;
              guess := Some [97]; guess_level := 0 |} 97
         = Return (false, None, mi') ∧
         dig_wider 1 scenario_model
           {| min_level := 0; max_level := 3;
              guess := Some [97]; guess_level := 0 |}
         = Return (Done None mi') ∧
         guess mi' = None ∧ min_level mi' = 0 ∧ max_level mi' = 3.
Proof.
  refine (top_level_short_circuit scenario_model 0
            {| min_level := 0; max_level := 3;
               guess := Some [97]; guess_level := 0 |} 97
            {| probability := 0;
               following_letters :=
                 <[97 := {| f_probability := 0; f_next := Some 98 |}]>
                   (<[98 := {| f_probability := 3; f_next := None |}]> ∅);
               first_child := Some 97; last_child := Some 98;
               next := Some 98 |} _ _ _).
  - reflexivity.
  - vm_compute. reflexivity.
  - right. exists 98, (leaf_stats 5 None).
    split; [reflexivity|]. split; [vm_compute; reflexivity|]. simpl. lia.
Defined.

(** C5, as the code has it. In the widening with a guess of more than one
    character, when the next sibling of the last character lies above
    [max_level], the last character is taken off the guess, its level is
    taken off the stored level, and the widening goes on one level up, at
    the parent: the sibling and all the siblings after it are left out. *)
Theorem over_limit_sibling_pops self fuel mi q prev parent nd e cur ec :
  guess mi = Some (q ++ [prev; parent]) →
  markov_stats self !! prev = Some nd →
  following_letters nd !! parent = Some e →
  f_next e = Some cur →
  following_letters nd !! cur = Some ec →
  max_level mi < guess_level mi - f_probability e + f_probability ec →
  dig_wider (S fuel) self mi
  = dig_wider fuel self
      {| min_level := min_level mi; max_level := max_level mi;
         guess := Some (q ++ [prev]);
         guess_level := guess_level mi - f_probability e |}.
Proof.
  intros Hg Hnd He Hnext Hec Hlt. simpl. rewrite Hg; simpl.
  replace (q ++ [prev; parent]) with ((q ++ [prev]) ++ [parent])
    by (by rewrite <- app_assoc).
  rewrite last_snoc; simpl. rewrite removelast_last.
  assert ((length ((q ++ [prev]) ++ [parent]) =? 1)%nat = false) as ->.
  { apply Nat.eqb_neq. rewrite !length_app. simpl. lia. }
  rewrite last_snoc; simpl. rewrite Hnd; simpl. rewrite He; simpl.
  rewrite Hnext, Hec; simpl.
  assert (in_range (set_guess_level mi (guess_level mi - f_probability e))
            (guess_level mi - f_probability e + f_probability ec) = false) as ->.
  { apply not_true_is_false. rewrite in_range_bounds. simpl. lia. }
  assert ((guess_level mi - f_probability e + f_probability ec <? max_level mi)
          = false) as ->.
  { apply Z.ltb_ge. lia. }
  reflexivity.
Qed.

Lemma over_limit_sibling_pops_witness :
  dig_wider 2 siblings_model
    {| min_level := 0; max_level := 3;
       guess := Some [97; 98]; guess_level := 1 |}
  = dig_wider 1 siblings_model
      {| min_level := 0; max_level := 3;
         guess := Some [97]; guess_level := 0 |}.
Proof.
  refine (over_limit_sibling_pops siblings_model 1
            {| min_level := 0; max_level := 3;
               guess := Some [97; 98]; guess_level := 1 |}
            [] 97 98
            {| probability := 0;
               following_letters :=
                 <[98 := {| f_probability := 1; f_next := Some 99 |}]>
                   (<[99 := {| f_probability := 9; f_next := Some 100 |}]>
                      (<[100 := {| f_probability := 2; f_next := None |}]> ∅));
               first_child := Some 98; last_child := Some 100;
               next := Some 98 |}
            {| f_probability := 1; f_next := Some 99 |} 99
            {| f_probability := 9; f_next := Some 100 |} _ _ _ _ _ _).
  - reflexivity.
  - vm_compute. reflexivity.
  - vm_compute. reflexivity.
  - reflexivity.
  - vm_compute. reflexivity.
  - simpl. lia.
Defined.

(** C5 fails as stated: in the siblings example with the bounds [0 .. 3],
    after the guess [ab] the next sibling [c] of [b] lies above the limit
    (level 9) and the sibling [d] after it does not (level 2); the search
    does not go on to [d]: the call after [ab] signals exhaustion, and [ad]
    is not returned. *)
Lemma over_limit_sibling_ends_level :
  level_of siblings_model (codes "ac") = Some 9 ∧
  level_of siblings_model (codes "ad") = Some 2 ∧
  session 4 siblings_model 3 (MarkovIndex_init 0 3)
  = Return ([Some (codes "a"); Some (codes "ab"); None],
            {| min_level := 0; max_level := 3;
               guess := None; guess_level := 7 |}).
Proof. split_and!; vm_compute; reflexivity. Qed.

(** ** Failing loads *)

Lemma load_lines_invalid pre line post self prev_proba1 :
  read_line line = None →
  (load_lines self prev_proba1 (pre ++ line :: post)).1 = false ∧
  load_lines self prev_proba1 (pre ++ line :: post)
  = load_lines self prev_proba1 (pre ++ [line]).
Proof.
  intros Hr. revert self prev_proba1.
  induction pre as [|l pre IH]; intros self prev; simpl.
  - unfold read_line in Hr.
    destruct (contains "=proba1" line).
    + unfold load_proba1. by destruct (parse_proba1 line) as [[? ?]| |].
    + destruct (contains "=proba2" line); [|done].
      unfold load_proba2. by destruct (parse_proba2 line) as [[[? ?] ?]| |].
  - destruct (contains "=proba1" l).
    + destruct (load_proba1 self prev l); [by apply IH|done].
    + destruct (contains "=proba2" l); [|done].
      destruct (load_proba2 self prev l); [by apply IH|done].
Qed.

(** C10, as the code has it. A failing load is atomic for the caller:
    when the statistics file has a line that the loader cannot read (a
    line with neither the text [=proba1] nor the text [=proba2], or a
    line on which the parsing of its branch raises), [load_markov_stats]
    gives up, whatever the lines before it and after it are; it gives up
    at that line, the lines after it being of no effect; and the
    constructor [MarkovCracker(rule_directory)] raises: the caller gets
    the error and no model, not even a partial one. *)
Theorem invalid_line_fails_load pre line post :
  read_line line = None →
  (∀ self, (load_markov_stats self (Some (pre ++ line :: post))).1 = false) ∧
  (∀ self, load_markov_stats self (Some (pre ++ line :: post))
           = load_markov_stats self (Some (pre ++ [line]))) ∧
  MarkovCracker_init (Some (Some (pre ++ line :: post))) = Raise RuntimeError.
Proof.
  intros Hr. split; [|split].
  - intros self. simpl. by apply load_lines_invalid.
  - intros self. simpl. by apply load_lines_invalid.
  - unfold MarkovCracker_init, load_markov_stats.
    destruct (load_lines_invalid pre line post
                {| markov_stats := ∅; start_letter := None |} None Hr)
      as [H _].
    destruct (load_lines _ None (pre ++ line :: post)) as [ok self'].
    simpl in H. by rewrite H.
Qed.

Lemma invalid_line_fails_load_witness :
  MarkovCracker_init
    (Some (Some [text_line "0=proba1[97]"; text_line "# a comment";
                 text_line "5=proba1[98]"]))
  = Raise RuntimeError.
Proof.
  refine (proj2 (proj2 (invalid_line_fails_load
                          [text_line "0=proba1[97]"]
                          (text_line "# a comment")
                          [text_line "5=proba1[98]"] _))).
  vm_compute. reflexivity.
Defined.

(** ** The scenario of the two characters *)

(** One turn of [dig_deeper] on a first child within the band. *)
Lemma dig_deeper_accepts self fuel mi p x nd c e :
  guess mi = Some p → last p = Some x →
  markov_stats self !! x = Some nd → first_child nd = Some c →
  following_letters nd !! c = Some e →
  in_range mi (guess_level mi + f_probability e) = true →
  dig_deeper (S fuel) self mi
  = Return (Some (p ++ [c]),
            {| min_level := min_level mi; max_level := max_level mi;
               guess := Some (p ++ [c]);
               guess_level := guess_level mi + f_probability e |}).
Proof.
  intros Hg Hlast Hnd Hfc He Hin. simpl.
  rewrite Hg; simpl. rewrite Hlast; simpl. rewrite Hnd; simpl.
  rewrite Hfc, He; simpl. by rewrite Hin.
Qed.

Lemma scenario_next fuel k :
  (2 ≤ fuel)%nat → (1 ≤ k)%nat →
  next_guess fuel scenario_model (scenario_index k)
  = Return (Some (replicate (S k) 97), scenario_index (S k)).
Proof.
  intros Hfuel Hk. destruct fuel as [|[|fuel]]; [lia|lia|].
  unfold next_guess. change (guess (scenario_index k)) with (Some (replicate k 97)).
  cbv beta iota. change (guess_loop (S (S fuel)) scenario_model (scenario_index k))
    with (r ← dig_deeper (S fuel) scenario_model (scenario_index k);
          match r with
          | (Some ret_value, mi1) => Return (Some ret_value, mi1)
          | (None, mi1) =>
              w ← dig_wider (S fuel) scenario_model mi1;
              match w with
              | Done ret_value mi2 => Return (ret_value, mi2)
              | Break mi2 => guess_loop (S fuel) scenario_model mi2
              end
          end).
  rewrite (dig_deeper_accepts scenario_model fuel (scenario_index k)
             (replicate k 97) 97
             {| probability := 0;
                following_letters :=
                  <[97 := {| f_probability := 0; f_next := Some 98 |}]>
                    (<[98 := {| f_probability := 3; f_next := None |}]> ∅);
                first_child := Some 97; last_child := Some 98;
                next := Some 98 |}
             97 {| f_probability := 0; f_next := Some 98 |}).
  - unfold mbind, res_bind. rewrite <- replicate_S_end. reflexivity.
  - reflexivity.
  - destruct k as [|k]; [lia|]. rewrite replicate_S_end. apply last_snoc.
  - vm_compute. reflexivity.
  - reflexivity.
  - vm_compute. reflexivity.
  - reflexivity.
Qed.

Lemma scenario_session fuel n k :
  (2 ≤ fuel)%nat → (1 ≤ k)%nat →
  session fuel scenario_model n (scenario_index k)
  = Return (map (λ j, Some (replicate (S j) 97)) (seq k n),
            scenario_index (k + n)).
Proof.
  intros Hfuel. revert k. induction n as [|n IH]; intros k Hk.
  - simpl. by rewrite Nat.add_0_r.
  - simpl. rewrite scenario_next by done. unfold mbind at 1, res_bind at 1.
    simpl. rewrite IH by lia. unfold mbind, res_bind. simpl.
    by rewrite Nat.add_succ_r.
Qed.

(** C4, as the code has it. In the scenario (unigrams [a=0] then [b=5],
    bigrams [a→a=0] then [a→b=3], bounds [0 .. 3]) the session descends
    along [a] without end: its [n] first calls return [a], [aa], [aaa],
    ..., the string of [n] letters [a] at the [n]-th call, each at level 0;
    [ab] is not reached and exhaustion is not signalled. *)
Theorem scenario_descends_forever self fuel n :
  MarkovCracker_init (Some (Some scenario_lines)) = Return self →
  (2 ≤ fuel)%nat →
  session fuel self n (MarkovIndex_init 0 3)
  = Return (map (λ j, Some (replicate (S j) 97)) (seq 0 n),
            match n with
            | O => MarkovIndex_init 0 3
            | S _ => {| min_level := 0; max_level := 3;
                        guess := Some (replicate n 97); guess_level := 0 |}
            end).
Proof.
  intros Hload Hfuel. rewrite scenario_loaded in Hload.
  injection Hload as <-. destruct n as [|n]; [done|].
  change (session fuel scenario_model (S n) (MarkovIndex_init 0 3))
    with (r ← next_guess fuel scenario_model (MarkovIndex_init 0 3);
          rs ← session fuel scenario_model n r.2;
          Return (r.1 :: rs.1, rs.2)).
  assert (next_guess fuel scenario_model (MarkovIndex_init 0 3)
          = Return (Some [97], scenario_index 1)) as ->
    by (vm_compute; reflexivity).
  unfold mbind at 1, res_bind at 1. cbn [fst snd].
  rewrite scenario_session by (done || lia).
  unfold mbind, res_bind. reflexivity.
Qed.

Lemma scenario_descends_forever_witness :
  session 2 scenario_model 3 (MarkovIndex_init 0 3)
  = Return ([Some (codes "a"); Some (codes "aa"); Some (codes "aaa")],
            {| min_level := 0; max_level := 3;
               guess := Some (codes "aaa"); guess_level := 0 |}).
Proof.
  refine (scenario_descends_forever scenario_model 2 3 _ _).
  - vm_compute. reflexivity.
  - lia.
Defined.

(** C4 fails as stated: the third call returns [aaa], not [ab], and the
    fourth call returns [aaaa] instead of signalling exhaustion. *)
Lemma scenario_third_guess :
  MarkovCracker_init (Some (Some scenario_lines)) = Return scenario_model ∧
  session 4 scenario_model 4 (MarkovIndex_init 0 3)
  = Return ([Some (codes "a"); Some (codes "aa"); Some (codes "aaa");
             Some (codes "aaaa")],
            {| min_level := 0; max_level := 3;
               guess := Some (codes "aaaa"); guess_level := 0 |}).
Proof. split; vm_compute; reflexivity. Qed.

(** ** More fuel changes nothing *)

Section Fuel.
Context (self : MarkovCracker).

Lemma dig_deeper_fuel f f' mi r :
  (f ≤ f')%nat → dig_deeper f self mi = Return r →
  dig_deeper f' self mi = Return r.
Proof.
  revert f' mi. induction f as [|f IH]; intros f' mi Hle H; [done|].
  destruct f' as [|f']; [lia|]. simpl in *. unfold mbind, res_bind in *.
  destruct (expect TypeError (guess mi)) as [g| |]; try done.
  destruct (expect IndexError (last g)) as [x| |]; try done.
  destruct (expect KeyError (markov_stats self !! x)) as [nd| |]; try done.
  destruct (first_child nd) as [c|]; [|done].
  destruct (expect KeyError (following_letters nd !! c)) as [e| |]; try done.
  destruct (in_range _ _); [done|].
  destruct (_ <? _); [done|]. apply IH; [lia|done].
Qed.

Lemma dig_wider_fuel f f' mi w :
  (f ≤ f')%nat → dig_wider f self mi = Return w →
  dig_wider f' self mi = Return w.
Proof.
  revert f' mi. induction f as [|f IH]; intros f' mi Hle H; [done|].
  destruct f' as [|f']; [lia|]. simpl in *. unfold mbind, res_bind in *.
  destruct (expect TypeError (guess mi)) as [g| |]; try done.
  destruct (expect IndexError (last g)) as [x| |]; try done.
  destruct (length g =? 1)%nat; [done|].
  destruct (expect IndexError (last (removelast g))) as [y| |]; try done.
  destruct (expect KeyError (markov_stats self !! y)) as [nd| |]; try done.
  destruct (expect KeyError (following_letters nd !! x)) as [e| |]; try done.
  destruct (f_next e) as [c|]; [|apply IH; [lia|done]].
  destruct (expect KeyError (following_letters nd !! c)) as [ec| |]; try done.
  destruct (in_range _ _); [done|].
  destruct (_ <? _); [done|]. apply IH; [lia|done].
Qed.

Lemma guess_loop_fuel f f' mi r :
  (f ≤ f')%nat → guess_loop f self mi = Return r →
  guess_loop f' self mi = Return r.
Proof.
  revert f' mi. induction f as [|f IH]; intros f' mi Hle H; [done|].
  destruct f' as [|f']; [lia|]. simpl in *. unfold mbind, res_bind in *.
  destruct (dig_deeper f self mi) as [[r1 mi1]| |] eqn:Ed; try done.
  rewrite (dig_deeper_fuel f f' mi _ ltac:(lia) Ed).
  destruct r1 as [s|]; [done|].
  destruct (dig_wider f self mi1) as [w| |] eqn:Ew; try done.
  rewrite (dig_wider_fuel f f' mi1 _ ltac:(lia) Ew).
  destruct w as [mi2|r2 mi2]; [|done]. apply IH; [lia|done].
Qed.

Lemma next_guess_fuel f f' mi r :
  (f ≤ f')%nat → next_guess f self mi = Return r →
  next_guess f' self mi = Return r.
Proof.
  intros Hle H. unfold next_guess in *.
  destruct (guess mi); [by eapply guess_loop_fuel|].
  unfold mbind, res_bind in *.
  destruct (expect KeyError (start_letter self)) as [s| |]; try done.
  destruct (expect KeyError (markov_stats self !! s)) as [nd| |]; try done.
  destruct (in_range _ _); [done|]. by eapply guess_loop_fuel.
Qed.

Lemma session_fuel f f' n mi r :
  (f ≤ f')%nat → session f self n mi = Return r →
  session f' self n mi = Return r.
Proof.
  intros Hle. revert mi r. induction n as [|n IH]; intros mi r H; [done|].
  simpl in *. unfold mbind, res_bind in *.
  destruct (next_guess f self mi) as [r1| |] eqn:En; try done.
  rewrite (next_guess_fuel f f' mi _ Hle En).
  destruct (session f self n r1.2) as [rs| |] eqn:Es; try done.
  by rewrite (IH _ _ Es).
Qed.

End Fuel.

(** ** Chains *)

Lemma walk_is_chain {A : Type} fuel (m : gmap Z A) nxt first l :
  walk fuel m nxt first = Some l → is_chain m nxt first l.
Proof.
  revert first l. induction fuel as [|fuel IH]; intros [c|] l H; simpl in H.
  - done.
  - by simplify_eq.
  - destruct (m !! c) as [a|] eqn:Ea; simpl in H; [|done].
    destruct (walk fuel m nxt (nxt a)) as [l'|] eqn:Ew; simpl in H; [|done].
    simplify_eq. simpl. split; [done|]. exists a. split; [done|]. by apply IH.
  - by simplify_eq.
Qed.

Lemma is_chain_suffix {A : Type} (m : gmap Z A) nxt first pre x r :
  is_chain m nxt first (pre ++ x :: r) →
  ∃ a, m !! x = Some a ∧ is_chain m nxt (nxt a) r.
Proof.
  revert first. induction pre as [|c pre IH]; intros first; simpl.
  - intros (_ & a & Ha & Hr). eauto.
  - intros (_ & a & _ & Hr). by eapply IH.
Qed.

Lemma is_chain_lookup {A : Type} (m : gmap Z A) nxt first l c :
  is_chain m nxt first l → c ∈ l → is_Some (m !! c).
Proof.
  intros Hc Hin. apply list_elem_of_split in Hin as (pre & r & ->).
  apply is_chain_suffix in Hc as (a & Ha & _). eauto.
Qed.

(** A chain that ends does not come back on itself. *)
Lemma is_chain_unique {A : Type} (m : gmap Z A) nxt first l1 l2 :
  is_chain m nxt first l1 → is_chain m nxt first l2 → l1 = l2.
Proof.
  revert first l2. induction l1 as [|c l1 IH]; intros first [|c2 l2]; simpl.
  - done.
  - intros -> [? _]. done.
  - intros [-> _] ?. done.
  - intros [-> (a & Ha & H1)] [[= <-] (a2 & Ha2 & H2)].
    simplify_eq. f_equal. by eapply IH.
Qed.

Lemma is_chain_NoDup {A : Type} (m : gmap Z A) nxt first l :
  is_chain m nxt first l → NoDup l.
Proof.
  revert first. induction l as [|c l IH]; intros first; [constructor|].
  intros [-> (a & Ha & Hl)]. apply NoDup_cons. split; [|by eapply IH].
  intros Hin. apply list_elem_of_split in Hin as (pre & r & ->).
  pose proof (is_chain_suffix _ _ _ _ _ _ Hl) as (a' & Ha' & Hr).
  simplify_eq.
  pose proof (is_chain_unique _ _ _ _ _ Hl Hr) as Heq.
  apply (f_equal length) in Heq. rewrite length_app in Heq. simpl in Heq. lia.
Qed.

Section WellFormed.
Context (self : MarkovCracker) (Hwf : well_formed self).

Lemma wf_top : is_chain (markov_stats self) next (start_letter self)
                        (top_letters self).
Proof.
  destruct Hwf as (_ & [l Hl] & _). unfold top_letters. rewrite Hl. simpl.
  by eapply walk_is_chain.
Qed.

Lemma wf_top_first :
  ∃ c rs nd, top_letters self = c :: rs ∧ start_letter self = Some c ∧
             markov_stats self !! c = Some nd.
Proof.
  pose proof wf_top as Hc. destruct Hwf as (Hs & _).
  destruct (top_letters self) as [|c rs]; simpl in Hc; [done|].
  destruct Hc as (? & nd & ? & _). eauto 6.
Qed.

Lemma wf_children x nd :
  markov_stats self !! x = Some nd →
  is_chain (following_letters nd) f_next (first_child nd) (children self x).
Proof.
  intros Hx. destruct Hwf as (_ & _ & Hall).
  destruct (Hall x nd Hx) as ([l Hl] & _).
  unfold children. rewrite Hx, Hl. simpl. by eapply walk_is_chain.
Qed.

Lemma wf_closed x c : c ∈ children self x → is_Some (markov_stats self !! c).
Proof.
  unfold children. destruct (markov_stats self !! x) as [nd|] eqn:Hx.
  - destruct Hwf as (_ & _ & Hall). destruct (Hall x nd Hx) as (_ & Hc).
    rewrite Forall_forall in Hc. apply Hc.
  - intros Hin. by apply elem_of_nil in Hin.
Qed.

Lemma wf_transition x c :
  c ∈ children self x → is_Some (transition self x c).
Proof.
  intros Hin. unfold transition.
  destruct (markov_stats self !! x) as [nd|] eqn:Hx.
  - simpl. destruct (is_chain_lookup _ _ _ _ _ (wf_children x nd Hx) Hin)
      as [e He]. rewrite He. by eexists.
  - unfold children in Hin. rewrite Hx in Hin. by apply elem_of_nil in Hin.
Qed.

End WellFormed.

(** ** The recursion on the trie, unfolded *)

Section Reference.
Context (self : MarkovCracker) (minl maxl : Z).
Context (Hwf : well_formed self) (Hpos : positive self).

Lemma positive_transition x c t : transition self x c = Some t → 0 < t.
Proof.
  unfold transition. destruct (markov_stats self !! x) as [nd|] eqn:Hx;
    simpl; [|done].
  destruct (following_letters nd !! c) as [e|] eqn:He; simpl; [|done].
  intros [= <-]. exact (Hpos x nd Hx c e He).
Qed.

Lemma along_ext rec1 rec2 p x lvl cs :
  (∀ c t, transition self x c = Some t → lvl + t ≤ maxl →
          (rec1 (p ++ [c]) c (lvl + t) = rec2 (p ++ [c]) c (lvl + t))) →
  along self maxl rec1 p x lvl cs = along self maxl rec2 p x lvl cs.
Proof.
  intros Hrec. induction cs as [|c cs IH]; simpl; [done|].
  destruct (transition self x c) as [t|] eqn:Ht; [|done].
  destruct (maxl <? lvl + t) eqn:Hlt; [done|].
  apply Z.ltb_ge in Hlt. by rewrite IH, (Hrec c t Ht Hlt).
Qed.

Lemma along_above rec p x lvl cs :
  maxl ≤ lvl → along self maxl rec p x lvl cs = [].
Proof.
  intros Hle. destruct cs as [|c cs]; simpl; [done|].
  destruct (transition self x c) as [t|] eqn:Ht; [|done].
  apply positive_transition in Ht.
  assert ((maxl <? lvl + t) = true) as -> by (apply Z.ltb_lt; lia). done.
Qed.

Lemma below_fuel d1 d2 p x lvl :
  (Z.to_nat (maxl - lvl) ≤ d1)%nat → (Z.to_nat (maxl - lvl) ≤ d2)%nat →
  below self maxl d1 p x lvl = below self maxl d2 p x lvl.
Proof.
  revert d2 p x lvl.
  induction d1 as [|d1 IH]; intros [|d2] p x lvl H1 H2; simpl; [done| | |].
  - symmetry. apply along_above. lia.
  - apply along_above. lia.
  - apply along_ext. intros c t Ht Hle.
    apply positive_transition in Ht. apply IH; lia.
Qed.

Lemma below_enough d p x lvl :
  (Z.to_nat (maxl - lvl) ≤ d)%nat →
  below self maxl d p x lvl = sub self maxl p x lvl.
Proof. intros Hd. by apply below_fuel. Qed.

Lemma sub_unfold p x lvl :
  sub self maxl p x lvl
  = along self maxl (sub self maxl) p x lvl (children self x).
Proof.
  unfold sub at 1. destruct (Z.to_nat (maxl - lvl)) as [|k] eqn:Hk.
  - simpl. symmetry. apply along_above. lia.
  - simpl. apply along_ext. intros c t Ht Hle.
    apply positive_transition in Ht. apply below_enough. lia.
Qed.

End Reference.

(** ** The index and the place in the trie *)

Section Places.
Context (self : MarkovCracker) (minl maxl : Z).
Context (Hwf : well_formed self) (Hpos : positive self).

Lemma path_cons x r (st : place) : path ((x, r) :: st) = path st ++ [x].
Proof. reflexivity. Qed.

Lemma place_root_inv x r :
  place_ok self [(x, r)] → ∃ pre, top_letters self = pre ++ x :: r.
Proof. inversion 1; subst. eauto. Qed.

Lemma place_child_inv x r y ry up :
  place_ok self ((x, r) :: (y, ry) :: up) →
  (∃ pre, children self y = pre ++ x :: r) ∧ place_ok self ((y, ry) :: up).
Proof. inversion 1; subst. eauto. Qed.

Lemma place_entry x r up :
  place_ok self ((x, r) :: up) → is_Some (markov_stats self !! x).
Proof.
  destruct up as [|[y ry] up]; intros Hok.
  - apply place_root_inv in Hok as [pre Htop].
    eapply is_chain_lookup; [by apply wf_top|]. rewrite Htop.
    apply elem_of_app. right. apply list_elem_of_here.
  - apply place_child_inv in Hok as [[pre Hch] _].
    eapply wf_closed; [done|]. rewrite Hch.
    apply elem_of_app. right. apply list_elem_of_here.
Qed.

(** Going to the sibling [c], the first of the siblings left. *)
Lemma sibling_visits y ry up c r t lvl :
  transition self y c = Some t → lvl + t ≤ maxl →
  along self maxl (sub self maxl) (path ((y, ry) :: up)) y lvl (c :: r)
    ++ rest_wide self maxl ((y, ry) :: up) lvl
  = (path ((c, r) :: (y, ry) :: up), lvl + t)
      :: rest_deep self maxl ((c, r) :: (y, ry) :: up) (lvl + t).
Proof.
  intros Ht Hle. unfold rest_deep.
  change (rest_wide self maxl ((c, r) :: (y, ry) :: up) (lvl + t))
    with (match transition self y c with
          | None => []
          | Some t' =>
              along self maxl (sub self maxl) (path ((y, ry) :: up)) y
                    (lvl + t - t') r
                ++ rest_wide self maxl ((y, ry) :: up) (lvl + t - t')
          end).
  simpl along. rewrite Ht.
  assert ((maxl <? lvl + t) = false) as -> by (apply Z.ltb_ge; lia).
  replace (lvl + t - t) with lvl by lia.
  rewrite (path_cons c r). simpl. by rewrite <- !app_assoc.
Qed.

(** Going down to the first child. *)
Lemma descent_visits x r up c cs t lvl :
  children self x = c :: cs →
  transition self x c = Some t → lvl + t ≤ maxl →
  rest_deep self maxl ((x, r) :: up) lvl
  = (path ((c, cs) :: (x, r) :: up), lvl + t)
      :: rest_deep self maxl ((c, cs) :: (x, r) :: up) (lvl + t).
Proof.
  intros Hch Ht Hle. unfold rest_deep at 1.
  rewrite (sub_unfold self maxl Hpos), Hch.
  by apply sibling_visits.
Qed.

(** A first child above the limit, or no child. *)
Lemma descent_nothing x r up lvl :
  match children self x with
  | [] => True
  | c :: _ => ∃ t, transition self x c = Some t ∧ maxl < lvl + t
  end →
  rest_deep self maxl ((x, r) :: up) lvl = rest_wide self maxl ((x, r) :: up) lvl.
Proof.
  intros H. unfold rest_deep. rewrite (sub_unfold self maxl Hpos).
  destruct (children self x) as [|c cs]; [done|].
  destruct H as (t & Ht & Hlt). simpl along. rewrite Ht.
  apply Z.ltb_lt in Hlt. by rewrite Hlt.
Qed.

End Places.

(** ** The loops follow the recursion *)

Section Simulation.
Context (self : MarkovCracker) (minl maxl : Z).
Context (Hwf : well_formed self) (Hpos : positive self) (Hband : minl ≤ maxl).

Local Abbreviation at_place := (at_place self minl maxl).
Local Abbreviation rest_deep := (rest_deep self maxl).
Local Abbreviation rest_wide := (rest_wide self maxl).
Local Abbreviation outside := (Forall (λ v : visit, ¬ (minl ≤ v.2 ≤ maxl))).

Lemma place_nonempty mi : ¬ at_place mi [].
Proof. intros [_ _ _ Hok]. inversion Hok. Qed.

Lemma transition_entry x c nd e :
  markov_stats self !! x = Some nd → following_letters nd !! c = Some e →
  transition self x c = Some (f_probability e).
Proof. apply transition_lookup. Qed.

Lemma at_place_push mi x r up c cs pre l :
  at_place mi ((x, r) :: up) →
  children self x = pre ++ c :: cs →
  at_place (set_guess_level (set_guess mi (Some (path ((x, r) :: up) ++ [c]))) l)
           ((c, cs) :: (x, r) :: up).
Proof.
  intros [Hmin Hmax Hg Hok] Hch. split; simpl; try done.
  by eapply place_child.
Qed.

Lemma dig_deeper_run mi x r up nd f :
  guess mi = Some (path ((x, r) :: up)) → markov_stats self !! x = Some nd →
  dig_deeper (S f) self mi =
    match first_child nd with
    | None => Return (None, mi)
    | Some c =>
        e ← expect KeyError (following_letters nd !! c);
        let l := guess_level mi + f_probability e in
        let mi' := set_guess_level
                     (set_guess mi (Some (path ((x, r) :: up) ++ [c]))) l in
        if in_range mi l then Return (Some (path ((x, r) :: up) ++ [c]), mi')
        else if max_level mi <? l then Return (None, mi)
        else dig_deeper f self mi'
    end.
Proof.
  intros Hg Hx. simpl. rewrite Hg. simpl.
  rewrite (path_cons x r up), last_snoc. simpl. by rewrite Hx.
Qed.

Lemma dig_deeper_sim n st mi :
  at_place mi st → (Z.to_nat (maxl - guess_level mi) < n)%nat →
  ∃ fuel r mi' st' skipped,
    dig_deeper fuel self mi = Return (r, mi') ∧ at_place mi' st' ∧
    outside skipped ∧
    match r with
    | Some g =>
        g = path st' ∧ minl ≤ guess_level mi' ≤ maxl ∧
        rest_deep st (guess_level mi)
        = skipped ++ (g, guess_level mi') :: rest_deep st' (guess_level mi')
    | None =>
        rest_deep st (guess_level mi)
        = skipped ++ rest_wide st' (guess_level mi')
    end.
Proof.
  revert st mi. induction n as [|n IH]; intros st mi Hat Hn; [lia|].
  destruct st as [|[x r] up]; [by apply place_nonempty in Hat|].
  pose proof Hat as [Hmin Hmax Hg Hok].
  destruct (place_entry self Hwf _ _ _ Hok) as [nd Hx].
  pose proof (wf_children self Hwf x nd Hx) as Hch.
  pose proof (λ f, dig_deeper_run mi x r up nd f Hg Hx) as Hrun.
  destruct (children self x) as [|c cs] eqn:Hcs; simpl in Hch.
  { exists 1%nat, None, mi, ((x, r) :: up), [].
    rewrite Hrun, Hch. split_and!; try done.
    simpl. apply descent_nothing; [done|by rewrite Hcs]. }
  destruct Hch as (Hfc & e & He & Hrest).
  pose proof (transition_entry _ _ _ _ Hx He) as Ht.
  pose proof (positive_transition self Hpos _ _ _ Ht) as Htpos.
  rewrite Hfc, He in Hrun. unfold expect, mbind, res_bind in Hrun.
  cbv beta iota zeta in Hrun.
  set (l := guess_level mi + f_probability e) in *.
  destruct (in_range mi l) eqn:Hin.
  { apply in_range_bounds in Hin as Hl. rewrite Hmin, Hmax in Hl.
    exists 1%nat, (Some (path ((c, cs) :: (x, r) :: up))),
      (set_guess_level (set_guess mi (Some (path ((x, r) :: up) ++ [c]))) l),
      ((c, cs) :: (x, r) :: up), [].
    split; [by rewrite Hrun|]. split; [by apply (at_place_push _ _ _ _ _ _ [])|].
    split; [done|]. split; [done|]. split; [done|].
    simpl. apply descent_visits; [done|done|done|lia]. }
  destruct (max_level mi <? l) eqn:Hmaxl.
  { apply Z.ltb_lt in Hmaxl. rewrite Hmax in Hmaxl.
    exists 1%nat, None, mi, ((x, r) :: up), [].
    rewrite Hrun. split_and!; try done.
    simpl. apply descent_nothing; [done|rewrite Hcs; eauto]. }
  apply Z.ltb_ge in Hmaxl. rewrite Hmax in Hmaxl.
  pose proof (at_place_push mi x r up c cs [] l Hat Hcs) as Hat'.
  destruct (IH _ _ Hat') as (fuel & r' & mi' & st' & skipped & Hd & Hat''
                               & Hout & Hr); [simpl; lia|].
  exists (S fuel), r', mi', st', ((path ((c, cs) :: (x, r) :: up), l) :: skipped).
  rewrite Hrun. split; [exact Hd|]. split; [done|]. split.
  { constructor; [|done]. simpl.
    intros Hl. apply not_true_iff_false in Hin. apply Hin.
    apply in_range_bounds. by rewrite Hmin, Hmax. }
  rewrite (descent_visits self maxl Hpos x r up c cs _ _ Hcs Ht Hmaxl).
  cbn [guess_level set_guess_level set_guess] in Hr. fold l.
  destruct r'.
  - destruct Hr as (? & ? & ->). done.
  - by rewrite Hr.
Qed.

Lemma dig_wider_run mi x r y ry up nd e f :
  guess mi = Some (path ((x, r) :: (y, ry) :: up)) →
  markov_stats self !! y = Some nd → following_letters nd !! x = Some e →
  dig_wider (S f) self mi =
    let mi1 := set_guess_level mi (guess_level mi - f_probability e) in
    let popped := set_guess mi1 (Some (path ((y, ry) :: up))) in
    match f_next e with
    | None => dig_wider f self popped
    | Some c =>
        ec ← expect KeyError (following_letters nd !! c);
        let l := guess_level mi - f_probability e + f_probability ec in
        let mi2 := set_guess (set_guess_level mi1 l)
                             (Some (path ((y, ry) :: up) ++ [c])) in
        if in_range mi l then Return (Done (Some (path ((y, ry) :: up) ++ [c])) mi2)
        else if l <? max_level mi then Return (Break mi2)
        else dig_wider f self popped
    end.
Proof.
  intros Hg Hy He. simpl. rewrite Hg. simpl.
  rewrite (path_cons x r), last_snoc. simpl.
  assert ((length (path ((y, ry) :: up) ++ [x]) =? 1)%nat = false) as ->.
  { apply Nat.eqb_neq. rewrite (path_cons y ry), !length_app. simpl. lia. }
  rewrite removelast_last. rewrite (path_cons y ry), last_snoc. simpl.
  rewrite Hy. simpl. rewrite He. simpl.
  unfold set_last. rewrite removelast_last. reflexivity.
Qed.

Lemma dig_wider_root_run mi x r nd f :
  guess mi = Some (path [(x, r)]) → markov_stats self !! x = Some nd →
  dig_wider (S f) self mi =
    match next nd with
    | None => Return (Done None (set_guess mi None))
    | Some c =>
        nc ← expect KeyError (markov_stats self !! c);
        let mi1 := set_guess_level mi (probability nc) in
        if max_level mi <? probability nc then
          Return (Done None (set_guess mi1 None))
        else
          let mi2 := set_guess mi1 (Some [c]) in
          if in_range mi (probability nc) then Return (Done (Some [c]) mi2)
          else Return (Break mi2)
    end.
Proof.
  intros Hg Hx. simpl. rewrite Hg. simpl. unfold dig_wider_base.
  rewrite Hx. simpl. destruct (next nd) as [c|]; [|done]. simpl.
  destruct (markov_stats self !! c) as [nc|]; [|done]. simpl.
  destruct (max_level mi <? probability nc); [done|].
  rewrite Hg. simpl. unfold in_range. simpl.
  by destruct (_ && _).
Qed.

Lemma sibling_place x y ry up pre c r' :
  place_ok self ((y, ry) :: up) →
  children self y = pre ++ x :: c :: r' →
  place_ok self ((c, r') :: (y, ry) :: up).
Proof.
  intros Hok Hch. apply (place_child self (pre ++ [x])); [|done].
  by rewrite <- app_assoc.
Qed.

Lemma dig_wider_sim st mi :
  at_place mi st →
  ∃ fuel w,
    dig_wider fuel self mi = Return w ∧
    match w with
    | Done (Some g) mi' =>
        ∃ st', at_place mi' st' ∧ g = path st' ∧
               minl ≤ guess_level mi' ≤ maxl ∧
               rest_wide st (guess_level mi)
               = (g, guess_level mi') :: rest_deep st' (guess_level mi')
    | Done None mi' =>
        guess mi' = None ∧ min_level mi' = minl ∧ max_level mi' = maxl ∧
        rest_wide st (guess_level mi) = []
    | Break mi' =>
        ∃ st', at_place mi' st' ∧ ¬ (minl ≤ guess_level mi' ≤ maxl) ∧
               rest_wide st (guess_level mi)
               = (path st', guess_level mi') :: rest_deep st' (guess_level mi')
    end.
Proof.
  revert mi. induction st as [|[x r] up IH]; intros mi Hat;
    [by apply place_nonempty in Hat|].
  pose proof Hat as [Hmin Hmax Hg Hok].
  destruct up as [|[y ry] up].
  - (* the first letter *)
    apply place_root_inv in Hok as [pre Htop].
    pose proof (wf_top self Hwf) as Hchain. rewrite Htop in Hchain.
    apply is_chain_suffix in Hchain as (nd & Hx & Hr).
    pose proof (dig_wider_root_run mi x r nd 0 Hg Hx) as Hrun.
    exists 1%nat. destruct r as [|c r']; simpl in Hr.
    { rewrite Hr in Hrun. eexists. split; [exact Hrun|]. done. }
    destruct Hr as (Hnext & nc & Hc & Hr').
    rewrite Hnext, Hc in Hrun. unfold expect, mbind, res_bind in Hrun.
    cbv beta iota zeta in Hrun. rewrite Hmax in Hrun.
    assert (Hs : start_probability self c = Some (probability nc))
      by (unfold start_probability; by rewrite Hc).
    destruct (maxl <? probability nc) eqn:Hlt.
    { eexists. split; [exact Hrun|]. simpl. rewrite Hs, Hlt. done. }
    apply Z.ltb_ge in Hlt.
    assert (Hat' : at_place (set_guess (set_guess_level mi (probability nc))
                                       (Some [c])) [(c, r')]).
    { split; try done. apply (place_root self (pre ++ [x])).
      by rewrite <- app_assoc. }
    assert (Heq : rest_wide [(x, c :: r')] (guess_level mi)
                  = ([c], probability nc) :: rest_deep [(c, r')] (probability nc)).
    { simpl. rewrite Hs.
      assert ((maxl <? probability nc) = false) as -> by by apply Z.ltb_ge.
      done. }
    destruct (in_range mi (probability nc)) eqn:Hin.
    + eexists. split; [exact Hrun|]. exists [(c, r')].
      apply in_range_bounds in Hin. rewrite Hmin, Hmax in Hin. done.
    + eexists. split; [exact Hrun|]. exists [(c, r')].
      split; [done|]. split; [|done]. simpl. intros Hl.
      apply not_true_iff_false in Hin. apply Hin.
      apply in_range_bounds. by rewrite Hmin, Hmax.
  - (* a letter after another one *)
    apply place_child_inv in Hok as [[pre Hch] Hup].
    destruct (place_entry self Hwf _ _ _ Hup) as [nd Hy].
    pose proof (wf_children self Hwf y nd Hy) as Hchain.
    rewrite Hch in Hchain.
    apply is_chain_suffix in Hchain as (e & He & Hr).
    pose proof (transition_entry _ _ _ _ Hy He) as Ht.
    pose proof (λ f, dig_wider_run mi x r y ry up nd e f Hg Hy He) as Hrun.
    cbv zeta in Hrun.
    set (lup := guess_level mi - f_probability e) in *.
    set (popped := set_guess (set_guess_level mi lup)
                             (Some (path ((y, ry) :: up)))) in *.
    assert (Hpop : at_place popped ((y, ry) :: up)) by (by split).
    assert (Hwide : ∀ cs,
              rest_wide ((x, cs) :: (y, ry) :: up) (guess_level mi)
              = along self maxl (sub self maxl) (path ((y, ry) :: up)) y lup cs
                  ++ rest_wide ((y, ry) :: up) lup).
    { intros cs. simpl. simpl in Ht. by rewrite Ht. }
    destruct (IH popped Hpop) as (fuel & w & Hw & Hpost).
    assert (Hgoes_up : ∀ cs,
              along self maxl (sub self maxl) (path ((y, ry) :: up)) y lup cs = [] →
              dig_wider (S fuel) self mi = dig_wider fuel self popped →
              ∃ fuel' w',
                dig_wider fuel' self mi = Return w' ∧
                match w' with
                | Done (Some g) mi' =>
                    ∃ st', at_place mi' st' ∧ g = path st' ∧
                           minl ≤ guess_level mi' ≤ maxl ∧
                           rest_wide ((x, cs) :: (y, ry) :: up) (guess_level mi)
                           = (g, guess_level mi')
                               :: rest_deep st' (guess_level mi')
                | Done None mi' =>
                    guess mi' = None ∧ min_level mi' = minl ∧
                    max_level mi' = maxl ∧
                    rest_wide ((x, cs) :: (y, ry) :: up) (guess_level mi) = []
                | Break mi' =>
                    ∃ st', at_place mi' st' ∧
                           ¬ (minl ≤ guess_level mi' ≤ maxl) ∧
                           rest_wide ((x, cs) :: (y, ry) :: up) (guess_level mi)
                           = (path st', guess_level mi')
                               :: rest_deep st' (guess_level mi')
                end).
    { intros cs Hnil Hstep. exists (S fuel), w. rewrite Hstep.
      split; [exact Hw|]. rewrite Hwide, Hnil. exact Hpost. }
    destruct r as [|c r']; simpl in Hr.
    { apply Hgoes_up; [done|]. by rewrite Hrun, Hr. }
    destruct Hr as (Hnext & ec & Hc & Hr').
    pose proof (transition_entry _ _ _ _ Hy Hc) as Htc.
    rewrite Hnext, Hc in Hrun. unfold expect, mbind, res_bind in Hrun.
    cbv beta iota zeta in Hrun. rewrite Hmax in Hrun.
    set (l := lup + f_probability ec) in *.
    assert (Hat' : at_place (set_guess (set_guess_level (set_guess_level mi lup) l)
                                       (Some (path ((y, ry) :: up) ++ [c])))
                            ((c, r') :: (y, ry) :: up)).
    { split; try done. by eapply sibling_place. }
    assert (Heq : l ≤ maxl →
              rest_wide ((x, c :: r') :: (y, ry) :: up) (guess_level mi)
              = (path ((c, r') :: (y, ry) :: up), l)
                  :: rest_deep ((c, r') :: (y, ry) :: up) l).
    { intros Hle. rewrite Hwide. by apply sibling_visits. }
    destruct (in_range mi l) eqn:Hin.
    { apply in_range_bounds in Hin. rewrite Hmin, Hmax in Hin.
      exists 1%nat. eexists. split; [apply Hrun|].
      exists ((c, r') :: (y, ry) :: up).
      split; [done|]. split; [done|]. split; [simpl; lia|]. apply Heq. lia. }
    assert (Hout : ¬ (minl ≤ l ≤ maxl)).
    { intros Hl. apply not_true_iff_false in Hin. apply Hin.
      apply in_range_bounds. by rewrite Hmin, Hmax. }
    destruct (l <? maxl) eqn:Hlt.
    { apply Z.ltb_lt in Hlt.
      exists 1%nat. eexists. split; [apply Hrun|].
      exists ((c, r') :: (y, ry) :: up).
      split; [done|]. split; [done|]. apply Heq. lia. }
    apply Z.ltb_ge in Hlt. apply Hgoes_up; [|by rewrite Hrun].
    simpl. simpl in Htc. rewrite Htc. fold l.
    assert ((maxl <? l) = true) as -> by (apply Z.ltb_lt; lia). done.
Qed.

Lemma guesses_app vs1 vs2 :
  guesses minl maxl (vs1 ++ vs2) = guesses minl maxl vs1 ++ guesses minl maxl vs2.
Proof. unfold guesses. by rewrite filter_app, fmap_app. Qed.

Lemma guesses_outside vs : outside vs → guesses minl maxl vs = [].
Proof.
  unfold guesses. induction 1 as [|v vs Hv _ IH]; [done|].
  by rewrite filter_cons_False.
Qed.

Lemma guesses_inside g l vs :
  minl ≤ l ≤ maxl →
  guesses minl maxl ((g, l) :: vs) = g :: guesses minl maxl vs.
Proof. intros Hl. unfold guesses. by rewrite filter_cons_True. Qed.

Lemma guesses_skip g l vs :
  ¬ (minl ≤ l ≤ maxl) →
  guesses minl maxl ((g, l) :: vs) = guesses minl maxl vs.
Proof. intros Hl. unfold guesses. by rewrite filter_cons_False. Qed.

Lemma guess_loop_run f mi :
  guess_loop (S f) self mi =
    r ← dig_deeper f self mi;
    match r with
    | (Some ret_value, mi1) => Return (Some ret_value, mi1)
    | (None, mi1) =>
        w ← dig_wider f self mi1;
        match w with
        | Done ret_value mi2 => Return (ret_value, mi2)
        | Break mi2 => guess_loop f self mi2
        end
    end.
Proof. reflexivity. Qed.

Lemma guess_loop_found f mi g mi1 :
  dig_deeper f self mi = Return (Some g, mi1) →
  guess_loop (S f) self mi = Return (Some g, mi1).
Proof. intros Hd. by rewrite guess_loop_run, Hd. Qed.

Lemma guess_loop_wide f mi mi1 w :
  dig_deeper f self mi = Return (None, mi1) →
  dig_wider f self mi1 = Return w →
  guess_loop (S f) self mi =
    match w with
    | Done ret_value mi2 => Return (ret_value, mi2)
    | Break mi2 => guess_loop f self mi2
    end.
Proof.
  intros Hd Hw. rewrite guess_loop_run, Hd.
  unfold mbind at 1, res_bind at 1. cbv beta iota. by rewrite Hw.
Qed.

Lemma guess_loop_sim n st mi :
  at_place mi st → (length (rest_deep st (guess_level mi)) < n)%nat →
  ∃ fuel r mi',
    guess_loop fuel self mi = Return (r, mi') ∧
    match r with
    | Some g =>
        ∃ st', at_place mi' st' ∧
               guesses minl maxl (rest_deep st (guess_level mi))
               = g :: guesses minl maxl (rest_deep st' (guess_level mi'))
    | None =>
        guess mi' = None ∧ min_level mi' = minl ∧ max_level mi' = maxl ∧
        guesses minl maxl (rest_deep st (guess_level mi)) = []
    end.
Proof.
  revert st mi. induction n as [|n IH]; intros st mi Hat Hn; [lia|].
  destruct (dig_deeper_sim (S (Z.to_nat (maxl - guess_level mi))) st mi Hat)
    as (f1 & r1 & mi1 & st1 & skipped & Hd & Hat1 & Hout & Hr1); [lia|].
  destruct r1 as [g|].
  { destruct Hr1 as (-> & Hl & Heq).
    exists (S f1), (Some (path st1)), mi1.
    split; [by apply guess_loop_found|]. exists st1. split; [done|].
    by rewrite Heq, guesses_app, guesses_outside, guesses_inside. }
  destruct (dig_wider_sim st1 mi1 Hat1) as (f2 & w & Hw & Hpost).
  assert (Hd' : ∀ f, (f1 ≤ f)%nat → dig_deeper f self mi = Return (None, mi1))
    by (intros f Hf; by apply (dig_deeper_fuel self f1)).
  assert (Hw' : ∀ f, (f2 ≤ f)%nat → dig_wider f self mi1 = Return w)
    by (intros f Hf; by apply (dig_wider_fuel self f2)).
  rewrite Hr1, guesses_app, guesses_outside by done. simpl.
  destruct w as [mi2|[g|] mi2].
  - destruct Hpost as (st2 & Hat2 & Hl2 & Heq).
    destruct (IH st2 mi2 Hat2) as (f3 & r & mi' & Hloop & Hr).
    { rewrite Hr1, length_app, Heq in Hn. simpl in Hn. lia. }
    exists (S (Nat.max (Nat.max f1 f2) f3)), r, mi'.
    rewrite (guess_loop_wide _ mi mi1 (Break mi2)) by (apply Hd' || apply Hw'; lia).
    split.
    { apply (guess_loop_fuel self f3); [lia|done]. }
    rewrite Heq, guesses_skip by done. exact Hr.
  - destruct Hpost as (st2 & Hat2 & -> & Hl2 & Heq).
    exists (S (Nat.max f1 f2)), (Some (path st2)), mi2.
    rewrite (guess_loop_wide _ mi mi1 (Done (Some (path st2)) mi2))
      by (apply Hd' || apply Hw'; lia).
    split; [done|].
    exists st2. split; [done|]. by rewrite Heq, guesses_inside.
  - destruct Hpost as (Hnone & Hmin2 & Hmax2 & Heq).
    exists (S (Nat.max f1 f2)), None, mi2.
    rewrite (guess_loop_wide _ mi mi1 (Done None mi2))
      by (apply Hd' || apply Hw'; lia).
    split; [done|].
    by rewrite Heq.
Qed.

Lemma next_guess_started fuel mi st :
  at_place mi st → next_guess fuel self mi = guess_loop fuel self mi.
Proof. intros [_ _ Hg _]. unfold next_guess. by rewrite Hg. Qed.

Lemma session_run fuel n mi :
  session fuel self (S n) mi =
    r ← next_guess fuel self mi;
    rs ← session fuel self n r.2;
    Return (r.1 :: rs.1, rs.2).
Proof. reflexivity. Qed.

Lemma session_sim gs st mi :
  at_place mi st →
  guesses minl maxl (rest_deep st (guess_level mi)) = gs →
  ∃ fuel mi',
    session fuel self (S (length gs)) mi
    = Return ((Some <$> gs) ++ [None], mi') ∧ guess mi' = None.
Proof.
  revert st mi. induction gs as [|g gs IH]; intros st mi Hat Hgs.
  - destruct (guess_loop_sim _ st mi Hat (Nat.lt_succ_diag_r _))
      as (fuel & r & mi' & Hloop & Hr).
    destruct r as [g|].
    { destruct Hr as (st' & _ & Heq). by rewrite Hgs in Heq. }
    exists fuel, mi'. rewrite session_run, (next_guess_started _ _ st), Hloop by done.
    simpl. split; [done|]. apply Hr.
  - destruct (guess_loop_sim _ st mi Hat (Nat.lt_succ_diag_r _))
      as (f1 & r & mi1 & Hloop & Hr).
    destruct r as [g'|]; [|destruct Hr as (_ & _ & _ & Heq); by rewrite Hgs in Heq].
    destruct Hr as (st1 & Hat1 & Heq). rewrite Hgs in Heq.
    injection Heq as <- Hgs1.
    destruct (IH st1 mi1 Hat1 (eq_sym Hgs1)) as (f2 & mi' & Hs & Hnone).
    exists (Nat.max f1 f2), mi'.
    rewrite session_run, (next_guess_started _ _ st) by done.
    rewrite (guess_loop_fuel self f1 (Nat.max f1 f2) _ _ (Nat.le_max_l _ _) Hloop).
    unfold mbind at 1, res_bind at 1. cbn [fst snd length].
    rewrite (session_fuel self f2 (Nat.max f1 f2) _ _ _ (Nat.le_max_r _ _) Hs).
    done.
Qed.

Lemma first_place c rs :
  top_letters self = c :: rs → place_ok self [(c, rs)].
Proof. intros Htop. by apply (place_root self []). Qed.

Lemma full_session :
  ∃ fuel mi',
    session fuel self (S (length (enumeration self minl maxl)))
            (MarkovIndex_init minl maxl)
    = Return ((Some <$> enumeration self minl maxl) ++ [None], mi') ∧
    guess mi' = None.
Proof.
  destruct (wf_top_first self Hwf) as (c & rs & nd & Htop & Hstart & Hc).
  assert (Hs : start_probability self c = Some (probability nd))
    by (unfold start_probability; by rewrite Hc).
  set (mi1 := set_guess_level (set_guess (MarkovIndex_init minl maxl) (Some [c]))
                              (probability nd)).
  assert (Hat : at_place mi1 [(c, rs)]).
  { split; try done. by apply first_place. }
  assert (Hfirst : ∀ fuel, next_guess fuel self (MarkovIndex_init minl maxl) =
            if in_range mi1 (probability nd) then Return (Some [c], mi1)
            else guess_loop fuel self mi1).
  { intros fuel. unfold next_guess. simpl. rewrite Hstart. simpl.
    rewrite Hc. reflexivity. }
  assert (Hvisits : visits self maxl
                    = ([c], probability nd)
                        :: rest_deep [(c, rs)] (probability nd)).
  { unfold visits. rewrite Htop, Hs. reflexivity. }
  unfold enumeration. rewrite Hvisits.
  destruct (session_sim _ [(c, rs)] mi1 Hat eq_refl) as (fuel & mi' & Hs' & Hnone).
  change (guess_level mi1) with (probability nd) in Hs'.
  set (gs := guesses minl maxl (rest_deep [(c, rs)] (probability nd))) in *.
  exists fuel, mi'. split; [|done].
  rewrite session_run, Hfirst.
  destruct (in_range mi1 (probability nd)) eqn:Hin.
  - apply in_range_bounds in Hin as Hl. simpl in Hl.
    rewrite guesses_inside by done. fold gs.
    unfold mbind at 1, res_bind at 1. cbn [fst snd length].
    by rewrite Hs'.
  - assert (Hout : ¬ (minl ≤ probability nd ≤ maxl)).
    { intros Hl. apply not_true_iff_false in Hin. apply Hin.
      by apply in_range_bounds. }
    rewrite guesses_skip by done. fold gs.
    rewrite session_run, (next_guess_started _ _ [(c, rs)]) in Hs' by done.
    exact Hs'.
Qed.

End Simulation.

(** ** What the recursion visits *)

Section Visits.
Context (self : MarkovCracker) (minl maxl : Z).
Context (Hwf : well_formed self) (Hpos : positive self).

Lemma along_elem rec p x lvl cs v :
  v ∈ along self maxl rec p x lvl cs →
  ∃ c t, c ∈ cs ∧ transition self x c = Some t ∧ lvl + t ≤ maxl ∧
         (v = (p ++ [c], lvl + t) ∨ v ∈ rec (p ++ [c]) c (lvl + t)).
Proof.
  induction cs as [|c cs IH]; simpl; [by intros ?%elem_of_nil|].
  destruct (transition self x c) as [t|] eqn:Ht; [|by intros ?%elem_of_nil].
  destruct (maxl <? lvl + t) eqn:Hlt; [by intros ?%elem_of_nil|].
  apply Z.ltb_ge in Hlt.
  rewrite elem_of_cons, elem_of_app. intros [->|[Hv|Hv]].
  - exists c, t. split; [apply list_elem_of_here|]. eauto.
  - exists c, t. split; [apply list_elem_of_here|]. eauto.
  - destruct (IH Hv) as (c' & t' & Hc' & ?). exists c', t'.
    split; [by apply list_elem_of_further|done].
Qed.

Lemma along_roots_elem rs v :
  v ∈ along_roots self maxl rs →
  ∃ c s, c ∈ rs ∧ start_probability self c = Some s ∧ s ≤ maxl ∧
         (v = ([c], s) ∨ v ∈ sub self maxl [c] c s).
Proof.
  induction rs as [|c rs IH]; simpl; [by intros ?%elem_of_nil|].
  destruct (start_probability self c) as [s|] eqn:Hs; [|by intros ?%elem_of_nil].
  destruct (maxl <? s) eqn:Hlt; [by intros ?%elem_of_nil|].
  apply Z.ltb_ge in Hlt.
  rewrite elem_of_cons, elem_of_app. intros [->|[Hv|Hv]].
  - exists c, s. split; [apply list_elem_of_here|]. eauto.
  - exists c, s. split; [apply list_elem_of_here|]. eauto.
  - destruct (IH Hv) as (c' & s' & Hc' & ?). exists c', s'.
    split; [by apply list_elem_of_further|done].
Qed.

Lemma reachable_from_snoc a rest x c :
  reachable_from self a rest → last (a :: rest) = Some x →
  c ∈ children self x → reachable_from self a (rest ++ [c]).
Proof.
  revert a. induction rest as [|b rest IH]; intros a Hr Hl Hc; simpl in *.
  - by simplify_eq.
  - destruct Hr as [Hb Hr]. split; [done|]. apply IH; [done| |done].
    by destruct rest.
Qed.

Lemma reachable_snoc q x c :
  reachable self (q ++ [x]) → c ∈ children self x →
  reachable self ((q ++ [x]) ++ [c]).
Proof.
  intros Hr Hc. destruct q as [|a q]; simpl in *.
  - destruct Hr as [Ha _]. done.
  - destruct Hr as [Ha Hr]. split; [done|].
    apply (reachable_from_snoc a (q ++ [x]) x c); [done| |done].
    change (a :: q ++ [x]) with ((a :: q) ++ [x]). apply last_snoc.
Qed.

Lemma below_extends d q x lvl v :
  reachable self (q ++ [x]) → level_of self (q ++ [x]) = Some lvl →
  v ∈ below self maxl d (q ++ [x]) x lvl → extends self q x v.
Proof.
  revert q x lvl v. induction d as [|d IH]; intros q x lvl v Hr Hl;
    simpl; [by intros ?%elem_of_nil|].
  intros (c & t & Hc & Ht & Hle & Hv)%along_elem.
  pose proof (reachable_snoc q x c Hr Hc) as Hr'.
  pose proof (level_of_snoc_Some self q x c _ _ Hl Ht) as Hl'.
  destruct Hv as [->|Hv].
  - split; [done|]. split; [done|]. by exists [c].
  - destruct (IH (q ++ [x]) c _ v Hr' Hl' Hv) as (? & ? & k & Hk & Hvk).
    split; [done|]. split; [done|]. exists (c :: k). split; [done|].
    rewrite Hvk. by rewrite <- !app_assoc.
Qed.

Lemma sub_extends q x lvl v :
  reachable self (q ++ [x]) → level_of self (q ++ [x]) = Some lvl →
  v ∈ sub self maxl (q ++ [x]) x lvl → extends self q x v.
Proof. apply below_extends. Qed.

Lemma top_reachable c : c ∈ top_letters self → reachable self [c].
Proof. done. Qed.

Lemma top_level c s :
  start_probability self c = Some s → level_of self [c] = Some s.
Proof. intros Hs. simpl. rewrite Hs. simpl. f_equal. lia. Qed.

(** Every visit is a string of the trie, with its level. *)
Lemma visits_sound v :
  v ∈ visits self maxl → reachable self v.1 ∧ level_of self v.1 = Some v.2.
Proof.
  unfold visits. destruct (top_letters self) as [|c rs] eqn:Htop;
    [by intros ?%elem_of_nil|].
  destruct (start_probability self c) as [s|] eqn:Hs; [|by intros ?%elem_of_nil].
  assert (Hin : ∀ c', c' ∈ c :: rs → reachable self [c']).
  { intros c' Hc'. apply top_reachable. by rewrite Htop. }
  rewrite elem_of_cons, elem_of_app. intros [->|[Hv|Hv]].
  - split; [apply Hin, list_elem_of_here|by apply top_level].
  - apply (sub_extends [] c s) in Hv as (? & ? & _); [done| |by apply top_level].
    apply Hin, list_elem_of_here.
  - apply along_roots_elem in Hv as (c' & s' & Hc' & Hs' & _ & Hv).
    destruct Hv as [->|Hv].
    + split; [by apply Hin, list_elem_of_further|by apply top_level].
    + apply (sub_extends [] c' s') in Hv as (? & ? & _);
        [done| |by apply top_level].
      by apply Hin, list_elem_of_further.
Qed.

(** *** No string is visited twice *)

Lemma below_prefix d p x lvl v :
  v ∈ below self maxl d p x lvl → ∃ k, k ≠ [] ∧ v.1 = p ++ k.
Proof.
  revert p x lvl v. induction d as [|d IH]; intros p x lvl v;
    simpl; [by intros ?%elem_of_nil|].
  intros (c & t & _ & _ & _ & [->|Hv])%along_elem.
  - by exists [c].
  - apply IH in Hv as (k & _ & ->). exists (c :: k). split; [done|].
    by rewrite <- app_assoc.
Qed.

Lemma under_letter p c k cs :
  under p cs ((p ++ [c]) ++ k) → c ∈ cs.
Proof.
  intros (c' & k' & Hc' & Heq). rewrite <- !app_assoc in Heq.
  apply app_inv_head in Heq. by simplify_eq.
Qed.

Lemma along_under d p x lvl cs v :
  v ∈ along self maxl (below self maxl d) p x lvl cs → under p cs v.1.
Proof.
  intros (c & t & Hc & _ & _ & [->|Hv])%along_elem.
  - exists c, []. by rewrite app_nil_r.
  - apply below_prefix in Hv as (k & _ & ->). by exists c, k.
Qed.

Lemma along_roots_under rs v :
  v ∈ along_roots self maxl rs → under [] rs v.1.
Proof.
  intros (c & s & Hc & _ & _ & [->|Hv])%along_roots_elem.
  - by exists c, [].
  - apply below_prefix in Hv as (k & _ & ->). by exists c, k.
Qed.

Lemma not_below_self d p x lvl : p ∉ (below self maxl d p x lvl).*1.
Proof.
  intros (v & Hv1 & Hv)%list_elem_of_fmap.
  apply below_prefix in Hv as (k & Hk & Heq). rewrite <- Hv1 in Heq.
  rewrite <- (app_nil_r p) in Heq at 1. by apply app_inv_head in Heq.
Qed.

Lemma below_NoDup d p x lvl :
  NoDup (below self maxl d p x lvl).*1.
Proof.
  revert p x lvl. induction d as [|d IH]; intros p x lvl; simpl;
    [constructor|].
  assert (Hcs : NoDup (children self x)).
  { unfold children. destruct (markov_stats self !! x) as [nd|] eqn:Hx;
      [|constructor].
    pose proof (wf_children self Hwf x nd Hx) as Hc.
    unfold children in Hc. rewrite Hx in Hc. by eapply is_chain_NoDup. }
  induction Hcs as [|c cs Hc Hcs IHcs]; simpl; [constructor|].
  destruct (transition self x c) as [t|]; [|constructor].
  destruct (maxl <? lvl + t); [constructor|].
  rewrite fmap_cons, fmap_app. simpl.
  apply NoDup_cons. split.
  - rewrite elem_of_app. intros [Hin|Hin].
    + by apply not_below_self in Hin.
    + apply list_elem_of_fmap in Hin as (v & Hv1 & Hv).
      apply along_under in Hv. rewrite <- Hv1 in Hv.
      rewrite <- (app_nil_r (p ++ [c])) in Hv.
      by apply under_letter in Hv.
  - apply NoDup_app. split; [apply IH|]. split; [|done].
    intros g (v & -> & Hv)%list_elem_of_fmap (v' & Hv1 & Hv')%list_elem_of_fmap.
    apply below_prefix in Hv as (k & _ & Hk).
    apply along_under in Hv'. rewrite <- Hv1, Hk in Hv'.
    by apply under_letter in Hv'.
Qed.

Lemma along_roots_NoDup rs :
  NoDup rs → NoDup (along_roots self maxl rs).*1.
Proof.
  induction 1 as [|c rs Hc Hrs IH]; simpl; [constructor|].
  destruct (start_probability self c) as [s|]; [|constructor].
  destruct (maxl <? s); [constructor|].
  rewrite fmap_cons, fmap_app. simpl.
  apply NoDup_cons. split.
  - rewrite elem_of_app. intros [Hin|Hin].
    + by apply not_below_self in Hin.
    + apply list_elem_of_fmap in Hin as (v & Hv1 & Hv).
      apply along_roots_under in Hv. rewrite <- Hv1 in Hv.
      by apply (under_letter [] c []) in Hv.
  - apply NoDup_app. split; [apply below_NoDup|]. split; [|done].
    intros g (v & -> & Hv)%list_elem_of_fmap (v' & Hv1 & Hv')%list_elem_of_fmap.
    apply below_prefix in Hv as (k & _ & Hk).
    apply along_roots_under in Hv'. rewrite <- Hv1, Hk in Hv'.
    by apply (under_letter [] c k) in Hv'.
Qed.

Lemma visits_NoDup : NoDup (visits self maxl).*1.
Proof.
  unfold visits. pose proof (wf_top self Hwf) as Htop.
  apply is_chain_NoDup in Htop.
  destruct (top_letters self) as [|c rs]; [constructor|].
  apply NoDup_cons in Htop as [Hc Hrs].
  destruct (start_probability self c) as [s|]; [|constructor].
  rewrite fmap_cons, fmap_app. simpl.
  apply NoDup_cons. split.
  - rewrite elem_of_app. intros [Hin|Hin].
    + by apply not_below_self in Hin.
    + apply list_elem_of_fmap in Hin as (v & Hv1 & Hv).
      apply along_roots_under in Hv. rewrite <- Hv1 in Hv.
      by apply (under_letter [] c []) in Hv.
  - apply NoDup_app. split; [apply below_NoDup|].
    split; [|by apply along_roots_NoDup].
    intros g (v & -> & Hv)%list_elem_of_fmap (v' & Hv1 & Hv')%list_elem_of_fmap.
    apply below_prefix in Hv as (k & _ & Hk).
    apply along_roots_under in Hv'. rewrite <- Hv1, Hk in Hv'.
    by apply (under_letter [] c k) in Hv'.
Qed.

Lemma enumeration_NoDup : NoDup (enumeration self minl maxl).
Proof.
  unfold enumeration, guesses.
  eapply sublist_NoDup; [apply visits_NoDup|].
  apply fmap_sublist, sublist_filter.
Qed.

(** *** With ordered chains, no string of the trie is left out *)

Lemma level_of_prefix p rest l :
  p ≠ [] → level_of self (p ++ rest) = Some l →
  ∃ lp, level_of self p = Some lp ∧ lp ≤ l.
Proof.
  intros Hp. revert l. induction rest as [|y rest IH] using rev_ind; intros l.
  - rewrite app_nil_r. intros Hl. exists l. split; [done|lia].
  - rewrite app_assoc.
    assert (∃ q x, p ++ rest = q ++ [x]) as (q & x & Heq).
    { destruct (last (p ++ rest)) as [x|] eqn:Hlast.
      - apply last_Some in Hlast as [q ->]. eauto.
      - apply last_None in Hlast. apply app_eq_nil in Hlast as [? _]. done. }
    rewrite Heq. intros (l0 & t & Hl0 & Ht & ->)%level_of_snoc_inv.
    rewrite <- Heq in Hl0.
    destruct (IH l0) as (lp & Hlp & Hle); [done|].
    apply (positive_transition self Hpos) in Ht.
    exists lp. split; [done|lia].
Qed.

Lemma along_reach rec p x lvl cs c t :
  StronglySorted (λ a b, le_opt (transition self x a) (transition self x b)) cs →
  (∀ c', c' ∈ cs → is_Some (transition self x c')) →
  c ∈ cs → transition self x c = Some t → lvl + t ≤ maxl →
  (p ++ [c], lvl + t) ∈ along self maxl rec p x lvl cs ∧
  ∀ v, v ∈ rec (p ++ [c]) c (lvl + t) → v ∈ along self maxl rec p x lvl cs.
Proof.
  intros Hsorted Hsome Hc Ht Hle.
  induction cs as [|c0 cs IH]; [by apply elem_of_nil in Hc|].
  apply StronglySorted_cons in Hsorted as [Hall Hsorted].
  simpl. apply elem_of_cons in Hc as [<-|Hc].
  - rewrite Ht.
    assert ((maxl <? lvl + t) = false) as -> by (apply Z.ltb_ge; lia).
    split; [apply list_elem_of_here|].
    intros v Hv. apply list_elem_of_further, elem_of_app. by left.
  - destruct (Hsome c0) as [t0 Ht0]; [apply list_elem_of_here|].
    rewrite Forall_forall in Hall. specialize (Hall c Hc).
    rewrite Ht0, Ht in Hall. simpl in Hall. rewrite Ht0.
    assert ((maxl <? lvl + t0) = false) as -> by (apply Z.ltb_ge; lia).
    destruct IH as [IH1 IH2]; [done| |done|].
    { intros c' Hc'. apply Hsome. by apply list_elem_of_further. }
    split.
    + apply list_elem_of_further, elem_of_app. by right.
    + intros v Hv. apply list_elem_of_further, elem_of_app. right. by apply IH2.
Qed.

Lemma along_roots_reach rs c s :
  StronglySorted (λ a b, le_opt (start_probability self a)
                                (start_probability self b)) rs →
  (∀ c', c' ∈ rs → is_Some (start_probability self c')) →
  c ∈ rs → start_probability self c = Some s → s ≤ maxl →
  ([c], s) ∈ along_roots self maxl rs ∧
  ∀ v, v ∈ sub self maxl [c] c s → v ∈ along_roots self maxl rs.
Proof.
  intros Hsorted Hsome Hc Hs Hle.
  induction rs as [|c0 rs IH]; [by apply elem_of_nil in Hc|].
  apply StronglySorted_cons in Hsorted as [Hall Hsorted].
  simpl. apply elem_of_cons in Hc as [<-|Hc].
  - rewrite Hs.
    assert ((maxl <? s) = false) as -> by (apply Z.ltb_ge; lia).
    split; [apply list_elem_of_here|].
    intros v Hv. apply list_elem_of_further, elem_of_app. by left.
  - destruct (Hsome c0) as [s0 Hs0]; [apply list_elem_of_here|].
    rewrite Forall_forall in Hall. specialize (Hall c Hc).
    rewrite Hs0, Hs in Hall. simpl in Hall. rewrite Hs0.
    assert ((maxl <? s0) = false) as -> by (apply Z.ltb_ge; lia).
    destruct IH as [IH1 IH2]; [done| |done|].
    { intros c' Hc'. apply Hsome. by apply list_elem_of_further. }
    split.
    + apply list_elem_of_further, elem_of_app. by right.
    + intros v Hv. apply list_elem_of_further, elem_of_app. right. by apply IH2.
Qed.

Context (Hord : ordered self).

Lemma children_sorted x :
  StronglySorted (λ a b, le_opt (transition self x a) (transition self x b))
                 (children self x).
Proof.
  destruct (markov_stats self !! x) as [nd|] eqn:Hx.
  - destruct Hord as [_ Hall]. exact (Hall x nd Hx).
  - unfold children. rewrite Hx. constructor.
Qed.

Lemma sub_complete rest q x lvl l :
  level_of self (q ++ [x]) = Some lvl →
  reachable_from self x rest → rest ≠ [] →
  level_of self ((q ++ [x]) ++ rest) = Some l → l ≤ maxl →
  ((q ++ [x]) ++ rest, l) ∈ sub self maxl (q ++ [x]) x lvl.
Proof.
  revert q x lvl. induction rest as [|c rest IH]; intros q x lvl Hlvl Hr Hne Hl Hle;
    [done|].
  destruct Hr as [Hc Hr].
  replace ((q ++ [x]) ++ c :: rest) with (((q ++ [x]) ++ [c]) ++ rest) in *
    by (by rewrite <- !app_assoc).
  destruct (level_of_prefix ((q ++ [x]) ++ [c]) rest l) as (lc & Hlc & Hlcl);
    [by destruct q|done|].
  pose proof Hlc as (lvl' & t & Hlvl' & Ht & ->)%level_of_snoc_inv.
  assert (lvl' = lvl) as -> by congruence.
  rewrite (sub_unfold self maxl Hpos).
  destruct (along_reach (sub self maxl) (q ++ [x]) x lvl (children self x) c t)
    as [Hnode Hbelow]; [apply children_sorted| |done|done|lia|].
  { intros c' Hc'. by apply wf_transition. }
  destruct rest as [|c' rest'].
  - rewrite app_nil_r in *. by simplify_eq.
  - apply Hbelow. by apply IH.
Qed.

(** Every string of the trie with a level up to [maxl] is visited. *)
Lemma visits_complete g l :
  reachable self g → level_of self g = Some l → l ≤ maxl →
  (g, l) ∈ visits self maxl.
Proof.
  destruct g as [|r rest]; [done|]. intros [Hr Hrest] Hl Hle.
  destruct (level_of_prefix [r] rest l) as (s & Hs & Hsl); [done|done|].
  assert (Hsp : start_probability self r = Some s).
  { simpl in Hs. destruct (start_probability self r) as [s'|]; simpl in Hs;
      [|done]. injection Hs as <-. f_equal. lia. }
  assert (Hsub : rest ≠ [] → ([r] ++ rest, l) ∈ sub self maxl [r] r s).
  { intros Hne. by apply (sub_complete rest [] r s l). }
  pose proof (wf_top self Hwf) as Hchain.
  unfold visits. destruct Hord as [Hsorted _].
  destruct (top_letters self) as [|c rs] eqn:Htop; [by apply elem_of_nil in Hr|].
  assert (Hsome : ∀ c', c' ∈ c :: rs → is_Some (start_probability self c')).
  { intros c' Hc'. unfold start_probability.
    destruct (is_chain_lookup _ _ _ _ _ Hchain Hc') as [nd ->]. by eexists. }
  apply StronglySorted_cons in Hsorted as [Hall Hsorted].
  destruct (Hsome c) as [s0 Hs0]; [apply list_elem_of_here|]. rewrite Hs0.
  apply elem_of_cons in Hr as [->|Hr].
  - assert (s0 = s) as -> by congruence.
    destruct rest as [|c' rest'].
    + simpl in Hl. rewrite Hsp in Hl. simpl in Hl. simplify_eq.
      replace (s + 0) with s by lia. apply list_elem_of_here.
    + apply list_elem_of_further, elem_of_app. left. by apply Hsub.
  - destruct (along_roots_reach rs r s) as [Hnode Hbelow];
      [done| |done|done|lia|].
    { intros c' Hc'. apply Hsome. by apply list_elem_of_further. }
    apply list_elem_of_further, elem_of_app. right.
    destruct rest as [|c' rest'].
    + simpl in Hl. rewrite Hsp in Hl. simpl in Hl. simplify_eq.
      by replace (s + 0) with s by lia.
    + apply Hbelow. by apply Hsub.
Qed.

(** The enumeration is the set of the strings of the trie with a level in
    the band. *)
Lemma enumeration_spec g :
  g ∈ enumeration self minl maxl ↔
  reachable self g ∧ ∃ l, level_of self g = Some l ∧ minl ≤ l ≤ maxl.
Proof.
  unfold enumeration, guesses. rewrite list_elem_of_fmap. split.
  - intros ([g' l] & -> & [Hl Hv]%list_elem_of_filter). simpl in *.
    apply visits_sound in Hv as [? ?]. eauto.
  - intros (Hr & l & Hl & Hband). exists (g, l). split; [done|].
    apply list_elem_of_filter. split; [done|].
    apply visits_complete; [done|done|lia].
Qed.

End Visits.

(** ** Enumeration to exhaustion *)

Example ordered_loaded :
  MarkovCracker_init (Some (Some ordered_lines)) = Return ordered_model.
Proof. vm_compute. reflexivity. Qed.

Example hidden_loaded :
  MarkovCracker_init (Some (Some hidden_lines)) = Return hidden_model.
Proof. vm_compute. reflexivity. Qed.

(** C2, as the code has it. Completeness of the enumeration for models in
    the order of the probabilities: when the chains of the model end and
    every following letter has an entry of its own, when all transition
    probabilities are positive, when every sibling chain (the top-level
    one and the one of each character) is in non-decreasing order of
    probability, and when [minl ≤ maxl], a fresh session reaches
    exhaustion after finitely many calls of [next_guess]: the calls before
    return guesses [gs], the call after them returns [None], and [gs] is
    without repetition and holds exactly the strings of the trie of the
    model whose cumulative level lies in [minl .. maxl]. *)
Theorem ordered_enumeration_complete self minl maxl :
  well_formed self → positive self → ordered self → minl ≤ maxl →
  ∃ fuel gs mi',
    session fuel self (S (length gs)) (MarkovIndex_init minl maxl)
    = Return ((Some <$> gs) ++ [None], mi') ∧
    guess mi' = None ∧
    NoDup gs ∧
    ∀ g, g ∈ gs ↔
         reachable self g ∧ ∃ l, level_of self g = Some l ∧ minl ≤ l ≤ maxl.
Proof.
  intros Hwf Hpos Hord Hband.
  destruct (full_session self minl maxl Hwf Hpos Hband)
    as (fuel & mi' & Hs & Hnone).
  exists fuel, (enumeration self minl maxl), mi'.
  split; [done|]. split; [done|].
  split; [by apply enumeration_NoDup|].
  intros g. by apply enumeration_spec.
Qed.

Lemma ordered_enumeration_complete_witness :
  ∃ fuel gs mi',
    session fuel ordered_model (S (length gs)) (MarkovIndex_init 0 3)
    = Return ((Some <$> gs) ++ [None], mi') ∧
    guess mi' = None ∧
    NoDup gs ∧
    ∀ g, g ∈ gs ↔
         reachable ordered_model g ∧
         ∃ l, level_of ordered_model g = Some l ∧ 0 ≤ l ≤ 3.
Proof.
  apply (ordered_enumeration_complete ordered_model 0 3).
  - compute_done.
  - compute_done.
  - compute_done.
  - lia.
Defined.

(** What the session of the witness returns. *)
Example ordered_session :
  enumeration ordered_model 0 3
  = [codes "a"; codes "aa"; codes "aaa"; codes "aaaa"; codes "aab";
     codes "ab"; codes "b"] ∧
  session 6 ordered_model 8 (MarkovIndex_init 0 3)
  = Return ((Some <$> enumeration ordered_model 0 3) ++ [None],
            {| min_level := 0; max_level := 3;
               guess := None; guess_level := 2 |}).
Proof. split; vm_compute; reflexivity. Qed.

(** C2 fails as stated: in the model with unigrams [a=0], [b=4] and
    bigrams [a→a=5], [a→b=1], which is well formed and has positive
    transitions, the run with the bounds [0 .. 3] returns [a] and then
    signals exhaustion; the string [ab] of the trie, of level 1, is
    omitted: the first child [aa], above the limit, hides it. *)
Lemma in_range_string_omitted :
  well_formed hidden_model ∧ positive hidden_model ∧
  reachable hidden_model (codes "ab") ∧
  level_of hidden_model (codes "ab") = Some 1 ∧
  session 4 hidden_model 2 (MarkovIndex_init 0 3)
  = Return ([Some (codes "a"); None],
            {| min_level := 0; max_level := 3;
               guess := None; guess_level := 4 |}) ∧
  Some (codes "ab") ∉ [Some (codes "a"); None].
Proof.
  split; [compute_done|]. split; [compute_done|].
  split; [compute_done|]. split; [vm_compute; reflexivity|].
  split; [vm_compute; reflexivity|compute_done].
Qed.

(** * Further properties *)

Example dangling_loaded :
  MarkovCracker_init (Some (Some dangling_lines)) = Return dangling_model.
Proof. vm_compute. reflexivity. Qed.

Example twice_loaded :
  MarkovCracker_init (Some (Some twice_lines)) = Return twice_model.
Proof. vm_compute. reflexivity. Qed.

(** ** Missing entries and endless descents *)

(** X1. A character without an entry: when the last character of the
    guess of the index has no entry in [markov_stats] (a character that a
    bigram line puts after another one and that no unigram line declares),
    the call of [next_guess] raises a [KeyError], at the lookup of
    [dig_deeper]. *)
Theorem missing_entry_raises self fuel mi p x :
  guess mi = Some p → last p = Some x → markov_stats self !! x = None →
  dig_deeper (S fuel) self mi = Raise KeyError ∧
  next_guess (S (S fuel)) self mi = Raise KeyError.
Proof.
  intros Hg Hlast Hx.
  assert (Hd : ∀ f, dig_deeper (S f) self mi = Raise KeyError).
  { intros f. simpl. rewrite Hg. simpl. rewrite Hlast. simpl. by rewrite Hx. }
  split; [apply Hd|].
  unfold next_guess. rewrite Hg, guess_loop_run, Hd. reflexivity.
Qed.

(** After [a] and [ab], the third call of the session fails. *)
Lemma missing_entry_raises_witness :
  session 4 dangling_model 2 (MarkovIndex_init 0 3)
  = Return ([Some (codes "a"); Some (codes "ab")],
            {| min_level := 0; max_level := 3;
               guess := Some (codes "ab"); guess_level := 1 |}) ∧
  next_guess 2 dangling_model
    {| min_level := 0; max_level := 3;
       guess := Some (codes "ab"); guess_level := 1 |}
  = Raise KeyError.
Proof.
  split; [vm_compute; reflexivity|].
  refine (proj2 (missing_entry_raises dangling_model 0
                   {| min_level := 0; max_level := 3;
                      guess := Some (codes "ab"); guess_level := 1 |}
                   (codes "ab") 98 _ _ _)).
  - reflexivity.
  - reflexivity.
  - vm_compute. reflexivity.
Defined.

(** X2. An endless descent: when the first child of the last character
    [x] of the guess is [x] itself, with a transition probability that is
    not positive, and the level of the guess lies below a band that is not
    empty, the descent of [dig_deeper] goes on for ever: whatever the
    fuel, [dig_deeper] and [next_guess] do not return. *)
Theorem zero_self_transition_never_returns self mi p x nd e :
  guess mi = Some p → last p = Some x →
  markov_stats self !! x = Some nd → first_child nd = Some x →
  following_letters nd !! x = Some e → f_probability e ≤ 0 →
  guess_level mi < min_level mi → min_level mi ≤ max_level mi →
  ∀ fuel, dig_deeper fuel self mi = OutOfFuel ∧
          next_guess fuel self mi = OutOfFuel.
Proof.
  intros Hg Hlast Hnd Hfc He Hp Hlvl Hband.
  assert (Hd : ∀ fuel, dig_deeper fuel self mi = OutOfFuel).
  { intros fuel. revert mi p Hg Hlast Hlvl Hband.
    induction fuel as [|fuel IH]; intros mi p Hg Hlast Hlvl Hband; [done|].
    simpl. rewrite Hg. simpl. rewrite Hlast. simpl. rewrite Hnd. simpl.
    rewrite Hfc, He. simpl.
    assert (in_range mi (guess_level mi + f_probability e) = false) as ->.
    { apply not_true_is_false. rewrite in_range_bounds. lia. }
    assert ((max_level mi <? guess_level mi + f_probability e) = false) as ->
      by (apply Z.ltb_ge; lia).
    apply (IH _ (p ++ [x])); simpl; [done|apply last_snoc|lia|done]. }
  intros fuel. split; [apply Hd|].
  unfold next_guess. rewrite Hg. destruct fuel as [|fuel]; [done|].
  by rewrite guess_loop_run, Hd.
Qed.

Lemma zero_self_transition_never_returns_witness :
  dig_deeper 1000 scenario_model
    {| min_level := 1; max_level := 3; guess := Some [97]; guess_level := 0 |}
  = OutOfFuel ∧
  next_guess 1000 scenario_model
    {| min_level := 1; max_level := 3; guess := Some [97]; guess_level := 0 |}
  = OutOfFuel.
Proof.
  refine (zero_self_transition_never_returns scenario_model
            {| min_level := 1; max_level := 3;
               guess := Some [97]; guess_level := 0 |}
            [97] 97
            {| probability := 0;
               following_letters :=
                 <[97 := {| f_probability := 0; f_next := Some 98 |}]>
                   (<[98 := {| f_probability := 3; f_next := None |}]> ∅);
               first_child := Some 97; last_child := Some 98;
               next := Some 98 |}
            {| f_probability := 0; f_next := Some 98 |} _ _ _ _ _ _ _ _
            1000%nat).
  - reflexivity.
  - reflexivity.
  - vm_compute. reflexivity.
  - reflexivity.
  - vm_compute. reflexivity.
  - simpl. lia.
  - simpl. lia.
  - simpl. lia.
Defined.

(** ** What a session keeps *)

(** X3. The bounds and the guess of the index: whatever the model, the
    calls of [next_guess] never change [min_level] and [max_level], no
    guess that they return is the empty string, and the index never holds
    an empty guess. *)
Theorem bounds_kept_guess_nonempty self minl maxl fuel n results mi' :
  session fuel self n (MarkovIndex_init minl maxl) = Return (results, mi') →
  min_level mi' = minl ∧ max_level mi' = maxl ∧
  (Some [] ∉ results) ∧ (guess mi' ≠ Some []).
Proof.
  intros H.
  apply session_keeps in H as (Hmin & Hmax & Hok & Hres & _);
    [|apply index_ok_init].
  split; [done|]. split; [done|]. split.
  - intros Hin. by destruct (Hres [] Hin) as (l & Hl & _).
  - intros Hg. by destruct (Hok [] Hg) as [Hl _].
Qed.

Lemma bounds_kept_guess_nonempty_witness :
  min_level {| min_level := 0; max_level := 3;
               guess := None; guess_level := 7 |} = 0 ∧
  max_level {| min_level := 0; max_level := 3;
               guess := None; guess_level := 7 |} = 3 ∧
  (Some [] ∉ [Some [97]; Some [97; 98]; None]) ∧
  (guess {| min_level := 0; max_level := 3;
            guess := None; guess_level := 7 |} ≠ Some []).
Proof.
  refine (bounds_kept_guess_nonempty siblings_model 0 3 4 3
            [Some [97]; Some [97; 98]; None]
            {| min_level := 0; max_level := 3;
               guess := None; guess_level := 7 |} _).
  vm_compute. reflexivity.
Defined.

(** ** The order of the guesses *)

(** X4. The loops follow the recursion on the trie: for a model whose
    chains end and whose following letters have entries, with positive
    transition probabilities, and for [minl ≤ maxl], a fresh session
    returns the guesses of [enumeration], in that order (every string
    before the strings below it, these before its later siblings, a chain
    being left at its first member above [maxl]), and then signals
    exhaustion; no guess comes twice, and every guess is a string of the
    trie with a level in the band. *)
Theorem session_follows_enumeration self minl maxl :
  well_formed self → positive self → minl ≤ maxl →
  ∃ fuel mi',
    session fuel self (S (length (enumeration self minl maxl)))
            (MarkovIndex_init minl maxl)
    = Return ((Some <$> enumeration self minl maxl) ++ [None], mi') ∧
    guess mi' = None ∧
    NoDup (enumeration self minl maxl) ∧
    ∀ g, g ∈ enumeration self minl maxl →
         reachable self g ∧ ∃ l, level_of self g = Some l ∧ minl ≤ l ≤ maxl.
Proof.
  intros Hwf Hpos Hband.
  destruct (full_session self minl maxl Hwf Hpos Hband)
    as (fuel & mi' & Hs & Hnone).
  exists fuel, mi'. split; [done|]. split; [done|].
  split; [by apply enumeration_NoDup|].
  intros g. unfold enumeration, guesses. rewrite list_elem_of_fmap.
  intros ([g' l] & -> & [Hl Hv]%list_elem_of_filter). simpl in *.
  apply visits_sound in Hv as [? ?]. eauto.
Qed.

Lemma session_follows_enumeration_witness :
  ∃ fuel mi',
    session fuel siblings_model (S (length (enumeration siblings_model 0 3)))
            (MarkovIndex_init 0 3)
    = Return ((Some <$> enumeration siblings_model 0 3) ++ [None], mi') ∧
    guess mi' = None ∧
    NoDup (enumeration siblings_model 0 3) ∧
    ∀ g, g ∈ enumeration siblings_model 0 3 →
         reachable siblings_model g ∧
         ∃ l, level_of siblings_model g = Some l ∧ 0 ≤ l ≤ 3.
Proof.
  apply (session_follows_enumeration siblings_model 0 3).
  - compute_done.
  - compute_done.
  - lia.
Defined.

(** ** Calls after the exhaustion *)

Lemma session_app self fuel n m mi :
  session fuel self (n + m) mi =
    r1 ← session fuel self n mi;
    r2 ← session fuel self m r1.2;
    Return (r1.1 ++ r2.1, r2.2).
Proof.
  revert mi. induction n as [|n IH]; intros mi.
  - simpl. unfold mbind, res_bind. simpl.
    by destruct (session fuel self m mi) as [[? ?]| |].
  - change (S n + m)%nat with (S (n + m)). rewrite !session_run.
    unfold mbind, res_bind.
    destruct (next_guess fuel self mi) as [[r mi1]| |]; [|done|done].
    cbn [fst snd]. specialize (IH mi1). unfold mbind, res_bind in IH.
    rewrite IH.
    destruct (session fuel self n mi1) as [[rs1 mi2]| |]; [|done|done].
    cbn [fst snd].
    by destruct (session fuel self m mi2) as [[rs2 mi3]| |].
Qed.

Lemma session_absent self fuel n mi :
  guess mi = None →
  session fuel self (S n) mi
  = session fuel self (S n) (MarkovIndex_init (min_level mi) (max_level mi)).
Proof. intros Hg. by rewrite !session_run, next_guess_absent. Qed.

Lemma join_replicate_snoc {A : Type} (l : list A) k :
  mjoin (replicate k l) ++ l = mjoin (replicate (S k) l).
Proof.
  induction k as [|k IH]; simpl; [by rewrite app_nil_r|].
  simpl in IH. by rewrite <- app_assoc, IH.
Qed.

(** X5. An exhausted index plays the session again: when a run of [m]
    calls on a fresh index ends with the exhaustion, every further run of
    [m] calls on the same index returns the same results and leaves the
    same index; [k] runs in a row return the results [k] times. *)
Theorem exhausted_session_replays self minl maxl fuel m results mi' k :
  session fuel self (S m) (MarkovIndex_init minl maxl) = Return (results, mi') →
  last results = Some None →
  session fuel self (S k * S m) (MarkovIndex_init minl maxl)
  = Return (mjoin (replicate (S k) results), mi').
Proof.
  intros Hs Hlast.
  pose proof Hs as (Hmin & Hmax & _ & _ & Hl)%session_keeps;
    [|apply index_ok_init].
  specialize (Hl _ Hlast). simpl in Hmin, Hmax.
  induction k as [|k IH].
  - rewrite Nat.mul_1_l. simpl. by rewrite app_nil_r.
  - change (S (S k) * S m)%nat with (S m + S k * S m)%nat.
    rewrite Nat.add_comm, session_app, IH.
    unfold mbind at 1, res_bind at 1. cbn [fst snd].
    rewrite session_absent, Hmin, Hmax, Hs by done.
    unfold mbind, res_bind. cbn [fst snd].
    by rewrite join_replicate_snoc.
Qed.

Lemma exhausted_session_replays_witness :
  session 4 siblings_model 6 (MarkovIndex_init 0 3)
  = Return ([Some (codes "a"); Some (codes "ab"); None;
             Some (codes "a"); Some (codes "ab"); None],
            {| min_level := 0; max_level := 3;
               guess := None; guess_level := 7 |}).
Proof.
  refine (exhausted_session_replays siblings_model 0 3 4 2
            [Some [97]; Some [97; 98]; None]
            {| min_level := 0; max_level := 3;
               guess := None; guess_level := 7 |} 1 _ _).
  - vm_compute. reflexivity.
  - reflexivity.
Defined.

(** X6. A start character linked to itself: when the ['next'] of a
    character without following letters is the character itself (what two
    unigram lines in a row for the same character leave behind) and its
    start probability lies in the band, every call of [next_guess] on an
    index at this character returns the character again, and the session
    never reaches the exhaustion. *)
Theorem self_linked_letter_repeats self mi c nd fuel n :
  guess mi = Some [c] → markov_stats self !! c = Some nd →
  next nd = Some c → first_child nd = None →
  guess_level mi = probability nd →
  in_range mi (probability nd) = true → (2 ≤ fuel)%nat →
  session fuel self n mi = Return (replicate n (Some [c]), mi).
Proof.
  intros Hg Hc Hnext Hfc Hlvl Hin Hfuel.
  destruct fuel as [|[|fuel]]; [lia|lia|].
  assert (Hone : next_guess (S (S fuel)) self mi = Return (Some [c], mi)).
  { unfold next_guess. rewrite Hg.
    assert (Hd : dig_deeper (S fuel) self mi = Return (None, mi)).
    { simpl. rewrite Hg. simpl. rewrite Hc. simpl. by rewrite Hfc. }
    rewrite (guess_loop_wide self (S fuel) mi mi (Done (Some [c]) mi) Hd); [done|].
    simpl. rewrite Hg. simpl. unfold dig_wider_base. rewrite Hc. simpl.
    rewrite Hnext, Hc. simpl.
    assert ((max_level mi <? probability nd) = false) as ->.
    { apply in_range_bounds in Hin. apply Z.ltb_ge. lia. }
    rewrite Hg. simpl. unfold in_range in *. simpl. rewrite Hin.
    do 3 f_equal. destruct mi as [mn mx g lv]. simpl in *. by subst. }
  induction n as [|n IH]; [done|].
  rewrite session_run, Hone. unfold mbind at 1, res_bind at 1. cbn [fst snd].
  by rewrite IH.
Qed.

Lemma self_linked_letter_repeats_witness :
  session 2 twice_model 5
    {| min_level := 0; max_level := 0; guess := Some [97]; guess_level := 0 |}
  = Return (replicate 5 (Some [97]),
            {| min_level := 0; max_level := 0;
               guess := Some [97]; guess_level := 0 |}).
Proof.
  refine (self_linked_letter_repeats twice_model
            {| min_level := 0; max_level := 0;
               guess := Some [97]; guess_level := 0 |}
            97 (leaf_stats 0 (Some 97)) 2 5 _ _ _ _ _ _ _).
  - reflexivity.
  - vm_compute. reflexivity.
  - reflexivity.
  - reflexivity.
  - reflexivity.
  - reflexivity.
  - lia.
Defined.

(** ** The chains that the loader builds *)

Lemma is_chain_ext {A : Type} (m m' : gmap Z A) nxt first l :
  is_chain m nxt first l →
  (∀ c a, c ∈ l → m !! c = Some a → ∃ a', m' !! c = Some a' ∧ nxt a' = nxt a) →
  is_chain m' nxt first l.
Proof.
  revert first. induction l as [|c l IH]; intros first; simpl; [done|].
  intros (-> & a & Ha & Hl) Hsame. split; [done|].
  destruct (Hsame c a) as (a' & Ha' & Hnxt); [apply list_elem_of_here|done|].
  exists a'. split; [done|]. rewrite Hnxt. apply IH; [done|].
  intros c' b Hc'. apply Hsame. by apply list_elem_of_further.
Qed.

(** A chain gets one more letter: the letter [u] is new, the last letter
    of the chain is linked to it, and the other links stay. *)
Lemma is_chain_snoc {A : Type} (m m' : gmap Z A) nxt first l u b :
  is_chain m nxt first l → u ∉ l →
  m' !! u = Some b → nxt b = None →
  (∀ c a, c ∈ l → last l ≠ Some c → m !! c = Some a →
          ∃ a', m' !! c = Some a' ∧ nxt a' = nxt a) →
  (∀ p, last l = Some p → ∃ a', m' !! p = Some a' ∧ nxt a' = Some u) →
  is_chain m' nxt (match l with [] => Some u | _ => first end) (l ++ [u]).
Proof.
  intros Hchain Hu Hb Hnone Hkeep Hlink.
  pose proof (is_chain_NoDup _ _ _ _ Hchain) as Hnodup.
  revert first Hchain Hkeep Hlink.
  induction l as [|c l IH]; intros first Hchain Hkeep Hlink; simpl.
  { split; [done|]. exists b. by rewrite Hnone. }
  destruct Hchain as (-> & a & Ha & Hl). split; [done|].
  apply not_elem_of_cons in Hu as [Huc Hu].
  apply NoDup_cons in Hnodup as [Hc Hnodup].
  destruct l as [|c2 l].
  - destruct (Hlink c) as (a' & Ha' & Hnxt); [done|].
    exists a'. split; [done|]. rewrite Hnxt. simpl. split; [done|].
    exists b. by rewrite Hnone.
  - destruct (Hkeep c a) as (a' & Ha' & Hnxt); [apply list_elem_of_here| |done|].
    { change (last (c :: c2 :: l)) with (last (c2 :: l)).
      intros Hlast. apply Hc. by apply last_Some_elem_of. }
    exists a'. split; [done|]. rewrite Hnxt.
    apply (IH Hu Hnodup (nxt a)); [done| |].
    + intros c' b' Hc' Hlast. apply Hkeep; [by apply list_elem_of_further|done].
    + intros p Hp. by apply Hlink.
Qed.

Lemma walk_complete {A : Type} fuel (m : gmap Z A) nxt first l :
  is_chain m nxt first l → (length l ≤ fuel)%nat →
  walk fuel m nxt first = Some l.
Proof.
  revert fuel first. induction l as [|c l IH]; intros fuel first; simpl.
  - intros -> _. by destruct fuel.
  - intros (-> & a & Ha & Hl) Hlen. destruct fuel as [|fuel]; [lia|].
    simpl. rewrite Ha. simpl. rewrite (IH fuel) by (done || lia). done.
Qed.

Lemma is_chain_first {A : Type} (m : gmap Z A) nxt first l :
  is_chain m nxt first l → first = head l.
Proof. destruct l; simpl; [done|]. by intros [-> _]. Qed.

(** ** The records of a file *)

Lemma unigrams_snoc rs r :
  unigrams (rs ++ [r])
  = unigrams rs ++ match r with Unigram c _ => [c] | Bigram _ _ _ => [] end.
Proof. unfold unigrams. rewrite omap_app. by destruct r. Qed.

Lemma followers_snoc rs r x :
  followers (rs ++ [r]) x
  = followers rs x ++ match r with
                      | Bigram _ c1 c2 => if decide (c1 = x) then [c2] else []
                      | Unigram _ _ => []
                      end.
Proof.
  unfold followers. rewrite omap_app. destruct r as [|p c1 c2]; simpl; [done|].
  by destruct (decide (c1 = x)).
Qed.

Lemma elem_of_unigrams rs c : c ∈ unigrams rs ↔ ∃ p, Unigram c p ∈ rs.
Proof.
  unfold unigrams. rewrite list_elem_of_omap. split.
  - intros ([c' p|] & Hin & Heq); simplify_eq. eauto.
  - intros [p Hin]. by exists (Unigram c p).
Qed.

Lemma elem_of_followers rs x c : c ∈ followers rs x ↔ ∃ p, Bigram p x c ∈ rs.
Proof.
  unfold followers. rewrite list_elem_of_omap. split.
  - intros ([|p c1 c2] & Hin & Heq); [done|].
    destruct (decide (c1 = x)); simplify_eq. eauto.
  - intros [p Hin]. exists (Bigram p x c). split; [done|].
    by rewrite decide_True.
Qed.

(** ** One line of the loader *)

Lemma followers_undeclared self prev done c :
  loaded self prev done → c ∉ unigrams done → followers done c = [].
Proof.
  intros Hld Hc. destruct (followers done c) as [|c2 l] eqn:Hf; [done|].
  assert (c2 ∈ followers done c) as [p Hp]%elem_of_followers
    by (rewrite Hf; apply list_elem_of_here).
  destruct Hc. exact (ld_decl _ _ _ Hld _ _ _ Hp).
Qed.

Lemma entry_loaded_fresh done c p :
  followers done c = [] →
  entry_loaded {| probability := p; following_letters := ∅;
                  first_child := None; last_child := None; next := None |}
               done c.
Proof.
  intros Hf. unfold entry_loaded. rewrite Hf. simpl.
  split; [done|]. split; [done|]. split; [|split; [done|]].
  - intros c'. rewrite lookup_empty. split; [by intros [? ?]|by intros ?%elem_of_nil].
  - intros p' c' Hin.
    assert (c' ∈ followers done c) as Hc' by (apply elem_of_followers; eauto).
    rewrite Hf in Hc'. by apply elem_of_nil in Hc'.
Qed.

(** What a unigram line does to [markov_stats]: the new entry, the link
    from the entry of the unigram line before, and nothing else. *)
Lemma unigram_step self prev done c p st' start' :
  loaded self prev done → c ∉ unigrams done →
  st' !! c = Some {| probability := p; following_letters := ∅;
                     first_child := None; last_child := None; next := None |} →
  (∀ q, prev = Some q →
        ∃ nd, markov_stats self !! q = Some nd ∧
              st' !! q = Some (set_next nd (Some c))) →
  (∀ c', c' ≠ c → prev ≠ Some c' → st' !! c' = markov_stats self !! c') →
  size st' = S (size (markov_stats self)) →
  start' = match start_letter self with None => Some c | Some s => Some s end →
  loaded {| markov_stats := st'; start_letter := start' |} (Some c)
         (done ++ [Unigram c p]).
Proof.
  intros Hld Hc Hnew Hlink Hkeep Hsize Hstart.
  pose proof (ld_prev _ _ _ Hld) as Hprev.
  assert (Hother : ∀ c' nd, c' ≠ c → markov_stats self !! c' = Some nd →
            ∃ nd', st' !! c' = Some nd' ∧
                   probability nd' = probability nd ∧
                   following_letters nd' = following_letters nd ∧
                   first_child nd' = first_child nd ∧
                   last_child nd' = last_child nd ∧
                   (prev ≠ Some c' → next nd' = next nd)).
  { intros c' nd Hne Hnd. destruct (decide (prev = Some c')) as [Hp|Hp].
    - destruct (Hlink c' Hp) as (nd0 & Hnd0 & Hst). simplify_eq.
      exists (set_next nd (Some c)). done.
    - exists nd. rewrite Hkeep by done. done. }
  split; simpl.
  - rewrite unigrams_snoc.
    assert (start' = match unigrams done with
                     | [] => Some c
                     | _ => start_letter self
                     end) as ->.
    { rewrite Hstart.
      rewrite (is_chain_first _ _ _ _ (ld_chain _ _ _ Hld)).
      by destruct (unigrams done). }
    apply (is_chain_snoc (markov_stats self) st' next _ _ c
             {| probability := p; following_letters := ∅;
                first_child := None; last_child := None; next := None |});
      [exact (ld_chain _ _ _ Hld)|done|done|done| |].
    + intros c' nd Hin Hlast Hnd.
      destruct (Hother c' nd) as (nd' & Hnd' & _ & _ & _ & _ & Hnext);
        [by intros ->|done|].
      exists nd'. split; [done|]. apply Hnext. by rewrite Hprev.
    + intros q Hq. rewrite <- Hprev in Hq.
      destruct (Hlink q Hq) as (nd & _ & Hst). by exists (set_next nd (Some c)).
  - rewrite unigrams_snoc. by rewrite last_snoc.
  - intros c'. rewrite unigrams_snoc, elem_of_app, list_elem_of_singleton.
    rewrite <- (ld_keys _ _ _ Hld). destruct (decide (c' = c)) as [->|Hne].
    + split; [by right|]. intros _. by eexists.
    + split.
      * intros [nd' Hnd']. left.
        destruct (decide (prev = Some c')) as [Hp|Hp].
        -- destruct (Hlink c' Hp) as (nd & Hnd & _). by eexists.
        -- exists nd'. etrans; [symmetry; apply (Hkeep c' Hne Hp)|done].
      * intros [[nd Hnd]|?]; [|done].
        destruct (Hother c' nd) as (nd' & Hnd' & _); [done|done|]. by eexists.
  - rewrite unigrams_snoc, length_app, Hsize, (ld_size _ _ _ Hld). simpl. lia.
  - intros c' p' [Hin|Hin%list_elem_of_singleton]%elem_of_app.
    + assert (c' ∈ unigrams done) as Hc' by (apply elem_of_unigrams; eauto).
      pose proof (ld_prob _ _ _ Hld c' p' Hin) as Hp.
      unfold start_probability in *. simpl.
      destruct (markov_stats self !! c') as [nd|] eqn:Hnd; [|done].
      destruct (Hother c' nd) as (nd' & Hnd' & Hprob & _); [by intros ->|done|].
      rewrite Hnd'. simpl in *. by rewrite Hprob.
    + simplify_eq. unfold start_probability. simpl. by rewrite Hnew.
  - intros p' x c' [Hin|Hin%list_elem_of_singleton]%elem_of_app; [|done].
    rewrite unigrams_snoc, elem_of_app. left. exact (ld_decl _ _ _ Hld _ _ _ Hin).
  - intros x nd' Hnd'. unfold entry_loaded.
    rewrite followers_snoc, app_nil_r.
    destruct (decide (x = c)) as [->|Hne].
    + rewrite Hnew in Hnd'. injection Hnd' as <-.
      pose proof (entry_loaded_fresh done c p
                    (followers_undeclared _ _ _ _ Hld Hc)) as (?&?&?&?&Hp).
      split_and!; try done.
      intros p' c' [Hin|Hin%list_elem_of_singleton]%elem_of_app; [|done].
      by apply Hp.
    + assert (is_Some (markov_stats self !! x)) as [nd Hnd].
      { destruct (decide (prev = Some x)) as [Hp|Hp].
        - destruct (Hlink x Hp) as (nd & Hnd & _). by eexists.
        - exists nd'. etrans; [symmetry; apply (Hkeep x Hne Hp)|done]. }
      destruct (Hother x nd) as (nd2 & Hnd2 & _ & Hfl & Hfc & Hlc & _);
        [done|done|]. simplify_eq.
      destruct (ld_children _ _ _ Hld x nd Hnd) as (?&?&?&?&Hp).
      rewrite Hfl, Hfc, Hlc. split_and!; try done.
      intros p' c' [Hin|Hin%list_elem_of_singleton]%elem_of_app; [|done].
      by apply Hp.
Qed.

Lemma load_proba1_loaded self prev done line c p :
  loaded self prev done → parse_proba1 line = Return (c, p) →
  c ∉ unigrams done →
  ∃ self', load_proba1 self prev line = Loaded self' (Some c) ∧
           loaded self' (Some c) (done ++ [Unigram c p]).
Proof.
  intros Hld Hparse Hc. unfold load_proba1. rewrite Hparse. cbv zeta.
  unfold letter in *.
  assert (Hfresh : markov_stats self !! c = None).
  { apply eq_None_not_Some. by rewrite (ld_keys _ _ _ Hld). }
  destruct prev as [q|].
  - assert (Hq : q ∈ unigrams done).
    { apply last_Some_elem_of. symmetry. exact (ld_prev _ _ _ Hld). }
    assert (Hqc : q ≠ c) by (by intros ->).
    apply (ld_keys _ _ _ Hld) in Hq as [nd Hnd].
    rewrite lookup_insert_ne, Hnd by done.
    eexists. split; [reflexivity|].
    apply (unigram_step self (Some q) done c p); try done.
    + by rewrite lookup_insert_ne, lookup_insert_eq.
    + intros q' [= <-]. exists nd. split; [done|]. by rewrite lookup_insert_eq.
    + intros c' Hne Hne'. rewrite !lookup_insert_ne; [done|done|].
      by intros ->.
    + rewrite map_size_insert_Some, map_size_insert_None; [done|done|].
      by rewrite lookup_insert_ne, Hnd.
  - eexists. split; [reflexivity|].
    apply (unigram_step self None done c p); try done.
    + by rewrite lookup_insert_eq.
    + intros c' Hne _. by rewrite lookup_insert_ne.
    + by rewrite map_size_insert_None.
Qed.

(** What a bigram line does to the entry of its first character: the new
    following letter, the link from the following letter before, and
    nothing else. *)
Lemma bigram_step self prev done x nd c p fl' :
  loaded self prev done → markov_stats self !! x = Some nd →
  c ∉ followers done x →
  fl' !! c = Some {| f_probability := p; f_next := None |} →
  (∀ lc, last_child nd = Some lc →
         ∃ e, following_letters nd !! lc = Some e ∧
              fl' !! lc = Some {| f_probability := f_probability e;
                                  f_next := Some c |}) →
  (∀ c', c' ≠ c → last_child nd ≠ Some c' →
         fl' !! c' = following_letters nd !! c') →
  size fl' = S (size (following_letters nd)) →
  loaded (set_stats self
            (<[x := {| probability := probability nd;
                       following_letters := fl';
                       first_child := match first_child nd with
                                      | None => Some c
                                      | Some f => Some f
                                      end;
                       last_child := Some c;
                       next := next nd |}]> (markov_stats self)))
         prev (done ++ [Bigram p x c]).
Proof.
  intros Hld Hx Hc Hnew Hlink Hkeep Hsize. unfold letter in *.
  set (nd3 := {| probability := probability nd; following_letters := fl';
                 first_child := _; last_child := Some c; next := next nd |}).
  destruct (ld_children _ _ _ Hld x nd Hx) as (Hchain & Hlast & Hkeys & Hsz & Hprob).
  assert (Hxin : x ∈ unigrams done) by (apply (ld_keys _ _ _ Hld); by eexists).
  split; simpl.
  - rewrite unigrams_snoc, app_nil_r.
    apply (is_chain_ext (markov_stats self)); [exact (ld_chain _ _ _ Hld)|].
    intros c' a _ Ha. destruct (decide (c' = x)) as [->|Hne].
    + rewrite lookup_insert_eq. exists nd3. split; [done|].
      unfold letter in *. rewrite Hx in Ha. by injection Ha as <-.
    + rewrite lookup_insert_ne by done. eauto.
  - rewrite unigrams_snoc, app_nil_r. exact (ld_prev _ _ _ Hld).
  - intros c'. rewrite unigrams_snoc, app_nil_r, <- (ld_keys _ _ _ Hld).
    destruct (decide (c' = x)) as [->|Hne].
    + rewrite lookup_insert_eq, Hx. split; by eexists.
    + by rewrite lookup_insert_ne.
  - rewrite unigrams_snoc, app_nil_r, map_size_insert_Some by (by eexists).
    exact (ld_size _ _ _ Hld).
  - intros c' p' [Hin|Hin%list_elem_of_singleton]%elem_of_app; [|done].
    pose proof (ld_prob _ _ _ Hld c' p' Hin) as Hp.
    unfold start_probability in *. simpl. unfold letter in *.
    destruct (decide (c' = x)) as [->|Hne].
    + rewrite lookup_insert_eq. rewrite Hx in Hp. done.
    + by rewrite lookup_insert_ne.
  - intros p' x' c' [Hin|Hin%list_elem_of_singleton]%elem_of_app.
    + rewrite unigrams_snoc, app_nil_r. exact (ld_decl _ _ _ Hld _ _ _ Hin).
    + simplify_eq. by rewrite unigrams_snoc, app_nil_r.
  - intros x' nd' Hnd'. unfold entry_loaded. rewrite followers_snoc.
    destruct (decide (x = x')) as [<-|Hne].
    + rewrite lookup_insert_eq in Hnd'. injection Hnd' as <-. simpl.
      rewrite decide_True by done. unfold letter in *.
      split; [|split; [|split; [|split]]].
      * assert (Hs : is_chain fl' f_next
                       (match followers done x with
                        | [] => Some c
                        | _ => first_child nd
                        end) (followers done x ++ [c])).
        { apply (is_chain_snoc (following_letters nd) fl' f_next _ _ c
                   {| f_probability := p; f_next := None |});
            [done|done|done|done| |].
          - intros c' e Hin Hl He. exists e. split; [|done].
            unfold letter in *. rewrite Hkeep; [done|by intros ->|by rewrite Hlast].
          - intros lc Hlc. unfold letter in *. rewrite <- Hlast in Hlc.
            destruct (Hlink lc Hlc) as (e & _ & Hfl). eauto. }
        pose proof (is_chain_first _ _ _ _ Hchain) as Hfirst.
        clear -Hs Hfirst. revert Hs Hfirst.
        destruct (followers done x), (first_child nd); simpl; done.
      * by rewrite last_snoc.
      * intros c'. rewrite elem_of_app, list_elem_of_singleton, <- Hkeys.
        destruct (decide (c' = c)) as [->|Hnec].
        -- split; [by right|]. intros _. by eexists.
        -- destruct (decide (last_child nd = Some c')) as [Hl|Hl].
           ++ destruct (Hlink c' Hl) as (e & He & Hfl).
              split; [intros _; left|intros _]; by eexists.
           ++ rewrite Hkeep by done. split; [by left|by intros [?|?]].
      * rewrite length_app, Hsize, Hsz. simpl. lia.
      * intros p' c' [Hin|Hin%list_elem_of_singleton]%elem_of_app.
        -- assert (c' ≠ c).
           { intros ->. apply Hc. apply elem_of_followers. eauto. }
           specialize (Hprob p' c' Hin).
           destruct (decide (last_child nd = Some c')) as [Hl|Hl].
           ++ destruct (Hlink c' Hl) as (e & He & Hfl).
              rewrite Hfl. rewrite He in Hprob. done.
           ++ by rewrite Hkeep.
        -- simplify_eq. by rewrite Hnew.
    + rewrite lookup_insert_ne in Hnd' by done.
      rewrite decide_False, app_nil_r by done.
      destruct (ld_children _ _ _ Hld x' nd' Hnd') as (?&?&?&?&Hp').
      split_and!; try done.
      intros p' c' [Hin|Hin%list_elem_of_singleton]%elem_of_app;
        [by apply Hp'|by simplify_eq].
Qed.

Lemma load_proba2_loaded self prev done line p x c :
  loaded self prev done → parse_proba2 line = Return (p, x, c) →
  x ∈ unigrams done → c ∉ followers done x →
  ∃ self', load_proba2 self prev line = Loaded self' prev ∧
           loaded self' prev (done ++ [Bigram p x c]).
Proof.
  intros Hld Hparse Hx Hc. unfold load_proba2. rewrite Hparse. cbv zeta.
  unfold letter in *.
  apply (ld_keys _ _ _ Hld) in Hx as [nd Hnd]. rewrite Hnd.
  destruct (ld_children _ _ _ Hld x nd Hnd) as (Hchain & Hlast & Hkeys & Hsz & _).
  assert (Hfresh : following_letters nd !! c = None).
  { apply eq_None_not_Some. by rewrite Hkeys. }
  cbn [set_following last_child following_letters].
  destruct (last_child nd) as [lc|] eqn:Hlc.
  - assert (Hlcin : lc ∈ followers done x).
    { apply last_Some_elem_of. by rewrite <- Hlast. }
    assert (Hne : lc ≠ c) by (by intros ->).
    apply Hkeys in Hlcin as [e He].
    rewrite lookup_insert_ne, He by done.
    eexists. split; [reflexivity|].
    apply (bigram_step self prev done x nd c p); try done;
      cbn [following_letters set_following].
    + by rewrite lookup_insert_ne, lookup_insert_eq.
    + intros lc' Hlc'. rewrite Hlc in Hlc'. injection Hlc' as <-.
      exists e. split; [done|]. by rewrite lookup_insert_eq.
    + intros c' Hne1 Hne2. rewrite !lookup_insert_ne; [done|done|].
      intros ->. by apply Hne2.
    + rewrite map_size_insert_Some, map_size_insert_None; [done|done|].
      by rewrite lookup_insert_ne, He.
  - eexists. split; [reflexivity|].
    apply (bigram_step self prev done x nd c p); try done;
      cbn [following_letters set_following].
    + by rewrite lookup_insert_eq.
    + intros lc' Hlc'. by rewrite Hlc in Hlc'.
    + intros c' Hne _. by rewrite lookup_insert_ne.
    + by rewrite map_size_insert_None.
Qed.

(** ** The whole file *)

Lemma read_line_unigram line c p :
  read_line line = Some (Unigram c p) →
  contains "=proba1" line = true ∧ parse_proba1 line = Return (c, p).
Proof.
  unfold read_line. destruct (contains "=proba1" line).
  - destruct (parse_proba1 line) as [[c' p']| |]; [|done|done].
    by intros [= -> ->].
  - destruct (contains "=proba2" line); [|done].
    by destruct (parse_proba2 line) as [[[? ?] ?]| |].
Qed.

Lemma read_line_bigram line p x c :
  read_line line = Some (Bigram p x c) →
  contains "=proba1" line = false ∧ contains "=proba2" line = true ∧
  parse_proba2 line = Return (p, x, c).
Proof.
  unfold read_line. destruct (contains "=proba1" line).
  - by destruct (parse_proba1 line) as [[c' p']| |].
  - destruct (contains "=proba2" line); [|done].
    destruct (parse_proba2 line) as [[[? ?] ?]| |]; [|done|done].
    by intros [= -> -> ->].
Qed.

Lemma load_lines_loaded lines rs done self prev :
  Forall2 (λ line r, read_line line = Some r) lines rs →
  loaded self prev done → declared_once done rs = true →
  ∃ self' prev',
    loaded self' prev' (done ++ rs) ∧
    ∀ rest, load_lines self prev (lines ++ rest) = load_lines self' prev' rest.
Proof.
  intros Hread. revert done self prev.
  induction Hread as [|line r lines rs Hr _ IH]; intros done self prev Hld Hok.
  { exists self, prev. by rewrite app_nil_r. }
  simpl in Hok. destruct r as [c p|p x c].
  - apply andb_true_iff in Hok as [Hc%bool_decide_eq_true Hok].
    apply read_line_unigram in Hr as [Hmark Hparse].
    destruct (load_proba1_loaded self prev done line c p Hld Hparse Hc)
      as (self1 & Hload & Hld1).
    destruct (IH _ _ _ Hld1 Hok) as (self' & prev' & Hld' & Hrest).
    exists self', prev'. rewrite <- app_assoc in Hld'. split; [done|].
    intros rest. simpl. by rewrite Hmark, Hload.
  - apply andb_true_iff in Hok as [Hxc Hok].
    apply andb_true_iff in Hxc as [Hx%bool_decide_eq_true Hc%bool_decide_eq_true].
    apply read_line_bigram in Hr as (Hm1 & Hm2 & Hparse).
    destruct (load_proba2_loaded self prev done line p x c Hld Hparse Hx Hc)
      as (self1 & Hload & Hld1).
    destruct (IH _ _ _ Hld1 Hok) as (self' & prev' & Hld' & Hrest).
    exists self', prev'. rewrite <- app_assoc in Hld'. split; [done|].
    intros rest. simpl. by rewrite Hm1, Hm2, Hload.
Qed.

Lemma loaded_empty : loaded {| markov_stats := ∅; start_letter := None |} None [].
Proof.
  split; simpl; try done.
  - intros c. rewrite lookup_empty. split; [by intros [? ?]|by intros ?%elem_of_nil].
  - intros c p Hin. by apply elem_of_nil in Hin.
  - intros p x c Hin. by apply elem_of_nil in Hin.
Qed.

Lemma file_loaded lines rs :
  mapM read_line lines = Some rs → declared_once [] rs = true →
  ∃ self prev, MarkovCracker_init (Some (Some lines)) = Return self ∧
               loaded self prev rs.
Proof.
  intros Hread%mapM_Some Hok.
  destruct (load_lines_loaded lines rs [] _ None Hread loaded_empty Hok)
    as (self & prev & Hld & Hload).
  exists self, prev. split; [|done].
  unfold MarkovCracker_init, load_markov_stats.
  specialize (Hload []). rewrite app_nil_r in Hload. by rewrite Hload.
Qed.

(** The chains of a loaded model, as [walk] finds them. *)
Lemma loaded_top_chain self prev rs :
  loaded self prev rs → top_chain self = Some (unigrams rs).
Proof.
  intros Hld. unfold top_chain. apply walk_complete.
  - exact (ld_chain _ _ _ Hld).
  - by rewrite (ld_size _ _ _ Hld).
Qed.

Lemma loaded_child_chain self prev rs x nd :
  loaded self prev rs → markov_stats self !! x = Some nd →
  child_chain nd = Some (followers rs x).
Proof.
  intros Hld Hnd.
  destruct (ld_children _ _ _ Hld x nd Hnd) as (Hchain & _ & _ & Hsz & _).
  unfold child_chain. apply walk_complete; [done|]. by rewrite Hsz.
Qed.

Lemma loaded_transition self prev rs p x c :
  loaded self prev rs → Bigram p x c ∈ rs → transition self x c = Some p.
Proof.
  intros Hld Hin.
  pose proof (ld_decl _ _ _ Hld _ _ _ Hin) as Hx.
  apply (ld_keys _ _ _ Hld) in Hx as [nd Hnd].
  destruct (ld_children _ _ _ Hld x nd Hnd) as (_ & _ & _ & _ & Hp).
  unfold transition. unfold letter in *. rewrite Hnd. simpl. by apply Hp.
Qed.

Lemma loaded_well_formed self prev rs :
  loaded self prev rs → unigrams rs ≠ [] → followers_declared rs →
  well_formed self.
Proof.
  intros Hld Hne Hdecl. split; [|split].
  - pose proof (is_chain_first _ _ _ _ (ld_chain _ _ _ Hld)) as Hfirst.
    rewrite Hfirst. by destruct (unigrams rs).
  - rewrite (loaded_top_chain _ _ _ Hld). by eexists.
  - intros x nd Hnd. simpl.
    rewrite (loaded_child_chain _ _ _ _ _ Hld Hnd). split; [by eexists|].
    simpl. apply Forall_forall. intros c [p Hin]%elem_of_followers.
    apply (ld_keys _ _ _ Hld). unfold followers_declared in Hdecl.
    rewrite Forall_forall in Hdecl. exact (Hdecl _ Hin).
Qed.

Lemma loaded_positive self prev rs :
  loaded self prev rs → (∀ p x c, Bigram p x c ∈ rs → 0 < p) →
  positive self.
Proof.
  intros Hld Hpos x nd Hnd c e He. simpl.
  destruct (ld_children _ _ _ Hld x nd Hnd) as (_ & _ & Hkeys & _ & Hp).
  assert (Hin : c ∈ followers rs x) by (apply Hkeys; by eexists).
  apply elem_of_followers in Hin as [p Hin].
  specialize (Hp p c Hin). unfold letter in *. rewrite He in Hp.
  injection Hp as <-. by eapply Hpos.
Qed.

(** ** What a loaded model holds *)

(** X7. The loader keeps the order of the file. For a file whose lines
    are all read, that declares every character once and every pair once,
    the first character of a pair before the pair: the constructor
    returns a model whose start letter is the character of the first
    unigram line, whose top-level chain is the characters of the unigram
    lines in the order of the file, and where the entry of every
    character has, as the chain of its following letters, the second
    characters of its pairs in the order of the file, ['first_child'] and
    ['last_child'] being the first and the last of them; no other
    character has an entry. *)
Theorem loaded_file_keeps_order lines rs :
  mapM read_line lines = Some rs → declared_once [] rs = true →
  ∃ self,
    MarkovCracker_init (Some (Some lines)) = Return self ∧
    start_letter self = head (unigrams rs) ∧
    top_chain self = Some (unigrams rs) ∧
    (∀ x, x ∉ unigrams rs → markov_stats self !! x = None) ∧
    ∀ x, x ∈ unigrams rs →
         ∃ nd, markov_stats self !! x = Some nd ∧
               child_chain nd = Some (followers rs x) ∧
               first_child nd = head (followers rs x) ∧
               last_child nd = last (followers rs x).
Proof.
  intros Hread Hok.
  destruct (file_loaded lines rs Hread Hok) as (self & prev & Hinit & Hld).
  exists self. split_and!; [done| | | |].
  - exact (is_chain_first _ _ _ _ (ld_chain _ _ _ Hld)).
  - exact (loaded_top_chain _ _ _ Hld).
  - intros x Hx. apply eq_None_not_Some. by rewrite (ld_keys _ _ _ Hld).
  - intros x Hx. apply (ld_keys _ _ _ Hld) in Hx as [nd Hnd].
    exists nd. split; [done|].
    destruct (ld_children _ _ _ Hld x nd Hnd) as (Hchain & Hlast & _).
    split_and!; [|by eapply is_chain_first|done].
    exact (loaded_child_chain _ _ _ _ _ Hld Hnd).
Qed.

Lemma loaded_file_keeps_order_witness :
  ∃ self,
    MarkovCracker_init (Some (Some siblings_lines)) = Return self ∧
    start_letter self = Some 97 ∧
    top_chain self = Some [97; 98; 99; 100] ∧
    (∀ x, x ∉ [97; 98; 99; 100] → markov_stats self !! x = None) ∧
    ∀ x, x ∈ [97; 98; 99; 100] →
         ∃ nd, markov_stats self !! x = Some nd ∧
               child_chain nd
               = Some (followers [Unigram 97 0; Unigram 98 7; Unigram 99 7;
                                  Unigram 100 7; Bigram 1 97 98;
                                  Bigram 9 97 99; Bigram 2 97 100] x) ∧
               first_child nd
               = head (followers [Unigram 97 0; Unigram 98 7; Unigram 99 7;
                                  Unigram 100 7; Bigram 1 97 98;
                                  Bigram 9 97 99; Bigram 2 97 100] x) ∧
               last_child nd
               = last (followers [Unigram 97 0; Unigram 98 7; Unigram 99 7;
                                  Unigram 100 7; Bigram 1 97 98;
                                  Bigram 9 97 99; Bigram 2 97 100] x).
Proof.
  apply (loaded_file_keeps_order siblings_lines
           [Unigram 97 0; Unigram 98 7; Unigram 99 7; Unigram 100 7;
            Bigram 1 97 98; Bigram 9 97 99; Bigram 2 97 100]).
  - vm_compute. reflexivity.
  - vm_compute. reflexivity.
Defined.

(** X8. The loader keeps the probabilities of the file. For a file as in
    X7, the model has, for every unigram line, its probability as the
    start probability of its character and, for every bigram line, its
    probability as the transition probability of its pair; a pair that
    has no bigram line has no transition probability. *)
Theorem loaded_file_keeps_probabilities lines rs :
  mapM read_line lines = Some rs → declared_once [] rs = true →
  ∃ self,
    MarkovCracker_init (Some (Some lines)) = Return self ∧
    (∀ c p, Unigram c p ∈ rs → start_probability self c = Some p) ∧
    (∀ p x c, Bigram p x c ∈ rs → transition self x c = Some p) ∧
    (∀ x c, c ∉ followers rs x → transition self x c = None).
Proof.
  intros Hread Hok.
  destruct (file_loaded lines rs Hread Hok) as (self & prev & Hinit & Hld).
  exists self. split_and!; [done| | |].
  - exact (ld_prob _ _ _ Hld).
  - intros p x c. by apply (loaded_transition self prev).
  - intros x c Hc. unfold transition.
    destruct (markov_stats self !! x) as [nd|] eqn:Hnd; [|done]. simpl.
    destruct (ld_children _ _ _ Hld x nd Hnd) as (_ & _ & Hkeys & _).
    assert (Hnone : following_letters nd !! c = None).
    { apply eq_None_not_Some. by rewrite Hkeys. }
    unfold letter in *. by rewrite Hnone.
Qed.

Lemma loaded_file_keeps_probabilities_witness :
  ∃ self,
    MarkovCracker_init (Some (Some ordered_lines)) = Return self ∧
    (∀ c p, Unigram c p ∈ [Unigram 97 0; Unigram 98 2; Bigram 1 97 97;
                           Bigram 2 97 98; Bigram 3 98 97] →
            start_probability self c = Some p) ∧
    (∀ p x c, Bigram p x c ∈ [Unigram 97 0; Unigram 98 2; Bigram 1 97 97;
                             Bigram 2 97 98; Bigram 3 98 97] →
              transition self x c = Some p) ∧
    (∀ x c, c ∉ followers [Unigram 97 0; Unigram 98 2; Bigram 1 97 97;
                           Bigram 2 97 98; Bigram 3 98 97] x →
            transition self x c = None).
Proof.
  apply (loaded_file_keeps_probabilities ordered_lines
           [Unigram 97 0; Unigram 98 2; Bigram 1 97 97; Bigram 2 97 98;
            Bigram 3 98 97]).
  - vm_compute. reflexivity.
  - vm_compute. reflexivity.
Defined.

(** X9. From the file to the guesses. For a file as in X7 that has a
    unigram line, where every character that follows another one has a
    unigram line of its own and every bigram probability is positive,
    the constructor returns a model on which a fresh session with
    [minl ≤ maxl] comes to its end: it returns finitely many guesses, each
    once, each with a level in the band, and then signals exhaustion. No
    call raises and no call runs for ever. *)
Theorem loaded_file_session_ends lines rs minl maxl :
  mapM read_line lines = Some rs → declared_once [] rs = true →
  unigrams rs ≠ [] → followers_declared rs →
  (∀ p x c, Bigram p x c ∈ rs → 0 < p) → minl ≤ maxl →
  ∃ self gs fuel mi',
    MarkovCracker_init (Some (Some lines)) = Return self ∧
    session fuel self (S (length gs)) (MarkovIndex_init minl maxl)
    = Return ((Some <$> gs) ++ [None], mi') ∧
    guess mi' = None ∧ NoDup gs ∧
    ∀ g, g ∈ gs → ∃ l, level_of self g = Some l ∧ minl ≤ l ≤ maxl.
Proof.
  intros Hread Hok Hne Hdecl Hpos Hband.
  destruct (file_loaded lines rs Hread Hok) as (self & prev & Hinit & Hld).
  pose proof (loaded_well_formed _ _ _ Hld Hne Hdecl) as Hwf.
  pose proof (loaded_positive _ _ _ Hld Hpos) as Hp.
  destruct (full_session self minl maxl Hwf Hp Hband)
    as (fuel & mi' & Hs & Hnone).
  exists self, (enumeration self minl maxl), fuel, mi'.
  split_and!; [done|done|done|by apply enumeration_NoDup|].
  intros g. unfold enumeration, guesses. rewrite list_elem_of_fmap.
  intros ([g' l] & -> & [Hl Hv]%list_elem_of_filter). simpl in *.
  apply visits_sound in Hv as [? ?]. eauto.
Qed.

Lemma loaded_file_session_ends_witness :
  ∃ self gs fuel mi',
    MarkovCracker_init (Some (Some ordered_lines)) = Return self ∧
    session fuel self (S (length gs)) (MarkovIndex_init 0 3)
    = Return ((Some <$> gs) ++ [None], mi') ∧
    guess mi' = None ∧ NoDup gs ∧
    ∀ g, g ∈ gs → ∃ l, level_of self g = Some l ∧ 0 ≤ l ≤ 3.
Proof.
  apply (loaded_file_session_ends ordered_lines
           [Unigram 97 0; Unigram 98 2; Bigram 1 97 97; Bigram 2 97 98;
            Bigram 3 98 97] 0 3).
  - vm_compute. reflexivity.
  - vm_compute. reflexivity.
  - discriminate.
  - unfold followers_declared. repeat constructor; compute_done.
  - intros p x c Hin. repeat (apply elem_of_cons in Hin as [Hin|Hin];
      [by simplify_eq|]). by apply elem_of_nil in Hin.
  - lia.
Defined.

(** ** A pair before its first character *)

Lemma load_lines_before x pre rest :
  ∀ self prev,
    markov_stats self !! x = None →
    (∀ l p, l ∈ pre → read_line l ≠ Some (Unigram x p)) →
    (load_lines self prev (pre ++ rest)).1 = false ∨
    ∃ self' prev', markov_stats self' !! x = None ∧
                   load_lines self prev (pre ++ rest)
                   = load_lines self' prev' rest.
Proof.
  induction pre as [|l pre IH]; intros self prev Hx Hnot.
  { right. by exists self, prev. }
  assert (Hrest : ∀ l' p, l' ∈ pre → read_line l' ≠ Some (Unigram x p)).
  { intros l' p Hin. apply Hnot. by apply list_elem_of_further. }
  pose proof (λ p, Hnot l p (list_elem_of_here _ _)) as Hl.
  unfold read_line in Hl. simpl.
  destruct (contains "=proba1" l).
  - unfold load_proba1.
    destruct (parse_proba1 l) as [[c p]| |]; [|by left|by left].
    assert (Hc : c ≠ x) by (intros ->; by apply (Hl p)).
    cbv zeta. destruct prev as [q|].
    + destruct (_ !! q) as [nd|] eqn:Hq; [|by left].
      apply IH; [|done]. simpl.
      rewrite !lookup_insert_ne; [done|done|].
      intros ->. rewrite lookup_insert_ne in Hq by done.
      unfold letter in *. by rewrite Hx in Hq.
    + apply IH; [|done]. simpl. by rewrite lookup_insert_ne.
  - destruct (contains "=proba2" l); [|by left].
    unfold load_proba2.
    destruct (parse_proba2 l) as [[[p c1] c2]| |]; [|by left|by left].
    destruct (markov_stats self !! c1) as [nd|] eqn:Hc1; [|by left].
    cbv zeta.
    destruct (match last_child (set_following nd _) with
              | Some lc => _ | None => _ end) as [nd2|]; [|by left].
    apply IH; [|done]. simpl. rewrite lookup_insert_ne; [done|].
    intros ->. unfold letter in *. by rewrite Hx in Hc1.
Qed.

(** X10. A pair before its first character fails the load. When a bigram
    line names, as its first character, a character that no unigram line
    before it declares, [load_markov_stats] gives up (the [KeyError] of
    the missing entry is caught by its handler, if no line before has
    failed already), and the constructor raises, whatever the other
    lines are. *)
Theorem pair_before_character_fails pre line post p x c :
  (∀ l p', l ∈ pre → read_line l ≠ Some (Unigram x p')) →
  read_line line = Some (Bigram p x c) →
  MarkovCracker_init (Some (Some (pre ++ line :: post))) = Raise RuntimeError.
Proof.
  intros Hpre Hline.
  apply read_line_bigram in Hline as (Hm1 & Hm2 & Hparse).
  unfold MarkovCracker_init, load_markov_stats.
  set (self0 := {| markov_stats := ∅; start_letter := None |}).
  assert (Hfalse : (load_lines self0 None (pre ++ line :: post)).1 = false).
  { destruct (load_lines_before x pre (line :: post) self0 None
                (lookup_empty _) Hpre) as [H|(self' & prev' & Hx & H)]; [done|].
    rewrite H. simpl. rewrite Hm1, Hm2. unfold load_proba2. rewrite Hparse.
    unfold letter in *. by rewrite Hx. }
  destruct (load_lines self0 None (pre ++ line :: post)) as [ok self'].
  simpl in Hfalse. by rewrite Hfalse.
Qed.

Lemma pair_before_character_fails_witness :
  MarkovCracker_init
    (Some (Some [text_line "5=proba1[98]"; text_line "1=proba2[97*256+98]";
                 text_line "0=proba1[97]"]))
  = Raise RuntimeError.
Proof.
  apply (pair_before_character_fails
           [text_line "5=proba1[98]"] (text_line "1=proba2[97*256+98]")
           [text_line "0=proba1[97]"] 1 97 98).
  - intros l p' Hin. apply list_elem_of_singleton in Hin as ->.
    vm_compute. discriminate.
  - vm_compute. reflexivity.
Defined.

(** ** Reading the lines of the format *)

Section Strings.
Local Open Scope string_scope.

Lemma str_app_cons c (a b : string) : String c a ++ b = String c (a ++ b).
Proof. reflexivity. Qed.

Lemma str_app_assoc (a b c : string) : (a ++ b) ++ c = a ++ b ++ c.
Proof.
  induction a as [|x a IH]; [done|]. by rewrite !str_app_cons, IH.
Qed.

Lemma str_app_nil_r (a : string) : a ++ "" = a.
Proof. induction a as [|x a IH]; [done|]. by rewrite str_app_cons, IH. Qed.

Lemma prefix_app (s r : string) : String.prefix s (s ++ r) = true.
Proof.
  induction s as [|c s IH]; [by destruct r|].
  rewrite str_app_cons. simpl. by destruct (ascii_dec c c).
Qed.

Lemma prefix_other c0 sep c s :
  c ≠ c0 → String.prefix (String c0 sep) (String c s) = false.
Proof. intros Hne. simpl. by destruct (ascii_dec c0 c) as [->|]. Qed.

Lemma digit_not_space c d : digit_val c = Some d → is_space c = false.
Proof.
  unfold digit_val, is_space. generalize (Z.of_nat (nat_of_ascii c)).
  intros n. destruct (_ && _) eqn:E; [|done]. intros _.
  apply andb_true_iff in E as [?%Z.leb_le ?%Z.leb_le].
  assert ((n <=? 13)%Z = false) as -> by (apply Z.leb_gt; lia).
  assert ((n <=? 32)%Z = false) as -> by (apply Z.leb_gt; lia).
  assert ((n =? 133)%Z = false) as -> by (apply Z.eqb_neq; lia).
  assert ((n =? 160)%Z = false) as -> by (apply Z.eqb_neq; lia).
  by rewrite !andb_false_r.
Qed.

Lemma digit_not_int_space c d : digit_val c = Some d → is_int_space c = false.
Proof.
  unfold digit_val, is_int_space. generalize (Z.of_nat (nat_of_ascii c)).
  intros n. destruct (_ && _) eqn:E; [|done]. intros _.
  apply andb_true_iff in E as [?%Z.leb_le ?%Z.leb_le].
  assert ((n <=? 13)%Z = false) as -> by (apply Z.leb_gt; lia).
  assert ((n =? 32)%Z = false) as -> by (apply Z.eqb_neq; lia).
  assert ((n =? 133)%Z = false) as -> by (apply Z.eqb_neq; lia).
  assert ((n =? 160)%Z = false) as -> by (apply Z.eqb_neq; lia).
  by rewrite !andb_false_r.
Qed.

Lemma digit_nonneg c d : digit_val c = Some d → 0 ≤ d ≤ 9.
Proof.
  unfold digit_val. generalize (Z.of_nat (nat_of_ascii c)).
  intros n. destruct (_ && _) eqn:E; [|done]. intros [= <-].
  apply andb_true_iff in E as [?%Z.leb_le ?%Z.leb_le]. lia.
Qed.

Lemma digit_other c d c0 :
  digit_val c = Some d → digit_val c0 = None → Ascii.eqb c c0 = false.
Proof. intros Hc Hc0. apply Ascii.eqb_neq. intros ->. congruence. Qed.

Lemma space_other c c0 :
  is_space c = true → is_space c0 = false → Ascii.eqb c c0 = false.
Proof. intros Hc Hc0. apply Ascii.eqb_neq. intros ->. congruence. Qed.

Lemma free_of_app c0 a b : free_of c0 (a ++ b) = free_of c0 a && free_of c0 b.
Proof.
  induction a as [|c a IH]; [done|].
  rewrite str_app_cons. simpl. rewrite IH. by rewrite andb_assoc.
Qed.

Lemma free_of_digits c0 s :
  digit_val c0 = None → all_digits s = true → free_of c0 s = true.
Proof.
  intros Hc0. induction s as [|c s IH]; simpl; [done|].
  destruct (digit_val c) as [d|] eqn:Hc; [|done]. intros Hs.
  by rewrite (digit_other c d c0), IH.
Qed.

Lemma free_of_space c0 s :
  is_space c0 = false → all_space s = true → free_of c0 s = true.
Proof.
  intros Hc0. induction s as [|c s IH]; simpl; [done|].
  intros [Hc Hs]%andb_true_iff. by rewrite (space_other c c0), IH.
Qed.

(** *** [in] *)

Lemma contains_unfold sub s :
  contains sub s
  = String.prefix sub s
    || match s with
       | EmptyString => false
       | String _ s' => contains sub s'
       end.
Proof. by destruct s. Qed.

Lemma contains_app sub a r : contains sub (a ++ sub ++ r) = true.
Proof.
  induction a as [|c a IH].
  - change ("" ++ sub ++ r) with (sub ++ r).
    rewrite contains_unfold. by rewrite prefix_app.
  - rewrite str_app_cons. simpl. rewrite IH. apply orb_true_r.
Qed.

Lemma contains_free c0 sub s :
  free_of c0 s = true → contains (String c0 sub) s = false.
Proof.
  induction s as [|c s IH]; [done|].
  intros [Hc Hs]%andb_true_iff. apply negb_true_iff, Ascii.eqb_neq in Hc.
  rewrite contains_unfold, prefix_other, IH by done. done.
Qed.

Lemma contains_free_app c0 sub a r :
  free_of c0 a = true →
  contains (String c0 sub) (a ++ r) = contains (String c0 sub) r.
Proof.
  induction a as [|c a IH]; [done|].
  intros [Hc Hs]%andb_true_iff. apply negb_true_iff, Ascii.eqb_neq in Hc.
  rewrite str_app_cons.
  rewrite contains_unfold, prefix_other, IH by done. done.
Qed.

(** *** [strip] *)

Lemma rstrip_space ws : all_space ws = true → rstrip ws = "".
Proof.
  induction ws as [|c ws IH]; [done|]. simpl.
  intros [Hc Hs]%andb_true_iff. by rewrite IH, Hc.
Qed.

Lemma rstrip_end s ws :
  all_space ws = true → rstrip (s ++ "]" ++ ws) = s ++ "]".
Proof.
  intros Hws. induction s as [|c s IH].
  - change (rstrip (String "]" ws) = "]"). simpl. by rewrite rstrip_space.
  - change (rstrip (String c (s ++ "]" ++ ws)) = String c (s ++ "]")).
    simpl. rewrite IH. by destruct s.
Qed.

Lemma rstrip_digits s : all_digits s = true → rstrip s = s.
Proof.
  induction s as [|c s IH]; [done|]. simpl.
  destruct (digit_val c) as [d|] eqn:Hc; [|done]. intros Hs.
  rewrite IH by done. rewrite (digit_not_space c d Hc). by destruct s.
Qed.

Lemma lstrip_numeral s r : numeral s = true → lstrip (s ++ r) = s ++ r.
Proof.
  destruct s as [|c s]; [done|]. rewrite str_app_cons. simpl.
  destruct (digit_val c) as [d|] eqn:Hc; [|done]. intros _.
  by rewrite (digit_not_space c d Hc).
Qed.

(** *** [split] *)

Lemma split_from_skip sep s acc r :
  split_from sep (String.length s) acc (s ++ r) = split_from sep O acc r.
Proof.
  induction s as [|c s IH]; [by destruct r|]. rewrite str_app_cons. apply IH.
Qed.

Lemma split_from_sep c0 sep acc r :
  split_from (String c0 sep) O acc (String c0 sep ++ r)
  = string_of_list_ascii (rev acc) :: split_from (String c0 sep) O [] r.
Proof.
  rewrite str_app_cons. cbn [split_from].
  rewrite <- str_app_cons, prefix_app. cbn [String.length Nat.pred].
  by rewrite split_from_skip.
Qed.

Lemma split_from_free_app c0 sep acc a r :
  free_of c0 a = true →
  split_from (String c0 sep) O acc (a ++ r)
  = split_from (String c0 sep) O (rev (list_ascii_of_string a) ++ acc) r.
Proof.
  revert acc. induction a as [|c a IH]; intros acc; [done|].
  intros [Hc Hs]%andb_true_iff. apply negb_true_iff, Ascii.eqb_neq in Hc.
  rewrite str_app_cons. cbn [split_from]. rewrite prefix_other by done.
  rewrite IH by done. simpl. by rewrite <- app_assoc.
Qed.

Lemma string_of_rev_acc a :
  string_of_list_ascii (rev (rev (list_ascii_of_string a) ++ [])) = a.
Proof.
  rewrite app_nil_r, rev_involutive. apply string_of_list_ascii_of_string.
Qed.

Lemma split_from_free c0 sep a :
  free_of c0 a = true → split_from (String c0 sep) O [] a = [a].
Proof.
  intros Ha. pose proof (split_from_free_app c0 sep [] a "" Ha) as H.
  rewrite str_app_nil_r in H. rewrite H. simpl. by rewrite string_of_rev_acc.
Qed.

(** [a.split(sep)] when [sep] comes once: its first character is neither
    in [a] nor in [b]. *)
Lemma split_once c0 sep a b :
  free_of c0 a = true → free_of c0 b = true →
  split (String c0 sep) (a ++ String c0 sep ++ b) = [a; b].
Proof.
  intros Ha Hb. unfold split.
  rewrite split_from_free_app, split_from_sep, split_from_free by done.
  by rewrite string_of_rev_acc.
Qed.

Lemma drop_last_end s : drop_last (s ++ "]") = s.
Proof.
  induction s as [|c s IH]; [done|].
  change (drop_last (String c (s ++ "]")) = String c s).
  simpl. rewrite IH. by destruct s.
Qed.

(** *** [int] *)

Lemma digits_all acc prev s :
  all_digits s = true → 0 ≤ acc → (s ≠ "" ∨ prev = true) →
  ∃ v, digits acc prev s = Some v ∧ 0 ≤ v.
Proof.
  revert acc prev. induction s as [|c s IH]; intros acc prev Hs Hacc Hne.
  - destruct Hne as [?| ->]; [done|]. by exists acc.
  - simpl in *. destruct (digit_val c) as [d|] eqn:Hc; [|done].
    apply digit_nonneg in Hc. apply IH; [done|lia|by right].
Qed.

Lemma int_rstrip_digits s : all_digits s = true → int_rstrip s = s.
Proof.
  induction s as [|c s IH]; [done|]. simpl.
  destruct (digit_val c) as [d|] eqn:Hc; [|done]. intros Hs.
  rewrite IH by done. rewrite (digit_not_int_space c d Hc). by destruct s.
Qed.

Lemma int_lstrip_numeral s : numeral s = true → int_lstrip s = s.
Proof.
  destruct s as [|c s]; [done|]. simpl.
  destruct (digit_val c) as [d|] eqn:Hc; [|done]. intros _.
  by rewrite (digit_not_int_space c d Hc).
Qed.

Lemma count_digits_length s : (count_digits s ≤ String.length s)%nat.
Proof.
  induction s as [|c s IH]; simpl; [done|]. destruct (digit_val c); lia.
Qed.

Lemma int_unsigned c s :
  c ≠ "+"%char → c ≠ "-"%char →
  int_rstrip (int_lstrip (String c s)) = String c s →
  int (String c s) = int_digits (String c s).
Proof.
  intros Hp Hm Hs. unfold int. rewrite Hs.
  destruct c as [[] [] [] [] [] [] [] []]; try reflexivity; congruence.
Qed.

Lemma int_numeral s :
  numeral s = true → (String.length s ≤ 4300)%nat →
  ∃ v, int s = Some v ∧ 0 ≤ v.
Proof.
  intros Hs Hlen.
  pose proof (int_lstrip_numeral s Hs) as Hl.
  destruct s as [|c s]; [done|]. simpl in Hs.
  destruct (digit_val c) as [d|] eqn:Hc; [|done].
  assert (Hall : all_digits (String c s) = true) by (simpl; by rewrite Hc).
  rewrite int_unsigned.
  - unfold int_digits.
    assert ((max_str_digits <? count_digits (String c s))%nat = false) as ->.
    { apply Nat.ltb_ge. unfold max_str_digits.
      pose proof (count_digits_length (String c s)). lia. }
    apply digits_all; [done|done|by left].
  - intros ->. vm_compute in Hc. discriminate.
  - intros ->. vm_compute in Hc. discriminate.
  - rewrite Hl. by apply int_rstrip_digits.
Qed.

Lemma strip_line s t ws :
  numeral s = true → all_space ws = true →
  strip ((s ++ t ++ "]") ++ ws) = s ++ t ++ "]".
Proof.
  intros Hs Hws. unfold strip. rewrite str_app_assoc, lstrip_numeral by done.
  rewrite str_app_assoc, <- (str_app_assoc s t).
  rewrite rstrip_end by done. apply str_app_assoc.
Qed.

Lemma numeral_digits s : numeral s = true → all_digits s = true.
Proof. by destruct s. Qed.

Lemma parse_proba1_text prob ord ws p n :
  numeral prob = true → numeral ord = true → all_space ws = true →
  int prob = Some p → int ord = Some n →
  parse_proba1 (unigram_text prob ord ++ ws)
  = match chr n with
    | Some c => Return (c, p)
    | None => Raise ValueError
    end.
Proof.
  intros Hprob Hord Hws Hp Hn. unfold parse_proba1, unigram_text.
  change ("=proba1[" ++ ord ++ "]") with (("=proba1[" ++ ord) ++ "]").
  rewrite (strip_line prob ("=proba1[" ++ ord) ws) by done.
  change (("=proba1[" ++ ord) ++ "]") with ("=proba1[" ++ ord ++ "]").
  rewrite (split_once "=" "proba1[" prob (ord ++ "]")).
  - simpl. rewrite drop_last_end, Hn. simpl.
    destruct (chr n); simpl; [|done]. by rewrite Hp.
  - apply free_of_digits; [done|by apply numeral_digits].
  - rewrite free_of_app, free_of_digits; [done|done|by apply numeral_digits].
Qed.

Lemma parse_proba2_text prob ord1 ord2 ws p n1 n2 :
  numeral prob = true → numeral ord1 = true → numeral ord2 = true →
  all_space ws = true →
  int prob = Some p → int ord1 = Some n1 → int ord2 = Some n2 →
  parse_proba2 (bigram_text prob ord1 ord2 ++ ws)
  = match chr n1, chr n2 with
    | Some c1, Some c2 => Return (p, c1, c2)
    | _, _ => Raise ValueError
    end.
Proof.
  intros Hprob Hord1 Hord2 Hws Hp Hn1 Hn2. unfold parse_proba2, bigram_text.
  assert (E : prob ++ "=proba2[" ++ ord1 ++ "*256+" ++ ord2 ++ "]"
              = prob ++ ("=proba2[" ++ ord1 ++ "*256+" ++ ord2) ++ "]").
  { change (("=proba2[" ++ ord1 ++ "*256+" ++ ord2) ++ "]")
      with ("=proba2[" ++ (ord1 ++ "*256+" ++ ord2) ++ "]").
    rewrite (str_app_assoc ord1).
    change (("*256+" ++ ord2) ++ "]") with ("*256+" ++ ord2 ++ "]"). done. }
  rewrite E, strip_line, <- E by done. clear E.
  assert (Hd1 := numeral_digits _ Hord1). assert (Hd2 := numeral_digits _ Hord2).
  rewrite (split_once "=" "proba2[" prob (ord1 ++ "*256+" ++ ord2 ++ "]")).
  - simpl. rewrite Hp. simpl.
    rewrite (split_once "*" "256+" ord1 (ord2 ++ "]")).
    + simpl. rewrite Hn1. simpl. destruct (chr n1); simpl; [|done].
      rewrite drop_last_end, Hn2. simpl. by destruct (chr n2).
    + by apply free_of_digits.
    + rewrite free_of_app, free_of_digits; done.
  - apply free_of_digits; [done|by apply numeral_digits].
  - rewrite free_of_app, (free_of_digits _ ord1) by done.
    change ("*256+" ++ ord2 ++ "]") with (String "*" (String "2" (String "5"
      (String "6" (String "+" (ord2 ++ "]")))))).
    simpl. rewrite free_of_app, free_of_digits; done.
Qed.

End Strings.

(** X11. A unigram line of the format is read as it is written: for a
    probability and a code point written as decimal numerals (of 4300
    digits at most, the limit that recent interpreters put on [int]), the
    line [<probability>=proba1[<code point>]], with its end of line or any
    white space after it, is read as the unigram record of the character
    with that code point and of that probability; the line is given up
    when the code point lies above [0x10FFFF]. *)
Theorem unigram_line_read prob ord ws :
  numeral prob = true → numeral ord = true →
  (String.length prob ≤ 4300)%nat → (String.length ord ≤ 4300)%nat →
  all_space ws = true →
  ∃ p n, int prob = Some p ∧ int ord = Some n ∧ 0 ≤ p ∧ 0 ≤ n ∧
         read_line (unigram_text prob ord ++ ws)%string
         = if n <=? 1114111 then Some (Unigram n p) else None.
Proof.
  intros Hprob Hord Hlp Hlo Hws.
  destruct (int_numeral prob Hprob Hlp) as (p & Hp & Hp0).
  destruct (int_numeral ord Hord Hlo) as (n & Hn & Hn0).
  exists p, n. split_and!; try done.
  unfold read_line.
  assert (Hin : contains "=proba1" (unigram_text prob ord ++ ws)%string = true).
  { unfold unigram_text. rewrite !str_app_assoc.
    apply (contains_app "=proba1" prob (String "[" (ord ++ "]" ++ ws)%string)). }
  rewrite Hin, (parse_proba1_text prob ord ws p n) by done.
  unfold chr. assert (H0 : (0 <=? n) = true) by by apply Z.leb_le.
  rewrite H0. simpl. by destruct (n <=? 1114111).
Qed.

Lemma unigram_line_read_witness :
  ∃ p n, int "27" = Some p ∧ int "97" = Some n ∧ 0 ≤ p ∧ 0 ≤ n ∧
         read_line (text_line (unigram_text "27" "97"))
         = if n <=? 1114111 then Some (Unigram n p) else None.
Proof.
  apply (unigram_line_read "27" "97" (String "010"%char EmptyString));
    (reflexivity || (simpl; lia)).
Defined.

Lemma bigram_text_not_unigram prob ord1 ord2 ws :
  numeral prob = true → numeral ord1 = true → numeral ord2 = true →
  all_space ws = true →
  contains "=proba1" (bigram_text prob ord1 ord2 ++ ws)%string = false.
Proof.
  intros Hprob Hord1 Hord2 Hws.
  unfold bigram_text. rewrite !str_app_assoc.
  rewrite contains_free_app
    by (apply free_of_digits; [done|by apply numeral_digits]).
  rewrite contains_unfold.
  change (contains "=proba1"
            ("proba2[" ++ ord1 ++ "*256+" ++ ord2 ++ "]" ++ ws)%string
          = false).
  apply contains_free.
  change (free_of "=" (String "p" (String "r" (String "o" (String "b"
            (String "a" (String "2" (String "["
               (ord1 ++ "*256+" ++ ord2 ++ "]" ++ ws)%string))))))) = true).
  simpl. rewrite free_of_app, (free_of_digits _ ord1);
    [|done|by apply numeral_digits].
  change (free_of "=" (String "*" (String "2" (String "5" (String "6"
            (String "+" (ord2 ++ "]" ++ ws)%string))))) = true).
  simpl. rewrite free_of_app, (free_of_digits _ ord2);
    [|done|by apply numeral_digits].
  change (free_of "=" (String "]" ws) = true). simpl.
  by apply free_of_space.
Qed.

(** X12. A bigram line of the format is read as it is written: for a
    probability and two code points written as decimal numerals (of 4300
    digits at most), the line
    [<probability>=proba2[<code point 1>*256+<code point 2>]], with its end
    of line or any white space after it, is taken for a bigram line, not
    for a unigram line, and read as the bigram record of that probability
    for the character of the second code point after the character of
    the first one; the line is given up when a code point lies above
    [0x10FFFF]. *)
Theorem bigram_line_read prob ord1 ord2 ws :
  numeral prob = true → numeral ord1 = true → numeral ord2 = true →
  (String.length prob ≤ 4300)%nat → (String.length ord1 ≤ 4300)%nat →
  (String.length ord2 ≤ 4300)%nat → all_space ws = true →
  ∃ p n1 n2, int prob = Some p ∧ int ord1 = Some n1 ∧ int ord2 = Some n2 ∧
             0 ≤ p ∧ 0 ≤ n1 ∧ 0 ≤ n2 ∧
             contains "=proba1" (bigram_text prob ord1 ord2 ++ ws)%string
             = false ∧
             read_line (bigram_text prob ord1 ord2 ++ ws)%string
             = if (n1 <=? 1114111) && (n2 <=? 1114111)
               then Some (Bigram p n1 n2) else None.
Proof.
  intros Hprob Hord1 Hord2 Hlp Hl1 Hl2 Hws.
  destruct (int_numeral prob Hprob Hlp) as (p & Hp & Hp0).
  destruct (int_numeral ord1 Hord1 Hl1) as (n1 & Hn1 & Hn10).
  destruct (int_numeral ord2 Hord2 Hl2) as (n2 & Hn2 & Hn20).
  exists p, n1, n2. split_and!; try done.
  - by apply bigram_text_not_unigram.
  - unfold read_line.
    assert (Hno : contains "=proba1" (bigram_text prob ord1 ord2 ++ ws)%string
                  = false) by (by apply bigram_text_not_unigram).
    assert (Hin : contains "=proba2" (bigram_text prob ord1 ord2 ++ ws)%string
                  = true).
    { unfold bigram_text. rewrite !str_app_assoc.
      apply (contains_app "=proba2" prob
               (String "[" (ord1 ++ "*256+" ++ ord2 ++ "]" ++ ws)%string)). }
    rewrite Hno, Hin, (parse_proba2_text prob ord1 ord2 ws p n1 n2) by done.
    unfold chr.
    assert (H1 : (0 <=? n1) = true) by by apply Z.leb_le.
    assert (H2 : (0 <=? n2) = true) by by apply Z.leb_le.
    rewrite H1, H2. simpl.
    by destruct (n1 <=? 1114111), (n2 <=? 1114111).
Qed.

Lemma bigram_line_read_witness :
  ∃ p n1 n2, int "85" = Some p ∧ int "97" = Some n1 ∧ int "114" = Some n2 ∧
             0 ≤ p ∧ 0 ≤ n1 ∧ 0 ≤ n2 ∧
             contains "=proba1" (text_line (bigram_text "85" "97" "114"))
             = false ∧
             read_line (text_line (bigram_text "85" "97" "114"))
             = if (n1 <=? 1114111) && (n2 <=? 1114111)
               then Some (Bigram p n1 n2) else None.
Proof.
  apply (bigram_line_read "85" "97" "114" (String "010"%char EmptyString));
    (reflexivity || (simpl; lia)).
Defined.

(** ** A line of neither shape that is loaded *)

Lemma shape_has_bracket (a b ws : string) :
  free_of "]" (a ++ (b ++ "]") ++ ws)%string = false.
Proof.
  rewrite !free_of_app.
  change (free_of "]" "]") with false.
  by rewrite !andb_false_r.
Qed.

(** C10, the counterexample. A line that matches neither the unigram
    shape nor the bigram shape does not always fail the load: the line
    [5=proba1[97], cut before its closing bracket, has neither shape, and
    a file made of this line is loaded, into a model whose only character
    has the code point 9. *)
Example malformed_line_loads :
  ¬ unigram_shape unclosed_line ∧ ¬ bigram_shape unclosed_line ∧
  MarkovCracker_init (Some (Some [unclosed_line])) = Return unclosed_model.
Proof.
  split_and!.
  - intros (prob & ord & ws & _ & _ & _ & Heq).
    apply (f_equal (free_of "]")) in Heq. unfold unigram_text in Heq.
    change (prob ++ "=proba1[" ++ ord ++ "]")%string
      with (prob ++ ("=proba1[" ++ ord) ++ "]")%string in Heq.
    rewrite str_app_assoc, shape_has_bracket in Heq. by vm_compute in Heq.
  - intros (prob & ord1 & ord2 & ws & _ & _ & _ & _ & Heq).
    apply (f_equal (free_of "]")) in Heq. unfold bigram_text in Heq.
    rewrite str_app_assoc in Heq.
    change ("=proba2[" ++ ord1 ++ "*256+" ++ ord2 ++ "]")%string
      with ("=proba2[" ++ (ord1 ++ "*256+" ++ ord2 ++ "]"))%string in Heq.
    rewrite <- !str_app_assoc in Heq.
    rewrite free_of_app, free_of_app in Heq.
    change (free_of "]" "]") with false in Heq.
    rewrite !andb_false_r in Heq. by vm_compute in Heq.
  - vm_compute. reflexivity.
Qed.

(** ** The band and the guesses *)

Lemma filter_sublist_impl {A : Type} (P Q : A → Prop)
    `{∀ x, Decision (P x)} `{∀ x, Decision (Q x)} (l : list A) :
  (∀ x, P x → Q x) → filter P l `sublist_of` filter Q l.
Proof.
  intros HPQ. induction l as [|x l IH]; [done|].
  rewrite !filter_cons. destruct (decide (P x)) as [HP|HP].
  - rewrite decide_True by auto. by apply sublist_skip.
  - destruct (decide (Q x)); [by apply sublist_cons|done].
Qed.

(** X13. Raising [min_level] only filters. For a model as in X4 and
    [minl ≤ minl' ≤ maxl], the guesses of a session with the band
    [minl' .. maxl] are guesses of a session with the band [minl .. maxl],
    in the same order: those of them whose level is [minl'] or more. *)
Theorem raising_min_level_filters self minl minl' maxl :
  well_formed self → positive self → minl ≤ minl' → minl' ≤ maxl →
  ∃ fuel gs gs' mi mi',
    session fuel self (S (length gs)) (MarkovIndex_init minl maxl)
    = Return ((Some <$> gs) ++ [None], mi) ∧
    session fuel self (S (length gs')) (MarkovIndex_init minl' maxl)
    = Return ((Some <$> gs') ++ [None], mi') ∧
    gs' `sublist_of` gs ∧
    ∀ g, g ∈ gs' ↔ g ∈ gs ∧ ∃ l, level_of self g = Some l ∧ minl' ≤ l.
Proof.
  intros Hwf Hpos Hmin Hband.
  destruct (full_session self minl maxl Hwf Hpos ltac:(lia))
    as (f1 & mi & Hs1 & _).
  destruct (full_session self minl' maxl Hwf Hpos Hband)
    as (f2 & mi' & Hs2 & _).
  exists (Nat.max f1 f2), (enumeration self minl maxl),
         (enumeration self minl' maxl), mi, mi'.
  split_and!.
  - eapply session_fuel; [|exact Hs1]. apply Nat.le_max_l.
  - eapply session_fuel; [|exact Hs2]. apply Nat.le_max_r.
  - unfold enumeration, guesses. apply fmap_sublist, filter_sublist_impl.
    intros v. lia.
  - intros g. unfold enumeration, guesses. rewrite !list_elem_of_fmap. split.
    + intros ([g' l] & -> & [Hl Hv]%list_elem_of_filter). simpl in *. split.
      * exists (g', l). split; [done|]. apply list_elem_of_filter.
        split; [simpl; lia|done].
      * apply visits_sound in Hv as [_ Hv]. exists l. split; [done|lia].
    + intros [([g' l] & -> & [Hl Hv]%list_elem_of_filter) (l' & Hl' & Hle)].
      simpl in *. exists (g', l). split; [done|].
      apply list_elem_of_filter. split; [|done]. simpl.
      apply visits_sound in Hv as [_ Hv]. simpl in Hv.
      rewrite Hv in Hl'. injection Hl' as <-. lia.
Qed.

Lemma raising_min_level_filters_witness :
  ∃ fuel gs gs' mi mi',
    session fuel siblings_model (S (length gs)) (MarkovIndex_init 0 3)
    = Return ((Some <$> gs) ++ [None], mi) ∧
    session fuel siblings_model (S (length gs')) (MarkovIndex_init 1 3)
    = Return ((Some <$> gs') ++ [None], mi') ∧
    gs' `sublist_of` gs ∧
    ∀ g, g ∈ gs' ↔ g ∈ gs ∧ ∃ l, level_of siblings_model g = Some l ∧ 1 ≤ l.
Proof.
  apply (raising_min_level_filters siblings_model 0 1 3).
  - compute_done.
  - compute_done.
  - lia.
  - lia.
Defined.

(** X14. No guess goes through a prefix above [max_level]: in a session,
    every prefix of two characters or more of a returned guess has a
    level, and that level is [max_level] or less (it may be less than
    [min_level]). *)
Theorem returned_prefixes_bounded self minl maxl fuel n results mi' g q :
  session fuel self n (MarkovIndex_init minl maxl) = Return (results, mi') →
  Some g ∈ results → q `prefix_of` g → (2 ≤ length q)%nat →
  ∃ l, level_of self q = Some l ∧ l ≤ maxl.
Proof.
  intros H Hg Hq Hlen.
  apply session_keeps in H as (_ & _ & _ & Hres & _);
    [|apply index_ok_init].
  destruct (Hres g Hg) as (_ & _ & _ & Hb). by apply Hb.
Qed.

Lemma returned_prefixes_bounded_witness :
  ∃ l, level_of siblings_model [97; 98] = Some l ∧ l ≤ 3.
Proof.
  apply (returned_prefixes_bounded siblings_model 0 3 4 2
           [Some [97]; Some [97; 98]]
           {| min_level := 0; max_level := 3;
              guess := Some [97; 98]; guess_level := 1 |}
           [97; 98] [97; 98]).
  - vm_compute. reflexivity.
  - apply list_elem_of_further, list_elem_of_here.
  - done.
  - simpl. lia.
Defined.

(** ** The length of the guesses *)

Lemma edges_level_length self c rest l :
  positive self → edges_level self c rest = Some l →
  Z.of_nat (length rest) ≤ l.
Proof.
  intros Hpos. revert c l. induction rest as [|c' rest IH]; intros c l; simpl.
  - intros [= <-]. lia.
  - destruct (transition self c c') as [t|] eqn:Ht; simpl; [|done].
    destruct (edges_level self c' rest) as [l'|] eqn:Hl'; simpl; [|done].
    intros [= <-]. apply (positive_transition self Hpos) in Ht.
    specialize (IH c' l' Hl'). lia.
Qed.

(** X15. The band bounds the length of the guesses: with positive
    transition probabilities, a guess returned in a session that starts
    with a character of start probability [s] has at most
    [max_level - s + 1] characters. *)
Theorem guess_length_bounded self minl maxl fuel n results mi' g :
  positive self →
  session fuel self n (MarkovIndex_init minl maxl) = Return (results, mi') →
  Some g ∈ results →
  ∃ c s, head g = Some c ∧ start_probability self c = Some s ∧
         s + Z.of_nat (length g) - 1 ≤ maxl.
Proof.
  intros Hpos H Hg.
  apply session_keeps in H as (_ & _ & _ & Hres & _);
    [|apply index_ok_init].
  destruct (Hres g Hg) as (l & Hl & Hband & _). simpl in Hband.
  destruct g as [|c rest]; simpl in Hl; [done|].
  destruct (start_probability self c) as [s|] eqn:Hs; simpl in Hl; [|done].
  destruct (edges_level self c rest) as [e|] eqn:He; simpl in Hl; [|done].
  injection Hl as <-. exists c, s. split_and!; [done|done|].
  apply (edges_level_length self c rest e Hpos) in He.
  simpl. lia.
Qed.

Lemma guess_length_bounded_witness :
  ∃ c s, head [97; 98] = Some c ∧ start_probability siblings_model c = Some s ∧
         s + Z.of_nat (length [97; 98]) - 1 ≤ 3.
Proof.
  apply (guess_length_bounded siblings_model 0 3 4 2
           [Some [97]; Some [97; 98]]
           {| min_level := 0; max_level := 3;
              guess := Some [97; 98]; guess_level := 1 |}
           [97; 98]).
  - compute_done.
  - vm_compute. reflexivity.
  - apply list_elem_of_further, list_elem_of_here.
Defined.

(** ** A higher limit *)

Lemma filter_sublist_mono {A : Type} (P : A → Prop)
    `{∀ x, Decision (P x)} (l1 l2 : list A) :
  l1 `sublist_of` l2 → filter P l1 `sublist_of` filter P l2.
Proof.
  induction 1 as [|x l1 l2 _ IH|x l1 l2 _ IH]; [done| |].
  - rewrite !filter_cons. destruct (decide (P x)); [by apply sublist_skip|done].
  - rewrite filter_cons. destruct (decide (P x)); [by apply sublist_cons|done].
Qed.

Section Limits.
Context (self : MarkovCracker) (maxl maxl' : Z).
Context (Hpos : positive self) (Hle : maxl ≤ maxl').

Lemma along_limit rec rec' p x lvl cs :
  (∀ c t, rec (p ++ [c]) c (lvl + t) `sublist_of` rec' (p ++ [c]) c (lvl + t)) →
  along self maxl rec p x lvl cs `sublist_of` along self maxl' rec' p x lvl cs.
Proof.
  intros Hrec. induction cs as [|c cs IH]; simpl; [done|].
  destruct (transition self x c) as [t|]; [|done].
  destruct (maxl <? lvl + t) eqn:Hlt; [apply sublist_nil_l|].
  apply Z.ltb_ge in Hlt.
  assert ((maxl' <? lvl + t) = false) as -> by (apply Z.ltb_ge; lia).
  apply sublist_skip, sublist_app; [apply Hrec|apply IH].
Qed.

Lemma below_limit d p x lvl :
  below self maxl d p x lvl `sublist_of` below self maxl' d p x lvl.
Proof.
  revert p x lvl. induction d as [|d IH]; intros p x lvl; simpl; [done|].
  apply along_limit. intros c t. apply IH.
Qed.

Lemma sub_limit p x lvl :
  sub self maxl p x lvl `sublist_of` sub self maxl' p x lvl.
Proof.
  unfold sub at 2.
  rewrite <- (below_enough self maxl Hpos (Z.to_nat (maxl' - lvl))) by lia.
  apply below_limit.
Qed.

Lemma along_roots_limit rs :
  along_roots self maxl rs `sublist_of` along_roots self maxl' rs.
Proof.
  induction rs as [|c rs IH]; simpl; [done|].
  destruct (start_probability self c) as [s|]; [|done].
  destruct (maxl <? s) eqn:Hlt; [apply sublist_nil_l|].
  apply Z.ltb_ge in Hlt.
  assert ((maxl' <? s) = false) as -> by (apply Z.ltb_ge; lia).
  apply sublist_skip, sublist_app; [apply sub_limit|apply IH].
Qed.

Lemma visits_limit : visits self maxl `sublist_of` visits self maxl'.
Proof.
  unfold visits. destruct (top_letters self) as [|c rs]; [done|].
  destruct (start_probability self c) as [s|]; [|done].
  apply sublist_skip, sublist_app; [apply sub_limit|apply along_roots_limit].
Qed.

Lemma enumeration_limit minl :
  enumeration self minl maxl `sublist_of` enumeration self minl maxl'.
Proof.
  unfold enumeration, guesses. apply fmap_sublist.
  trans (filter (λ v : visit, minl ≤ v.2 ≤ maxl) (visits self maxl')).
  - apply filter_sublist_mono, visits_limit.
  - apply filter_sublist_impl. intros v. lia.
Qed.

End Limits.

(** X16. Raising [max_level] only adds guesses. For a model as in X4 and
    [minl ≤ maxl ≤ maxl'], the guesses of a session with the band
    [minl .. maxl] come, in the same order, among the guesses of a session
    with the band [minl .. maxl']. *)
Theorem raising_max_level_adds self minl maxl maxl' :
  well_formed self → positive self → minl ≤ maxl → maxl ≤ maxl' →
  ∃ fuel gs gs' mi mi',
    session fuel self (S (length gs)) (MarkovIndex_init minl maxl)
    = Return ((Some <$> gs) ++ [None], mi) ∧
    session fuel self (S (length gs')) (MarkovIndex_init minl maxl')
    = Return ((Some <$> gs') ++ [None], mi') ∧
    gs `sublist_of` gs'.
Proof.
  intros Hwf Hpos Hband Hle.
  destruct (full_session self minl maxl Hwf Hpos Hband)
    as (f1 & mi & Hs1 & _).
  destruct (full_session self minl maxl' Hwf Hpos ltac:(lia))
    as (f2 & mi' & Hs2 & _).
  exists (Nat.max f1 f2), (enumeration self minl maxl),
         (enumeration self minl maxl'), mi, mi'.
  split_and!.
  - eapply session_fuel; [|exact Hs1]. apply Nat.le_max_l.
  - eapply session_fuel; [|exact Hs2]. apply Nat.le_max_r.
  - by apply enumeration_limit.
Qed.

Lemma raising_max_level_adds_witness :
  ∃ fuel gs gs' mi mi',
    session fuel siblings_model (S (length gs)) (MarkovIndex_init 0 3)
    = Return ((Some <$> gs) ++ [None], mi) ∧
    session fuel siblings_model (S (length gs')) (MarkovIndex_init 0 9)
    = Return ((Some <$> gs') ++ [None], mi') ∧
    gs `sublist_of` gs'.
Proof.
  apply (raising_max_level_adds siblings_model 0 3 9).
  - compute_done.
  - compute_done.
  - lia.
  - lia.
Defined.

(** ** Files in the order of the probabilities *)

Lemma StronglySorted_omap {A B : Type} (R : relation A) (R' : relation B)
    (f : A → option B) (l : list A) :
  StronglySorted R l →
  (∀ r1 r2 a b, r1 ∈ l → r2 ∈ l → f r1 = Some a → f r2 = Some b →
                R r1 r2 → R' a b) →
  StronglySorted R' (omap f l).
Proof.
  induction 1 as [|r l Hl IH Hall]; intros HR; [constructor|].
  assert (Htail : StronglySorted R' (omap f l)).
  { apply IH. intros r1 r2 a b H1 H2. apply HR; by apply list_elem_of_further. }
  simpl. destruct (f r) as [a|] eqn:Hr; [|done].
  constructor; [done|]. apply Forall_forall. intros b Hb.
  apply list_elem_of_omap in Hb as (r2 & Hr2 & Hb).
  apply (HR r r2); [apply list_elem_of_here|by apply list_elem_of_further|
                    done|done|].
  rewrite Forall_forall in Hall. by apply Hall.
Qed.

Lemma loaded_ordered self prev rs :
  loaded self prev rs → sorted_file rs → ordered self.
Proof.
  intros Hld Hsorted. split.
  - unfold top_letters. rewrite (loaded_top_chain _ _ _ Hld). simpl.
    apply (StronglySorted_omap record_le); [done|].
    intros [u1 p1|? ? ?] [u2 p2|? ? ?] a b H1 H2; try done.
    intros [= <-] [= <-] Hle.
    rewrite (ld_prob _ _ _ Hld _ _ H1), (ld_prob _ _ _ Hld _ _ H2). exact Hle.
  - intros x nd Hnd. simpl. unfold children. unfold letter in *. rewrite Hnd.
    rewrite (loaded_child_chain _ _ _ _ _ Hld Hnd). simpl.
    apply (StronglySorted_omap record_le); [done|].
    intros [? ?|p1 x1 y1] [? ?|p2 x2 y2] a b H1 H2; try done.
    destruct (decide (x1 = x)) as [->|]; [|done].
    destruct (decide (x2 = x)) as [->|]; [|done].
    intros [= <-] [= <-] Hle.
    rewrite (loaded_transition _ _ _ _ _ _ Hld H1),
            (loaded_transition _ _ _ _ _ _ Hld H2). simpl. by apply Hle.
Qed.

(** X17. From a file in the order of the probabilities to all the
    guesses. For a file as in X9 whose probabilities do not decrease
    along the file (from a unigram line to a later one, from a bigram
    line to a later one with the same first character), the session on
    the loaded model returns, each once, exactly the strings of the trie
    with a level in the band, and then signals exhaustion. *)
Theorem sorted_file_guesses_complete lines rs minl maxl :
  mapM read_line lines = Some rs → declared_once [] rs = true →
  unigrams rs ≠ [] → followers_declared rs →
  (∀ p x c, Bigram p x c ∈ rs → 0 < p) → sorted_file rs → minl ≤ maxl →
  ∃ self gs fuel mi',
    MarkovCracker_init (Some (Some lines)) = Return self ∧
    session fuel self (S (length gs)) (MarkovIndex_init minl maxl)
    = Return ((Some <$> gs) ++ [None], mi') ∧
    NoDup gs ∧
    ∀ g, g ∈ gs ↔
         reachable self g ∧ ∃ l, level_of self g = Some l ∧ minl ≤ l ≤ maxl.
Proof.
  intros Hread Hok Hne Hdecl Hpos Hsorted Hband.
  destruct (file_loaded lines rs Hread Hok) as (self & prev & Hinit & Hld).
  pose proof (loaded_well_formed _ _ _ Hld Hne Hdecl) as Hwf.
  pose proof (loaded_positive _ _ _ Hld Hpos) as Hp.
  pose proof (loaded_ordered _ _ _ Hld Hsorted) as Hord.
  destruct (full_session self minl maxl Hwf Hp Hband)
    as (fuel & mi' & Hs & Hnone).
  exists self, (enumeration self minl maxl), fuel, mi'.
  split_and!; [done|done|by apply enumeration_NoDup|].
  intros g. by apply enumeration_spec.
Qed.

Lemma sorted_file_guesses_complete_witness :
  ∃ self gs fuel mi',
    MarkovCracker_init (Some (Some ordered_lines)) = Return self ∧
    session fuel self (S (length gs)) (MarkovIndex_init 0 3)
    = Return ((Some <$> gs) ++ [None], mi') ∧
    NoDup gs ∧
    ∀ g, g ∈ gs ↔
         reachable self g ∧ ∃ l, level_of self g = Some l ∧ 0 ≤ l ≤ 3.
Proof.
  apply (sorted_file_guesses_complete ordered_lines
           [Unigram 97 0; Unigram 98 2; Bigram 1 97 97; Bigram 2 97 98;
            Bigram 3 98 97] 0 3).
  - vm_compute. reflexivity.
  - vm_compute. reflexivity.
  - discriminate.
  - unfold followers_declared. repeat constructor; compute_done.
  - intros p x c Hin. repeat (apply elem_of_cons in Hin as [Hin|Hin];
      [by simplify_eq|]). by apply elem_of_nil in Hin.
  - unfold sorted_file. repeat constructor; simpl; lia.
  - lia.
Defined.
